(** * aliveAgent.js: a keep-alive connection pool (Agent)

    A shallow embedding of [src/aliveAgent.js] and the properties of its
    pool bookkeeping.  The Agent object is a record of finite maps; every
    method becomes a function on that record.  JavaScript exceptions
    are modelled by [option]: [None] means that the call threw.  The code
    throws a [TypeError] in two places: [validateIdle] reads [some] of
    [undefined] when [idleSockets] has no property for the name, and
    [findOrCreateSocket] calls [replace] on the Host header of the
    request, which a header that is not a string does not have.  A run
    of events ends at a reaction that throws.

    Strings are sequences of bytes, a JavaScript string being given by
    its UTF-8 encoding.  The numbers given to the constructor as
    [maxSockets] are the JavaScript numbers: the rationals, the two
    infinities and [NaN].

    The three kinds of object the Agent talks to are kept abstract, as
    they are in the source:
    - a socket is a reference (a number) into a store of socket objects
      that records the [destroyed] property of the socket and the three
      listeners that [findOrCreateSocket] registers on it;
    - a request is an identifier together with the value of its [host]
      header; [req.onSocket(s)] is recorded in a log;
    - [createConnection] allocates the next socket reference and records
      the options object it was called with.

    Every reaction of the Agent (a call of [addRequest], an event of a
    socket, the validation timer) reads the clock; the value read is the
    argument [now] of the function that models the reaction. *)

From stdpp Require Import base option list strings gmap fin_maps.
From Stdlib Require Import Ascii ZArith Lia QArith.

Close Scope Q_scope.
Local Open Scope Z_scope.
Local Open Scope nat_scope.

(** ** Data model *)

Abbreviation Socket := nat.

(** A JavaScript number. *)
Inductive number :=
| NaN
| PosInfinity
| NegInfinity
| Finite (q : Q).

Definition integer (k : Z) : number := Finite (inject_Z k).

(** [x || ...] takes the right-hand side when [x] is [0] or [NaN]. *)
Definition isTruthy (x : number) : bool :=
  match x with
  | NaN => false
  | PosInfinity | NegInfinity => true
  | Finite q => negb (Qeq_bool q 0)
  end.

(** [n < x], for the length [n] of an array. *)
Definition lengthBelow (n : nat) (x : number) : bool :=
  match x with
  | NaN | NegInfinity => false
  | PosInfinity => true
  | Finite q => negb (Qle_bool q (inject_Z (Z.of_nat n)))
  end.

(** What [req.getHeader('host')] returns when the header is set: a
    string, or a value of another type (a number, an array of strings),
    of which the code observes whether it is truthy. *)
Inductive HeaderValue :=
| HeaderString (s : string)
| HeaderOther (truthy : bool).

#[global] Instance HeaderValue_eq_dec : EqDecision HeaderValue.
Proof. solve_decision. Defined.

(** A request: [req.getHeader('host')] is [req_hostHeader], [None] when
    it is [undefined]. *)
Record Request := mkRequest {
  req_id : nat;
  req_hostHeader : option HeaderValue
}.

#[global] Instance Request_eq_dec : EqDecision Request.
Proof. solve_decision. Defined.

(** An element of [idleSockets[name]]: [{ socket: ..., validTill: ... }]. *)
Record IdleEntry := mkIdle {
  socket : Socket;
  validTill : Z
}.

#[global] Instance IdleEntry_eq_dec : EqDecision IdleEntry.
Proof. solve_decision. Defined.

(** The variables captured by the closures [onFree], [onClose] and
    [onRemove] of [findOrCreateSocket]. *)
Record Closure := mkClosure {
  cl_name : string;
  cl_host : string;
  cl_port : string;
  cl_localAddress : option string
}.

(** A socket object, as far as the Agent observes it. *)
Record SocketObj := mkSocketObj {
  destroyed : bool;
  onFree : option Closure;   (* the listener of 'free', when registered *)
  onClose : option Closure;  (* the listener of 'close', when registered *)
  onRemove : option Closure  (* the listener of 'agentRemove', when registered *)
}.

(** The options object passed to [createConnection]. *)
Record ConnOptions := mkConnOptions {
  o_port : string;
  o_host : string;
  o_localAddress : option string;
  o_servername : string
}.

(** The options object passed to the constructor. *)
Record AgentOptions := mkAgentOptions {
  opt_maxSockets : option number;
  opt_keepAlive : option Z
}.

(** The Agent ([requests], [sockets], [idleSockets], [maxSockets],
    [keepAlive], [validationTimer]) and the objects around it
    ([heap], [nextSocket], [created], [assigned]). *)
Record AgentState := mkAgent {
  requests : gmap string (list Request);
  sockets : gmap string (list Socket);
  idleSockets : gmap string (list IdleEntry);
  maxSockets : number;
  keepAlive : Z;
  validationTimer : bool;            (* "validationTimer" in this *)
  heap : gmap nat SocketObj;         (* the socket objects *)
  nextSocket : Socket;               (* next reference handed out by createConnection *)
  created : list ConnOptions;        (* calls of createConnection, oldest first *)
  assigned : list (Request * Socket) (* calls of req.onSocket(s), oldest first *)
}.

Definition set_requests (f : gmap string (list Request) → gmap string (list Request))
    (st : AgentState) : AgentState :=
  mkAgent (f (requests st)) (sockets st) (idleSockets st) (maxSockets st)
          (keepAlive st) (validationTimer st) (heap st) (nextSocket st)
          (created st) (assigned st).

Definition set_sockets (f : gmap string (list Socket) → gmap string (list Socket))
    (st : AgentState) : AgentState :=
  mkAgent (requests st) (f (sockets st)) (idleSockets st) (maxSockets st)
          (keepAlive st) (validationTimer st) (heap st) (nextSocket st)
          (created st) (assigned st).

Definition set_idleSockets (f : gmap string (list IdleEntry) → gmap string (list IdleEntry))
    (st : AgentState) : AgentState :=
  mkAgent (requests st) (sockets st) (f (idleSockets st)) (maxSockets st)
          (keepAlive st) (validationTimer st) (heap st) (nextSocket st)
          (created st) (assigned st).

Definition set_validationTimer (b : bool) (st : AgentState) : AgentState :=
  mkAgent (requests st) (sockets st) (idleSockets st) (maxSockets st)
          (keepAlive st) b (heap st) (nextSocket st)
          (created st) (assigned st).

Definition set_heap (f : gmap nat SocketObj → gmap nat SocketObj)
    (st : AgentState) : AgentState :=
  mkAgent (requests st) (sockets st) (idleSockets st) (maxSockets st)
          (keepAlive st) (validationTimer st) (f (heap st)) (nextSocket st)
          (created st) (assigned st).

(** ** The objects around the Agent *)

(** [req.onSocket(s)]. *)
Definition onSocket (req : Request) (s : Socket) (st : AgentState) : AgentState :=
  mkAgent (requests st) (sockets st) (idleSockets st) (maxSockets st)
          (keepAlive st) (validationTimer st) (heap st) (nextSocket st)
          (created st) (assigned st ++ [(req, s)]).

(** [s.destroy()]: sets [s.destroyed]. *)
Definition destroy (s : Socket) (st : AgentState) : AgentState :=
  set_heap (alter (λ o, mkSocketObj true (onFree o) (onClose o) (onRemove o)) s) st.

(** [socket.destroyed]. *)
Definition isDestroyed (s : Socket) (st : AgentState) : bool :=
  match heap st !! s with
  | Some o => destroyed o
  | None => false
  end.

(** [self.createConnection(options)]: a new socket object, not destroyed,
    with no listener yet. *)
Definition createConnection (options : ConnOptions)
    (st : AgentState) : Socket * AgentState :=
  let s := nextSocket st in
  (s, mkAgent (requests st) (sockets st) (idleSockets st) (maxSockets st)
        (keepAlive st) (validationTimer st)
        (<[s := mkSocketObj false None None None]> (heap st))
        (S s) (created st ++ [options]) (assigned st)).

(** [s.on('free', onFree); s.on('close', onClose); s.on('agentRemove', onRemove)]. *)
Definition addListeners (s : Socket) (cl : Closure) (st : AgentState) : AgentState :=
  set_heap (alter (λ o, mkSocketObj (destroyed o) (Some cl) (Some cl) (Some cl)) s) st.

(** The three [s.removeListener] calls of [onRemove]. *)
Definition removeListeners (s : Socket) (st : AgentState) : AgentState :=
  set_heap (alter (λ o, mkSocketObj (destroyed o) None None None) s) st.

(** ** Strings *)

(** [host + ':' + port], followed by [':' + localAddress] when
    [localAddress] is truthy (neither [undefined] nor the empty string). *)
Definition endpointName (host port : string) (localAddress : option string) : string :=
  let name := host +:+ ":" +:+ port in
  match localAddress with
  | Some la => if bool_decide (la = "") then name else name +:+ ":" +:+ la
  | None => name
  end.

(** [s] contains a character that [.] does not match: LF, CR, or U+2028
    or U+2029, whose encodings are the bytes E2 80 A8 and E2 80 A9. *)
Fixpoint hasLineTerminator (s : string) : bool :=
  match s with
  | EmptyString => false
  | String c s' =>
      bool_decide (c = "010"%char) || bool_decide (c = "013"%char) ||
      (bool_decide (c = "226"%char) &&
       match s' with
       | String c1 (String c2 _) =>
           bool_decide (c1 = "128"%char) &&
           (bool_decide (c2 = "168"%char) || bool_decide (c2 = "169"%char))
       | _ => false
       end) ||
      hasLineTerminator s'
  end.

(** [hostHeader.replace(/:.*$/, '')]: the leftmost colon that is followed
    by no line terminator, and everything after it, is removed. *)
Fixpoint stripPort (s : string) : string :=
  match s with
  | EmptyString => EmptyString
  | String c s' =>
      if bool_decide (c = ":"%char) && negb (hasLineTerminator s') then EmptyString
      else String c (stripPort s')
  end.

(** ** The constructor *)

Definition defaultMaxSockets : number := integer 5.
Definition defaultKeepAlive : Z := (10 * 1000)%Z.

(** [function Agent(options)]; [x || d] is [d] when [x] is [undefined],
    0 or [NaN]. *)
Definition Agent (options : AgentOptions) : AgentState :=
  mkAgent ∅ ∅ ∅
    (match opt_maxSockets options with
     | Some x => if isTruthy x then x else defaultMaxSockets
     | None => defaultMaxSockets
     end)
    (match opt_keepAlive options with
     | Some k => if bool_decide (k = 0%Z) then defaultKeepAlive else k
     | None => defaultKeepAlive
     end)
    false ∅ 0 [] [].

(** ** The methods of the Agent *)

(** [this.sockets[name].indexOf(s)]; [None] stands for [-1]. *)
Fixpoint indexOf (s : Socket) (l : list Socket) : option nat :=
  match l with
  | [] => None
  | x :: l' => if bool_decide (x = s) then Some 0 else S <$> indexOf s l'
  end.

(** The index that the [some] loop of [removeFromIdleSockets] leaves in
    [index]: the first entry whose socket is [s]. *)
Fixpoint indexOfIdle (s : Socket) (l : list IdleEntry) : option nat :=
  match l with
  | [] => None
  | e :: l' => if bool_decide (socket e = s) then Some 0 else S <$> indexOfIdle s l'
  end.

(** [Agent.prototype.removeFromSockets]. *)
Definition removeFromSockets (s : Socket) (name : string) (st : AgentState) : AgentState :=
  match sockets st !! name with
  | Some l =>
      match indexOf s l with
      | Some index =>
          let l' := delete index l in            (* splice(index, 1) *)
          if bool_decide (length l' = 0)
          then set_sockets (delete name) st      (* don't leak *)
          else set_sockets (<[name := l']>) st
      | None => st
      end
  | None => st
  end.

(** [Agent.prototype.removeFromIdleSockets]. *)
Definition removeFromIdleSockets (s : Socket) (name : string) (st : AgentState) : AgentState :=
  match idleSockets st !! name with
  | Some l =>
      match indexOfIdle s l with
      | Some index =>
          let l' := delete index l in
          if bool_decide (length l' = 0)
          then set_idleSockets (delete name) st
          else set_idleSockets (<[name := l']>) st
      | None => st
      end
  | None => st
  end.

(** [Agent.prototype.setupValidator], up to the callback, which is
    [validationTimerCallback] below.  The delay of the timer,
    [Math.max(this.keepAlive / 10, 1000)], decides when the callback
    runs; the callback is an event of the environment here. *)
Definition setupValidator (st : AgentState) : AgentState :=
  if validationTimer st then st else set_validationTimer true st.

(** [Agent.prototype.putIdleSocket]. *)
Definition putIdleSocket (s : Socket) (name : string) (now : Z) (st : AgentState) : AgentState :=
  let st1 :=
    match idleSockets st !! name with
    | Some _ => st
    | None => set_idleSockets (<[name := []]>) st
    end in
  let l := default [] (idleSockets st1 !! name) in
  let st2 := set_idleSockets (<[name := l ++ [mkIdle s (now + keepAlive st1)%Z]]>) st1 in
  setupValidator st2.

(** The value of [count] after the [some] loop of [validateIdle]: the
    length of the longest prefix of entries with [validTill < now]. *)
Fixpoint expiredCount (now : Z) (l : list IdleEntry) : nat :=
  match l with
  | [] => 0
  | e :: l' => if bool_decide (validTill e < now)%Z then S (expiredCount now l') else 0
  end.

(** [removed.forEach(function(sobj) { sobj.socket.destroy(); })]. *)
Fixpoint destroyAll (removed : list IdleEntry) (st : AgentState) : AgentState :=
  match removed with
  | [] => st
  | sobj :: removed' => destroyAll removed' (destroy (socket sobj) st)
  end.

(** [Agent.prototype.validateIdle].  [sockets.some] throws when
    [this.idleSockets[name]] is [undefined]. *)
Definition validateIdle (name : string) (now : Z) (st : AgentState) : option (bool * AgentState) :=
  match idleSockets st !! name with
  | None => None
  | Some l =>
      let count := expiredCount now l in
      if bool_decide (0 < count) then
        let removed := take count l in           (* sockets.splice(0, count) *)
        let l' := drop count l in
        let st1 := set_idleSockets (<[name := l']>) st in
        let st2 := destroyAll removed st1 in
        let st3 := if bool_decide (length l' = 0)
                   then set_idleSockets (delete name) st2
                   else st2 in
        Some (bool_decide (0 < length l'), st3)
      else Some (bool_decide (0 < length l), st)
  end.

(** [Agent.prototype.findIdleSocket]; [None] as a socket stands for [null]. *)
Definition findIdleSocket (name : string) (now : Z) (st : AgentState)
    : option (option Socket * AgentState) :=
  match idleSockets st !! name with
  | None => Some (None, st)
  | Some _ =>
      '(valid, st1) ← validateIdle name now st;
      if negb valid then Some (None, st1)
      else
        l ← idleSockets st1 !! name;
        match l with
        | [] => Some (None, st1)                 (* shift() of an empty array *)
        | sobj :: l' =>
            let st2 := set_idleSockets (<[name := l']>) st1 in
            let st3 :=
              match sockets st2 !! name with
              | Some _ => st2
              | None => set_sockets (<[name := []]>) st2
              end in
            let active := default [] (sockets st3 !! name) in
            Some (Some (socket sobj),
                  set_sockets (<[name := active ++ [socket sobj]]>) st3)
        end
  end.

(** The value of [options.servername] in [findOrCreateSocket]: the
    host, or the Host header of the request without its port when the
    header is truthy; [hostHeader.replace] throws when the header is
    truthy and not a string. *)
Definition servernameFor (host : string) (req : option Request) : option string :=
  match req with
  | Some r =>
      match req_hostHeader r with
      | Some (HeaderString hostHeader) =>
          if bool_decide (hostHeader = "") then Some host
          else Some (stripPort hostHeader)
      | Some (HeaderOther true) => None
      | Some (HeaderOther false) | None => Some host
      end
  | None => Some host
  end.

(** [Agent.prototype.findOrCreateSocket]. *)
Definition findOrCreateSocket (name host port : string) (localAddress : option string)
    (req : option Request) (now : Z) (st : AgentState) : option (Socket * AgentState) :=
  '(idleSocket, st1) ← findIdleSocket name now st;
  match idleSocket with
  | Some s => Some (s, st1)
  | None =>
      servername ← servernameFor host req;
      let options := mkConnOptions port host localAddress servername in
      let '(s, st2) := createConnection options st1 in
      let st3 :=
        match sockets st2 !! name with
        | Some _ => st2
        | None => set_sockets (<[name := []]>) st2
        end in
      let active := default [] (sockets st3 !! name) in
      let st4 := set_sockets (<[name := active ++ [s]]>) st3 in
      Some (s, addListeners s (mkClosure name host port localAddress) st4)
  end.

(** [Agent.prototype.addRequest]. *)
Definition addRequest (req : Request) (host port : string) (localAddress : option string)
    (now : Z) (st : AgentState) : option AgentState :=
  let name := endpointName host port localAddress in
  let st1 :=
    match sockets st !! name with
    | Some _ => st
    | None => set_sockets (<[name := []]>) st
    end in
  if lengthBelow (length (default [] (sockets st1 !! name))) (maxSockets st1) then
    (* If we are under maxSockets create a new one. *)
    '(s, st2) ← findOrCreateSocket name host port localAddress (Some req) now st1;
    Some (onSocket req s st2)
  else
    (* We are over limit so we'll add it to the queue. *)
    let st2 :=
      match requests st1 !! name with
      | Some _ => st1
      | None => set_requests (<[name := []]>) st1
      end in
    Some (set_requests (<[name := default [] (requests st2 !! name) ++ [req]]>) st2).

(** The listener of the Agent's own 'free' event, registered by the
    constructor. *)
Definition freeHandler (s : Socket) (host port : string) (localAddress : option string)
    (now : Z) (st : AgentState) : AgentState :=
  let name := endpointName host port localAddress in
  match isDestroyed s st, requests st !! name with
  | false, Some (req :: rest) =>
      let st1 := set_requests (<[name := rest]>) st in   (* shift() *)
      let st2 := onSocket req s st1 in
      if bool_decide (length rest = 0)
      then set_requests (delete name) st2                (* don't leak *)
      else st2
  | _, _ => putIdleSocket s name now (removeFromSockets s name st)
  end.

(** [s.emit('free')]: runs [onFree] when it is registered on [s], which
    emits 'free' on the Agent. *)
Definition emitFree (s : Socket) (now : Z) (st : AgentState) : AgentState :=
  match heap st !! s with
  | Some o =>
      match onFree o with
      | Some cl => freeHandler s (cl_host cl) (cl_port cl) (cl_localAddress cl) now st
      | None => st
      end
  | None => st
  end.

(** [Agent.prototype.removeSocket]. *)
Definition removeSocket (s : Socket) (name host port : string)
    (localAddress : option string) (now : Z) (st : AgentState) : option AgentState :=
  let st1 := removeFromIdleSockets s name (removeFromSockets s name st) in
  match requests st1 !! name with
  | Some (req :: _) =>
      '(s', st2) ← findOrCreateSocket name host port localAddress (Some req) now st1;
      Some (emitFree s' now st2)
  | _ => Some st1
  end.

(** [s.emit('close')]: runs [onClose] when it is registered on [s]. *)
Definition emitClose (s : Socket) (now : Z) (st : AgentState) : option AgentState :=
  match heap st !! s with
  | Some o =>
      match onClose o with
      | Some cl =>
          removeSocket s (cl_name cl) (cl_host cl) (cl_port cl) (cl_localAddress cl) now st
      | None => Some st
      end
  | None => Some st
  end.

(** [s.emit('agentRemove')]: runs [onRemove] when it is registered on [s]. *)
Definition emitAgentRemove (s : Socket) (now : Z) (st : AgentState) : option AgentState :=
  match heap st !! s with
  | Some o =>
      match onRemove o with
      | Some cl =>
          st1 ← removeSocket s (cl_name cl) (cl_host cl) (cl_port cl) (cl_localAddress cl) now st;
          Some (removeListeners s st1)
      | None => Some st
      end
  | None => Some st
  end.

(** The [for (var name in self.idleSockets)] loop of the timer callback,
    over the property names [names] found when the loop starts; a
    property deleted before it is visited is skipped. *)
Fixpoint validateAll (names : list string) (now : Z) (socketsLeft : nat)
    (st : AgentState) : option (nat * AgentState) :=
  match names with
  | [] => Some (socketsLeft, st)
  | name :: names' =>
      match idleSockets st !! name with
      | Some _ =>
          '(valid, st1) ← validateIdle name now st;
          (* socketsLeft += <boolean>: true counts 1, false counts 0 *)
          validateAll names' now (socketsLeft + Nat.b2n valid) st1
      | None => validateAll names' now socketsLeft st
      end
  end.

(** The function given to [setTimeout] by [setupValidator]. *)
Definition validationTimerCallback (now : Z) (st : AgentState) : option AgentState :=
  let st1 := set_validationTimer false st in     (* delete self.validationTimer *)
  '(socketsLeft, st2) ← validateAll (map fst (map_to_list (idleSockets st1))) now 0 st1;
  if bool_decide (0 < socketsLeft) then Some (setupValidator st2) else Some st2.

(** ** Events

    What can happen to an Agent: a call of [addRequest], one of the three
    events of a socket the Agent listens to, the transport destroying a
    socket (which sets [destroyed]; its 'close' event follows later), and
    the validation timer firing. *)
Inductive Event :=
| AddRequest (req : Request) (host port : string) (localAddress : option string)
| SocketFree (s : Socket)
| SocketClose (s : Socket)
| SocketAgentRemove (s : Socket)
| SocketDestroyed (s : Socket)
| TimerFires.

(** The reaction of the Agent to an event that happens at time [now]. *)
Definition step (now : Z) (ev : Event) (st : AgentState) : option AgentState :=
  match ev with
  | AddRequest req host port localAddress => addRequest req host port localAddress now st
  | SocketFree s => Some (emitFree s now st)
  | SocketClose s => emitClose s now st
  | SocketAgentRemove s => emitAgentRemove s now st
  | SocketDestroyed s => Some (destroy s st)
  | TimerFires => if validationTimer st then validationTimerCallback now st else Some st
  end.

(** The sockets of [this.sockets[name]], [this.idleSockets[name]] and the
    requests of [this.requests[name]]; empty when the property is absent. *)
Definition activeOf (name : string) (st : AgentState) : list Socket :=
  default [] (sockets st !! name).

Definition idleOf (name : string) (st : AgentState) : list IdleEntry :=
  default [] (idleSockets st !! name).

Definition waitingOf (name : string) (st : AgentState) : list Request :=
  default [] (requests st !! name).

(** The name under which the listeners of [s] file it. *)
Definition nameOfSocket (s : Socket) (st : AgentState) : option string :=
  o ← heap st !! s;
  cl ← onFree o;
  Some (endpointName (cl_host cl) (cl_port cl) (cl_localAddress cl)).

(** What the environment may do.  A socket signals 'free' when it has
    finished serving a request, so it is one of the active sockets of its
    endpoint; the other socket events concern sockets that the Agent has
    created; the timer fires only when it is set. *)
Definition enabled (ev : Event) (st : AgentState) : bool :=
  match ev with
  | AddRequest _ _ _ _ => true
  | SocketFree s =>
      match nameOfSocket s st with
      | Some name => bool_decide (s ∈ activeOf name st)
      | None => false
      end
  | SocketClose s | SocketAgentRemove s | SocketDestroyed s =>
      bool_decide (is_Some (heap st !! s))
  | TimerFires => validationTimer st
  end.

(** The states an Agent constructed with [options] can be in. *)
Inductive reachable (options : AgentOptions) : AgentState → Prop :=
| reachable_init : reachable options (Agent options)
| reachable_step st now ev st' :
    reachable options st →
    enabled ev st = true →
    step now ev st = Some st' →
    reachable options st'.

(** The same with a clock that never runs backwards; the index is the
    time of the last event. *)
Inductive reachableAt (options : AgentOptions) : Z → AgentState → Prop :=
| reachableAt_init t : reachableAt options t (Agent options)
| reachableAt_step t st now ev st' :
    reachableAt options t st →
    (t ≤ now)%Z →
    enabled ev st = true →
    step now ev st = Some st' →
    reachableAt options now st'.

(** Runs a list of timed events, checking that each one is enabled. *)
Fixpoint run (evs : list (Z * Event)) (st : AgentState) : option AgentState :=
  match evs with
  | [] => Some st
  | (now, ev) :: evs' =>
      if enabled ev st then st' ← step now ev st; run evs' st' else None
  end.

(** The clock values of a list of timed events never decrease. *)
Fixpoint monotone (t : Z) (evs : list (Z * Event)) : bool :=
  match evs with
  | [] => true
  | (now, _) :: evs' => bool_decide (t ≤ now)%Z && monotone now evs'
  end.

(** The clock value after the timed events [evs], starting from [t]. *)
Fixpoint lastTime (t : Z) (evs : list (Z * Event)) : Z :=
  match evs with
  | [] => t
  | (now, _) :: evs' => lastTime now evs'
  end.

(** ** Views used in the statements *)

(** [l] without the first occurrence of [s]: what [indexOf] followed by
    [splice(index, 1)] leaves. *)
Definition removeFirst (s : Socket) (l : list Socket) : list Socket :=
  match indexOf s l with
  | Some index => delete index l
  | None => l
  end.

Definition removeFirstIdle (s : Socket) (l : list IdleEntry) : list IdleEntry :=
  match indexOfIdle s l with
  | Some index => delete index l
  | None => l
  end.

(** An entry whose expiry has passed at time [now]. *)
Definition expired (now : Z) (e : IdleEntry) : Prop := (validTill e < now)%Z.

#[global] Instance expired_dec now e : Decision (expired now e).
Proof. unfold expired. apply _. Defined.

(** The entries that [validateIdle] removes from [l] and those it keeps. *)
Definition expiredPrefix (now : Z) (l : list IdleEntry) : list IdleEntry :=
  take (expiredCount now l) l.

Definition keptSuffix (now : Z) (l : list IdleEntry) : list IdleEntry :=
  drop (expiredCount now l) l.

(** What [validateIdle] leaves of the property [idleSockets[name]] when
    its value is [l]: the property is deleted when entries were removed
    and none is left. *)
Definition validatedEntry (now : Z) (l : list IdleEntry) : option (list IdleEntry) :=
  if bool_decide (0 < expiredCount now l) && bool_decide (length (keptSuffix now l) = 0)
  then None
  else Some (keptSuffix now l).

(** The endpoints whose idle list keeps an entry in a validation at [now]. *)
Definition keepsIdle (now : Z) (st : AgentState) (name : string) : Prop :=
  keptSuffix now (idleOf name st) ≠ [].

#[global] Instance keepsIdle_dec now st name : Decision (keepsIdle now st name).
Proof. unfold keepsIdle. apply _. Defined.

(** The number of idle entries of all endpoints together. *)
Definition totalIdle (st : AgentState) : nat :=
  map_fold (λ _ l n, length l + n) 0 (idleSockets st).

(** The value of a boolean used as a number, as in [n += b]. *)
Definition toNumber (b : bool) : nat := Nat.b2n b.

(** [validTill] never decreases along the list. *)
Fixpoint sortedByExpiry (l : list IdleEntry) : Prop :=
  match l with
  | [] => True
  | e :: l' => (∀ e', e' ∈ l' → (validTill e ≤ validTill e')%Z) ∧ sortedByExpiry l'
  end.

(** [o] with [destroyed] set when [b] holds. *)
Definition markDestroyed (b : bool) (o : SocketObj) : SocketObj :=
  mkSocketObj (destroyed o || b) (onFree o) (onClose o) (onRemove o).

(** [h'] is [h] with some sockets destroyed: the same sockets with the
    same listeners. *)
Definition onlyDestroys (h h' : gmap nat SocketObj) : Prop :=
  ∀ s, ∃ b, h' !! s = markDestroyed b <$> h !! s.

(** ** Invariants *)

(** The sockets the Agent tracks for [name]: the active ones, then the
    idle ones. *)
Definition poolOf (name : string) (st : AgentState) : list Socket :=
  activeOf name st ++ (socket <$> idleOf name st).

(** The listeners of a socket are registered together, by
    [findOrCreateSocket], with a name computed from the host, the port
    and the local address. *)
Definition closuresOk (h : gmap nat SocketObj) : Prop :=
  ∀ s o, h !! s = Some o →
    onClose o = onFree o ∧ onRemove o = onFree o ∧
    ∀ cl, onFree o = Some cl →
      cl_name cl = endpointName (cl_host cl) (cl_port cl) (cl_localAddress cl).

(** The listeners of [s] are registered and file it under [name]. *)
Definition listensAs (name : string) (s : Socket) (h : gmap nat SocketObj) : Prop :=
  ∃ o cl, h !! s = Some o ∧ onFree o = Some cl ∧ cl_name cl = name.

(** The bookkeeping invariant: per endpoint no socket is tracked twice
    (so none is both active and idle), tracked sockets have their
    listeners, and [createConnection] hands out new references. *)
Record Inv (st : AgentState) : Prop := mkInv {
  inv_nodup : ∀ n, NoDup (poolOf n st);
  inv_listens : ∀ n s, s ∈ poolOf n st → listensAs n s (heap st);
  inv_closures : closuresOk (heap st);
  inv_fresh : ∀ s, is_Some (heap st !! s) → s < nextSocket st
}.

(** The idle lists are in expiry order, and no expiry exceeds
    [t + keepAlive]. *)
Definition Timed (t : Z) (st : AgentState) : Prop :=
  ∀ n, sortedByExpiry (idleOf n st) ∧
       ∀ e, e ∈ idleOf n st → (validTill e ≤ t + keepAlive st)%Z.

(** No endpoint has more active sockets than [maxSockets] admits: every
    index of a list of active sockets is below [maxSockets].  For a whole
    number this says that no list is longer than [maxSockets]. *)
Definition withinLimit (st : AgentState) : Prop :=
  ∀ n k, k < length (activeOf n st) → lengthBelow k (maxSockets st) = true.

(** The event is not the 'close' or 'agentRemove' of a socket that has
    already left the active list of its endpoint. *)
Definition closesActive (ev : Event) (st : AgentState) : Prop :=
  match ev with
  | SocketClose s | SocketAgentRemove s =>
      ∀ o cl, heap st !! s = Some o →
              onClose o = Some cl ∨ onRemove o = Some cl →
              s ∈ activeOf (cl_name cl) st
  | _ => True
  end.

(** ** Queues and the log of assignments *)

(** The request that an event hands to [addRequest]. *)
Definition admittedBy (ev : Event) : option Request :=
  match ev with
  | AddRequest req _ _ _ => Some req
  | _ => None
  end.

(** The requests that [evs] hands to [addRequest]. *)
Fixpoint admitted (evs : list (Z * Event)) : list Request :=
  match evs with
  | [] => []
  | (_, AddRequest req _ _ _) :: evs' => req :: admitted evs'
  | _ :: evs' => admitted evs'
  end.

(** What a step does to the queues and to the log of assignments:
    nothing, or the admitted request is appended to a queue, or the head
    of a queue is served, or the admitted request is served at once. *)
Inductive queueStep (adm : option Request) (st st' : AgentState) : Prop :=
| queue_same :
    assigned st' = assigned st →
    (∀ n, waitingOf n st' = waitingOf n st) →
    queueStep adm st st'
| queue_enqueue name req :
    adm = Some req →
    assigned st' = assigned st →
    (∀ n, waitingOf n st' =
          if decide (n = name) then waitingOf n st ++ [req] else waitingOf n st) →
    queueStep adm st st'
| queue_serve name req rest s :
    waitingOf name st = req :: rest →
    assigned st' = assigned st ++ [(req, s)] →
    (∀ n, waitingOf n st' = if decide (n = name) then rest else waitingOf n st) →
    queueStep adm st st'
| queue_direct req s :
    adm = Some req →
    assigned st' = assigned st ++ [(req, s)] →
    (∀ n, waitingOf n st' = waitingOf n st) →
    queueStep adm st st'.

(** ** Example runs, at which the statements below are instantiated

    All of them concern the endpoint ["h:80"] and the default
    [keepAlive] of 10000. *)

Definition request (n : nat) : Request := mkRequest n None.

Definition oneSocketAgent : AgentState := Agent (mkAgentOptions (Some (integer 1)) None).

Definition twoSocketAgent : AgentState := Agent (mkAgentOptions (Some (integer 2)) None).

(** The state reached by [evs] from [st]; [st] itself if the run stops. *)
Definition stateAfter (evs : list (Z * Event)) (st : AgentState) : AgentState :=
  default st (run evs st).

(** One request served on socket 0, which is then freed at time 0 and
    parked until 10000. *)
Definition oneIdle : AgentState :=
  stateAfter [ (0%Z, AddRequest (request 1) "h" "80" None);
               (0%Z, SocketFree 0) ] oneSocketAgent.

(** One request being served on socket 0, a second one waiting. *)
Definition oneActiveOneWaiting : AgentState :=
  stateAfter [ (0%Z, AddRequest (request 1) "h" "80" None);
               (0%Z, AddRequest (request 2) "h" "80" None) ] oneSocketAgent.

(** One request being served on socket 0, two more waiting. *)
Definition oneActiveTwoWaiting : AgentState :=
  stateAfter [ (0%Z, AddRequest (request 1) "h" "80" None);
               (0%Z, AddRequest (request 2) "h" "80" None);
               (0%Z, AddRequest (request 3) "h" "80" None) ] oneSocketAgent.

(** Socket 0 signals 'free' twice, after each of two requests. *)
Definition twoFrees : list (Z * Event) :=
  [ (1%Z, SocketFree 0); (2%Z, SocketFree 0) ].

(** Two sockets parked for the same endpoint, until 10000 and 10005. *)
Definition twoIdle : AgentState :=
  stateAfter [ (0%Z, AddRequest (request 1) "h" "80" None);
               (0%Z, AddRequest (request 2) "h" "80" None);
               (0%Z, SocketFree 0);
               (5%Z, SocketFree 1) ] twoSocketAgent.

(** The validation timer at the times [1000], [2000], ... [1000 * n], with
    the delay [Math.max(keepAlive / 10, 1000)] of the default [keepAlive]. *)
Definition ticks (n : nat) : list (Z * Event) :=
  (λ i, ((1000 * Z.of_nat i)%Z, TimerFires)) <$> seq 1 n.

(** A socket is parked at time 0 and expires after [10000]; the timer
    finds it still valid up to its tick at 10000.  At 10001 two requests
    arrive in the same turn: for the first one [validateIdle] destroys
    the expired socket and a new socket is created, the second one
    waits.  Then the 'close' event of the destroyed socket is delivered. *)
Definition lateClose : list (Z * Event) :=
  [ (0%Z, AddRequest (request 1) "h" "80" None);
    (0%Z, SocketFree 0) ] ++
  ticks 10 ++
  [ (10001%Z, AddRequest (request 2) "h" "80" None);
    (10001%Z, AddRequest (request 3) "h" "80" None);
    (10002%Z, SocketClose 0) ].

(** Two requests being served, a third one waiting; both sockets are
    destroyed by the transport, and socket 0 signals 'free' before the
    'close' events are delivered, so that it is parked. *)
Definition deadIdle : list (Z * Event) :=
  [ (0%Z, AddRequest (request 1) "h" "80" None);
    (0%Z, AddRequest (request 2) "h" "80" None);
    (0%Z, AddRequest (request 3) "h" "80" None);
    (1%Z, SocketDestroyed 1);
    (1%Z, SocketDestroyed 0);
    (1%Z, SocketFree 0) ].

(** Socket 0 signals 'free' at time 1 whatever its state, then a request
    arrives at time 2. *)
Definition secondFree (st : AgentState) : option AgentState :=
  st1 ← step 1 (SocketFree 0) st;
  step 2 (AddRequest (request 2) "h" "80" None) st1.

(** A socket parked at time 0, then one parked at time -1000. *)
Definition clockSetBack : AgentState :=
  stateAfter [ (0%Z, AddRequest (request 1) "h" "80" None);
               (0%Z, AddRequest (request 2) "h" "80" None);
               (0%Z, SocketFree 0);
               ((-1000)%Z, SocketFree 1) ] twoSocketAgent.

(** [s] is neither active nor idle for any endpoint. *)
Definition untracked (s : Socket) (st : AgentState) : Prop :=
  ∀ n, s ∉ poolOf n st.

(** The three listeners of [s] are registered, with the closure [cl]. *)
Definition hasListeners (s : Socket) (cl : Closure) (st : AgentState) : Prop :=
  ∃ o, heap st !! s = Some o ∧
       onFree o = Some cl ∧ onClose o = Some cl ∧ onRemove o = Some cl.


(** Idle entries never sit without a validation timer. *)
Definition reaperPending (st : AgentState) : Prop :=
  (∃ n, idleOf n st ≠ []) → validationTimer st = true.

(** Neither [requests] nor [sockets] holds an empty array. *)
Definition noEmptyList (st : AgentState) : Prop :=
  (∀ n, requests st !! n ≠ Some []) ∧ (∀ n, sockets st !! n ≠ Some []).

(** Every 'close' and 'agentRemove' event of the run [evs] from [st]
    concerns a socket that is active when the event arrives. *)
Fixpoint closesOnlyActive (evs : list (Z * Event)) (st : AgentState) : Prop :=
  match evs with
  | [] => True
  | (now, ev) :: evs' =>
      closesActive ev st ∧
      match step now ev st with
      | Some st' => closesOnlyActive evs' st'
      | None => True
      end
  end.


(** The endpoint that an event concerns: the one computed by
    [addRequest], or the one under which the listeners of the socket
    file it. *)
Definition endpointOf (ev : Event) (st : AgentState) : option string :=
  match ev with
  | AddRequest _ host port localAddress => Some (endpointName host port localAddress)
  | SocketFree s | SocketClose s | SocketAgentRemove s => nameOfSocket s st
  | SocketDestroyed _ | TimerFires => None
  end.

(** The three lists of the endpoint [n] are the same in [st] and [st']. *)
Definition untouched (n : string) (st st' : AgentState) : Prop :=
  activeOf n st' = activeOf n st ∧ idleOf n st' = idleOf n st ∧
  waitingOf n st' = waitingOf n st.

(** [s] contains a colon. *)
Fixpoint hasColon (s : string) : bool :=
  match s with
  | EmptyString => false
  | String c s' => bool_decide (c = ":"%char) || hasColon s'
  end.

(** The value of [localAddress] as the condition [if (localAddress)]
    sees it: the empty string counts as none. *)
Definition truthy (localAddress : option string) : option string :=
  match localAddress with
  | Some la => if bool_decide (la = "") then None else Some la
  | None => None
  end.

(** After [lateClose] sockets 1 and 2 are active although [maxSockets]
    is 1.  Socket 1 signals 'free' and is parked, then a request arrives
    and waits: one active socket, one idle socket, one waiting request. *)
Definition idleBesideActive : list (Z * Event) :=
  lateClose ++
  [ (10003%Z, SocketFree 1);
    (10003%Z, AddRequest (request 4) "h" "80" None) ].

(** The events of the sockets [frees] signalling 'free' at the times
    given. *)
Definition freeEvents (frees : list (Z * Socket)) : list (Z * Event) :=
  (λ f, (f.1, SocketFree f.2)) <$> frees.

(** [s] is an active socket of [name], not destroyed, on which the
    listeners of [name] are registered. *)
Definition liveSocket (name : string) (s : Socket) (st : AgentState) : Prop :=
  s ∈ activeOf name st ∧ isDestroyed s st = false ∧ nameOfSocket s st = Some name.

(** One request being served on socket 0, none waiting. *)
Definition oneActive : AgentState :=
  stateAfter [ (0%Z, AddRequest (request 1) "h" "80" None) ] oneSocketAgent.

(** * Properties *)

(** ** Lists *)

Lemma indexOf_Some s l i : indexOf s l = Some i → l !! i = Some s.
Proof.
  revert i. induction l as [|x l IH]; intros i; simpl; [done|].
  case_bool_decide as Hx.
  - intros [= <-]. by subst.
  - destruct (indexOf s l) as [j|]; simpl; [|done].
    intros [= <-]. simpl. by apply IH.
Qed.

Lemma indexOf_None s l : indexOf s l = None → s ∉ l.
Proof.
  induction l as [|x l IH]; simpl; [intros _; apply not_elem_of_nil|].
  case_bool_decide as Hx; [done|].
  destruct (indexOf s l); simpl; [done|].
  intros _. apply not_elem_of_cons. split; [congruence|by apply IH].
Qed.

Lemma removeFirst_cons s x l :
  removeFirst s (x :: l) = if bool_decide (x = s) then l else x :: removeFirst s l.
Proof.
  unfold removeFirst. simpl. case_bool_decide; [done|].
  by destruct (indexOf s l).
Qed.

Lemma removeFirst_not_elem s l : NoDup l → s ∉ removeFirst s l.
Proof.
  induction 1 as [|x l Hx Hl IH]; [apply not_elem_of_nil|].
  rewrite removeFirst_cons. case_bool_decide as E; [by subst|].
  apply not_elem_of_cons. split; [congruence|done].
Qed.

Lemma removeFirst_length s l : length (removeFirst s l) ≤ length l.
Proof.
  induction l as [|x l IH]; [done|].
  rewrite removeFirst_cons. case_bool_decide; simpl; lia.
Qed.

Lemma removeFirst_elem_length s l : s ∈ l → S (length (removeFirst s l)) = length l.
Proof.
  induction l as [|x l IH]; [by intros ?%elem_of_nil|].
  rewrite removeFirst_cons. case_bool_decide as E; [done|].
  intros [->|Hin]%elem_of_cons; [done|]. simpl. by rewrite IH.
Qed.

Lemma removeFirstIdle_cons s e l :
  removeFirstIdle s (e :: l) =
  if bool_decide (socket e = s) then l else e :: removeFirstIdle s l.
Proof.
  unfold removeFirstIdle. simpl. case_bool_decide; [done|].
  by destruct (indexOfIdle s l).
Qed.

Lemma removeFirstIdle_sockets s l :
  socket <$> removeFirstIdle s l = removeFirst s (socket <$> l).
Proof.
  induction l as [|e l IH]; [done|].
  rewrite removeFirstIdle_cons, fmap_cons, removeFirst_cons.
  case_bool_decide; [done|]. by rewrite fmap_cons, IH.
Qed.

Lemma expired_split now l : expiredPrefix now l ++ keptSuffix now l = l.
Proof. apply take_drop. Qed.

Lemma expiredPrefix_all now l : Forall (expired now) (expiredPrefix now l).
Proof.
  unfold expiredPrefix.
  induction l as [|e l IH]; simpl; [constructor|].
  case_bool_decide; simpl; [|constructor]. by constructor.
Qed.

Lemma keptSuffix_head now l e l' : keptSuffix now l = e :: l' → ¬ expired now e.
Proof.
  unfold keptSuffix.
  induction l as [|x l IH]; simpl; [done|].
  case_bool_decide as Hx; simpl; [done|].
  by intros [= -> ->].
Qed.

Lemma keptSuffix_nil now l : keptSuffix now l = [] → Forall (expired now) l.
Proof.
  intros H. rewrite <- (expired_split now l), H, app_nil_r. apply expiredPrefix_all.
Qed.

Lemma sortedByExpiry_app l1 l2 :
  sortedByExpiry (l1 ++ l2) ↔
  sortedByExpiry l1 ∧ sortedByExpiry l2 ∧
  ∀ e1 e2, e1 ∈ l1 → e2 ∈ l2 → (validTill e1 ≤ validTill e2)%Z.
Proof.
  induction l1 as [|e l1 IH]; simpl.
  - split; [intros ?; split_and!; [done..|by intros ?? ?%elem_of_nil]|tauto].
  - rewrite IH. split.
    + intros (Hall & H1 & H2 & H12). split_and!; try done.
      * intros e' He'. apply Hall. apply elem_of_app. by left.
      * intros e1 e2 [->|He1]%elem_of_cons He2.
        -- apply Hall. apply elem_of_app. by right.
        -- by apply H12.
    + intros ((Hall & H1) & H2 & H12). split_and!; try done.
      * intros e' [He'|He']%elem_of_app; [by apply Hall|].
        apply H12; [left|done].
      * intros e1 e2 He1 He2. apply H12; [by right|done].
Qed.

(** On a list in expiry order the kept suffix holds no expired entry. *)
Lemma keptSuffix_sorted now l :
  sortedByExpiry l → Forall (λ e, ¬ expired now e) (keptSuffix now l).
Proof.
  intros Hs. destruct (keptSuffix now l) as [|e l'] eqn:E; [constructor|].
  pose proof (keptSuffix_head _ _ _ _ E) as Hne.
  rewrite <- (expired_split now l), E in Hs.
  apply sortedByExpiry_app in Hs as (_ & [Hall _] & _).
  constructor; [done|].
  apply Forall_forall. intros e' He'. specialize (Hall e' He').
  unfold expired in *. lia.
Qed.

(** ** What each method does to the three maps *)

Ltac unchanged op :=
  intros; unfold op;
  repeat first [ case_match | case_bool_decide ]; reflexivity.

Lemma activeOf_removeFromSockets s name n st :
  activeOf n (removeFromSockets s name st) =
  if decide (n = name) then removeFirst s (activeOf n st) else activeOf n st.
Proof.
  unfold removeFromSockets, activeOf, removeFirst.
  destruct (sockets st !! name) as [l|] eqn:El.
  - destruct (indexOf s l) as [i|] eqn:Ei.
    + case_bool_decide as Hlen; simpl.
      * rewrite lookup_delete. case_decide as Hn; [|by rewrite decide_False by done].
        subst n. rewrite decide_True by done. rewrite El. simpl. rewrite Ei.
        symmetry. by apply nil_length_inv.
      * rewrite lookup_insert. case_decide as Hn; [|by rewrite decide_False by done].
        subst n. rewrite decide_True by done. rewrite El. simpl. by rewrite Ei.
    + case_decide as Hn; [|done]. subst n. rewrite El. simpl. by rewrite Ei.
  - case_decide as Hn; [|done]. subst n. by rewrite El.
Qed.

Lemma idleOf_removeFromIdleSockets s name n st :
  idleOf n (removeFromIdleSockets s name st) =
  if decide (n = name) then removeFirstIdle s (idleOf n st) else idleOf n st.
Proof.
  unfold removeFromIdleSockets, idleOf, removeFirstIdle.
  destruct (idleSockets st !! name) as [l|] eqn:El.
  - destruct (indexOfIdle s l) as [i|] eqn:Ei.
    + case_bool_decide as Hlen; simpl.
      * rewrite lookup_delete. case_decide as Hn; [|by rewrite decide_False by done].
        subst n. rewrite decide_True by done. rewrite El. simpl. rewrite Ei.
        symmetry. by apply nil_length_inv.
      * rewrite lookup_insert. case_decide as Hn; [|by rewrite decide_False by done].
        subst n. rewrite decide_True by done. rewrite El. simpl. by rewrite Ei.
    + case_decide as Hn; [|done]. subst n. rewrite El. simpl. by rewrite Ei.
  - case_decide as Hn; [|done]. subst n. by rewrite El.
Qed.

Lemma idleOf_removeFromSockets s name n st :
  idleOf n (removeFromSockets s name st) = idleOf n st.
Proof. unfold idleOf. f_equal. f_equal. unchanged removeFromSockets. Qed.

Lemma activeOf_removeFromIdleSockets s name n st :
  activeOf n (removeFromIdleSockets s name st) = activeOf n st.
Proof. unfold activeOf. f_equal. f_equal. unchanged removeFromIdleSockets. Qed.

Lemma requests_removeFromSockets s name st :
  requests (removeFromSockets s name st) = requests st.
Proof. unchanged removeFromSockets. Qed.

Lemma requests_removeFromIdleSockets s name st :
  requests (removeFromIdleSockets s name st) = requests st.
Proof. unchanged removeFromIdleSockets. Qed.

Lemma heap_removeFromSockets s name st :
  heap (removeFromSockets s name st) = heap st.
Proof. unchanged removeFromSockets. Qed.

Lemma heap_removeFromIdleSockets s name st :
  heap (removeFromIdleSockets s name st) = heap st.
Proof. unchanged removeFromIdleSockets. Qed.

Lemma nextSocket_removeFromSockets s name st :
  nextSocket (removeFromSockets s name st) = nextSocket st.
Proof. unchanged removeFromSockets. Qed.

Lemma nextSocket_removeFromIdleSockets s name st :
  nextSocket (removeFromIdleSockets s name st) = nextSocket st.
Proof. unchanged removeFromIdleSockets. Qed.

Lemma assigned_removeFromSockets s name st :
  assigned (removeFromSockets s name st) = assigned st.
Proof. unchanged removeFromSockets. Qed.

Lemma assigned_removeFromIdleSockets s name st :
  assigned (removeFromIdleSockets s name st) = assigned st.
Proof. unchanged removeFromIdleSockets. Qed.

Lemma keepAlive_removeFromSockets s name st :
  keepAlive (removeFromSockets s name st) = keepAlive st.
Proof. unchanged removeFromSockets. Qed.

Lemma keepAlive_removeFromIdleSockets s name st :
  keepAlive (removeFromIdleSockets s name st) = keepAlive st.
Proof. unchanged removeFromIdleSockets. Qed.

Lemma idleOf_putIdleSocket s name now n st :
  idleOf n (putIdleSocket s name now st) =
  if decide (n = name) then idleOf n st ++ [mkIdle s (now + keepAlive st)%Z]
  else idleOf n st.
Proof.
  unfold putIdleSocket, setupValidator, idleOf.
  destruct (idleSockets st !! name) as [l|] eqn:El; simpl;
    destruct (validationTimer st); simpl;
    rewrite ?lookup_insert; case_decide as Hn; subst;
    rewrite ?decide_True, ?decide_False by done;
    rewrite ?El, ?lookup_insert_eq, ?lookup_insert_ne by done; simpl;
    rewrite ?El; done.
Qed.

Lemma putIdleSocket_fields s name now st :
  let st' := putIdleSocket s name now st in
  requests st' = requests st ∧ sockets st' = sockets st ∧ heap st' = heap st ∧
  nextSocket st' = nextSocket st ∧ assigned st' = assigned st ∧
  created st' = created st ∧ keepAlive st' = keepAlive st ∧
  maxSockets st' = maxSockets st ∧ validationTimer st' = true.
Proof.
  unfold putIdleSocket, setupValidator.
  destruct (idleSockets st !! name); simpl;
    destruct (validationTimer st) eqn:E; simpl; rewrite ?E; split_and!; done.
Qed.

Lemma destroyAll_fields removed st :
  let st' := destroyAll removed st in
  requests st' = requests st ∧ sockets st' = sockets st ∧
  idleSockets st' = idleSockets st ∧
  nextSocket st' = nextSocket st ∧ assigned st' = assigned st ∧
  created st' = created st ∧ keepAlive st' = keepAlive st ∧
  maxSockets st' = maxSockets st ∧ validationTimer st' = validationTimer st.
Proof.
  revert st. induction removed as [|e removed IH]; intros st; simpl; [split_and!; done|].
  destruct (IH (destroy (socket e) st)) as (-> & -> & -> & -> & -> & -> & -> & -> & ->).
  split_and!; done.
Qed.

(** [destroy] changes nothing but the [destroyed] property. *)
Lemma heap_destroyAll removed st s :
  heap (destroyAll removed st) !! s =
  (λ o, mkSocketObj (destroyed o || bool_decide (s ∈ socket <$> removed))
                    (onFree o) (onClose o) (onRemove o)) <$> heap st !! s.
Proof.
  revert st. induction removed as [|e removed IH]; intros st.
  - simpl. destruct (heap st !! s) as [[]|]; simpl; [|done].
    by rewrite orb_false_r.
  - cbn [destroyAll]. rewrite IH. unfold destroy. cbn [heap set_heap].
    rewrite lookup_alter, fmap_cons.
    destruct (decide (socket e = s)) as [Hs|Hs].
    + subst s. destruct (heap st !! socket e) as [[]|]; [|done].
      cbn [fmap option_fmap option_map destroyed onFree onClose onRemove].
      rewrite (bool_decide_eq_true_2 (socket e ∈ socket e :: _)) by left.
      by rewrite orb_true_r.
    + destruct (heap st !! s) as [[]|]; [|done].
      cbn [fmap option_fmap option_map destroyed onFree onClose onRemove].
      f_equal. f_equal. f_equal. apply bool_decide_ext.
      rewrite elem_of_cons. intuition congruence.
Qed.

(** ** [validateIdle] *)

Lemma keptSuffix_eq_of_zero now l : expiredCount now l = 0 → keptSuffix now l = l.
Proof. unfold keptSuffix. by intros ->. Qed.

Lemma validateIdle_spec name now st l :
  idleSockets st !! name = Some l →
  ∃ st',
    validateIdle name now st = Some (bool_decide (0 < length (keptSuffix now l)), st') ∧
    idleSockets st' = partial_alter (λ _, validatedEntry now l) name (idleSockets st) ∧
    heap st' = heap (destroyAll (expiredPrefix now l) st) ∧
    requests st' = requests st ∧ sockets st' = sockets st ∧
    nextSocket st' = nextSocket st ∧ assigned st' = assigned st ∧
    created st' = created st ∧ keepAlive st' = keepAlive st ∧
    maxSockets st' = maxSockets st ∧ validationTimer st' = validationTimer st.
Proof.
  intros Hl. unfold validateIdle, validatedEntry. rewrite Hl.
  fold (expiredPrefix now l). fold (keptSuffix now l).
  case_bool_decide as Hc; cbn [andb].
  - eexists. split; [reflexivity|].
    pose proof (destroyAll_fields (expiredPrefix now l)
                  (set_idleSockets <[name:=keptSuffix now l]> st)) as Hf.
    cbn zeta in Hf. destruct Hf as (H1 & H2 & H3 & H4 & H5 & H6 & H7 & H8 & H9).
    assert (heap (destroyAll (expiredPrefix now l)
                    (set_idleSockets <[name:=keptSuffix now l]> st)) =
            heap (destroyAll (expiredPrefix now l) st)) as Hh.
    { apply map_eq. intros s. by rewrite !heap_destroyAll. }
    case_bool_decide as Hk; cbn [idleSockets set_idleSockets heap requests sockets
      nextSocket assigned created keepAlive maxSockets validationTimer].
    + rewrite H1, H2, H3, H4, H5, H6, H7, H8, H9, Hh. cbn.
      split_and!; try done;
      apply map_eq; intros n; rewrite lookup_partial_alter, lookup_delete, lookup_insert;
        repeat case_decide; congruence.
    + rewrite H1, H2, H3, H4, H5, H6, H7, H8, H9, Hh. cbn.
      split_and!; try done;
      apply map_eq; intros n; rewrite lookup_partial_alter, lookup_insert;
        repeat case_decide; congruence.
  - assert (expiredCount now l = 0) as H0 by lia.
    rewrite (keptSuffix_eq_of_zero _ _ H0).
    eexists. split; [reflexivity|]. split_and!; try done.
    + apply map_eq. intros n. rewrite lookup_partial_alter.
      case_decide; congruence.
    + unfold expiredPrefix. by rewrite H0.
Qed.

Lemma idleOf_validatedEntry now l :
  default [] (validatedEntry now l) = keptSuffix now l.
Proof.
  unfold validatedEntry. repeat case_bool_decide; cbn; try done.
  symmetry. by apply nil_length_inv.
Qed.

(** ** [findIdleSocket] *)

Lemma findIdleSocket_absent name now st :
  idleSockets st !! name = None → findIdleSocket name now st = Some (None, st).
Proof. intros H. unfold findIdleSocket. by rewrite H. Qed.

Lemma findIdleSocket_none name now st l :
  idleSockets st !! name = Some l →
  keptSuffix now l = [] →
  ∃ st',
    findIdleSocket name now st = Some (None, st') ∧
    idleSockets st' = partial_alter (λ _, validatedEntry now l) name (idleSockets st) ∧
    heap st' = heap (destroyAll (expiredPrefix now l) st) ∧
    requests st' = requests st ∧ sockets st' = sockets st ∧
    nextSocket st' = nextSocket st ∧ assigned st' = assigned st ∧
    created st' = created st ∧ keepAlive st' = keepAlive st ∧
    maxSockets st' = maxSockets st ∧ validationTimer st' = validationTimer st.
Proof.
  intros Hl Hk.
  destruct (validateIdle_spec name now st l Hl) as (st1 & Hv & Hrest).
  exists st1. split; [|done].
  unfold findIdleSocket. rewrite Hl, Hv, Hk. done.
Qed.

Lemma findIdleSocket_some name now st l e rest :
  idleSockets st !! name = Some l →
  keptSuffix now l = e :: rest →
  ∃ st',
    findIdleSocket name now st = Some (Some (socket e), st') ∧
    idleSockets st' = <[name := rest]> (idleSockets st) ∧
    sockets st' = <[name := activeOf name st ++ [socket e]]> (sockets st) ∧
    heap st' = heap (destroyAll (expiredPrefix now l) st) ∧
    requests st' = requests st ∧
    nextSocket st' = nextSocket st ∧ assigned st' = assigned st ∧
    created st' = created st ∧ keepAlive st' = keepAlive st ∧
    maxSockets st' = maxSockets st ∧ validationTimer st' = validationTimer st.
Proof.
  intros Hl Hk.
  destruct (validateIdle_spec name now st l Hl)
    as (st1 & Hv & Hi & Hh & Hr & Hs & Hn & Ha & Hc & Hka & Hm & Ht).
  assert (validatedEntry now l = Some (e :: rest)) as Hve.
  { unfold validatedEntry. rewrite Hk. cbn [length].
    rewrite (bool_decide_eq_false_2 (S _ = 0)) by lia. by rewrite andb_false_r. }
  assert (idleSockets st1 !! name = Some (e :: rest)) as Hl1.
  { rewrite Hi, lookup_partial_alter, decide_True by done. done. }
  unfold findIdleSocket. rewrite Hl, Hv, Hk. cbn [length mbind option_bind].
  rewrite (bool_decide_eq_true_2 (0 < S _)) by lia. cbn [negb].
  rewrite Hl1. cbn [mbind option_bind].
  eexists. split; [reflexivity|].
  unfold activeOf.
  assert (sockets (set_idleSockets <[name:=rest]> st1) = sockets st) as Hs' by done.
  rewrite Hs'.
  destruct (sockets st !! name) as [a|] eqn:Ea;
    cbn [sockets set_sockets set_idleSockets idleSockets heap requests nextSocket
         assigned created keepAlive maxSockets validationTimer];
    rewrite ?Hs, ?Ea, ?lookup_insert_eq; cbn [default];
    (split_and!; try done);
    try (rewrite Hi; apply map_eq; intros n;
         rewrite !lookup_insert, lookup_partial_alter; repeat case_decide; congruence);
    try (by rewrite insert_insert_eq).
Qed.

(** ** [findOrCreateSocket] *)

Lemma kept_nonempty_of_valid now l e :
  e ∈ l → ¬ expired now e → keptSuffix now l ≠ [].
Proof.
  intros He Hne Hk. apply keptSuffix_nil in Hk.
  rewrite Forall_forall in Hk. by apply Hne, Hk.
Qed.

Lemma findOrCreateSocket_reuse name host port localAddress req now st l e rest :
  idleSockets st !! name = Some l →
  keptSuffix now l = e :: rest →
  ∃ st',
    findOrCreateSocket name host port localAddress req now st = Some (socket e, st') ∧
    idleSockets st' = <[name := rest]> (idleSockets st) ∧
    sockets st' = <[name := activeOf name st ++ [socket e]]> (sockets st) ∧
    heap st' = heap (destroyAll (expiredPrefix now l) st) ∧
    requests st' = requests st ∧
    nextSocket st' = nextSocket st ∧ assigned st' = assigned st ∧
    created st' = created st ∧ keepAlive st' = keepAlive st ∧
    maxSockets st' = maxSockets st ∧ validationTimer st' = validationTimer st.
Proof.
  intros Hl Hk.
  destruct (findIdleSocket_some name now st l e rest Hl Hk) as (st' & Hf & H).
  exists st'. split; [|done]. unfold findOrCreateSocket. by rewrite Hf.
Qed.

(** What [findOrCreateSocket] does after [findIdleSocket] has returned
    [null] and left the state [st1], when [hostHeader.replace] does not
    throw. *)
Lemma findOrCreateSocket_create name host port localAddress req now st st1 servername :
  findIdleSocket name now st = Some (None, st1) →
  servernameFor host req = Some servername →
  ∃ st',
    findOrCreateSocket name host port localAddress req now st
      = Some (nextSocket st1, st') ∧
    idleSockets st' = idleSockets st1 ∧
    sockets st' = <[name := activeOf name st1 ++ [nextSocket st1]]> (sockets st1) ∧
    heap st' =
      <[nextSocket st1 :=
          let cl := mkClosure name host port localAddress in
          mkSocketObj false (Some cl) (Some cl) (Some cl)]> (heap st1) ∧
    requests st' = requests st1 ∧
    nextSocket st' = S (nextSocket st1) ∧ assigned st' = assigned st1 ∧
    created st' = created st1 ++ [mkConnOptions port host localAddress servername] ∧
    keepAlive st' = keepAlive st1 ∧
    maxSockets st' = maxSockets st1 ∧ validationTimer st' = validationTimer st1.
Proof.
  intros Hf Hsn. unfold findOrCreateSocket. rewrite Hf. cbn [mbind option_bind].
  rewrite Hsn. cbn [mbind option_bind].
  unfold createConnection, addListeners, activeOf.
  eexists. split; [reflexivity|].
  cbn [sockets set_sockets set_heap idleSockets heap requests nextSocket
       assigned created keepAlive maxSockets validationTimer].
  destruct (sockets st1 !! name) as [a|] eqn:Ea;
    cbn [sockets set_sockets set_heap idleSockets heap requests nextSocket
         assigned created keepAlive maxSockets validationTimer];
    rewrite ?Ea, ?lookup_insert_eq; cbn [default];
    (split_and!; try done);
    try (by rewrite insert_insert_eq);
    try (apply map_eq; intros n; rewrite lookup_alter, !lookup_insert;
         repeat case_decide; try done; congruence).
Qed.

(** [findOrCreateSocket] throws when [findIdleSocket] has found nothing
    and [hostHeader.replace] throws. *)
Lemma findOrCreateSocket_throws name host port localAddress req now st st1 :
  findIdleSocket name now st = Some (None, st1) →
  servernameFor host req = None →
  findOrCreateSocket name host port localAddress req now st = None.
Proof.
  intros Hf Hsn. unfold findOrCreateSocket. rewrite Hf. cbn [mbind option_bind].
  by rewrite Hsn.
Qed.

(** [findOrCreateSocket]: it throws only when it has to create a socket
    for a request whose Host header is not a string; otherwise, its
    effect on the views. *)
Lemma findOrCreateSocket_views name host port localAddress req now st :
  let l := idleOf name st in
  let cl := mkClosure name host port localAddress in
  (findOrCreateSocket name host port localAddress req now st = None ∧
   keptSuffix now l = [] ∧ servernameFor host req = None) ∨
  ∃ s st',
    findOrCreateSocket name host port localAddress req now st = Some (s, st') ∧
    (∀ n, idleOf n st' =
          if decide (n = name) then tail (keptSuffix now l) else idleOf n st) ∧
    (∀ n, activeOf n st' =
          if decide (n = name) then activeOf n st ++ [s] else activeOf n st) ∧
    requests st' = requests st ∧ assigned st' = assigned st ∧
    keepAlive st' = keepAlive st ∧ maxSockets st' = maxSockets st ∧
    validationTimer st' = validationTimer st ∧
    ((∃ e rest, keptSuffix now l = e :: rest ∧ s = socket e ∧
        heap st' = heap (destroyAll (expiredPrefix now l) st) ∧
        nextSocket st' = nextSocket st ∧ created st' = created st)
     ∨ (keptSuffix now l = [] ∧ s = nextSocket st ∧
        heap st' = <[s := mkSocketObj false (Some cl) (Some cl) (Some cl)]>
                     (heap (destroyAll (expiredPrefix now l) st)) ∧
        nextSocket st' = S (nextSocket st) ∧
        ∃ servername,
          servernameFor host req = Some servername ∧
          created st' =
            created st ++ [mkConnOptions port host localAddress servername])).
Proof.
  intros l0 cl.
  assert (l0 = default [] (idleSockets st !! name)) as Hl0 by done. clearbody l0.
  destruct (idleSockets st !! name) as [l|] eqn:El; cbn in Hl0; subst l0.
  - destruct (keptSuffix now l) as [|e rest] eqn:Ek.
    + destruct (findIdleSocket_none name now st l El Ek)
        as (st1 & Hf & Hi & Hh & Hr & Hs & Hn & Ha & Hc & Hka & Hm & Ht).
      destruct (servernameFor host req) as [servername|] eqn:Hsn;
        [|left; split_and!; [|done|done];
          by apply (findOrCreateSocket_throws _ _ _ _ _ _ _ st1)].
      right.
      destruct (findOrCreateSocket_create name host port localAddress req now st st1
                  servername Hf Hsn)
        as (st' & Hfc & Hi' & Hs' & Hh' & Hr' & Hn' & Ha' & Hc' & Hka' & Hm' & Ht').
      exists (nextSocket st1), st'. split; [done|].
      split_and!; try congruence.
      * intros n. unfold idleOf. rewrite Hi', Hi, lookup_partial_alter.
        repeat case_decide; try congruence.
        rewrite idleOf_validatedEntry. by rewrite Ek.
      * intros n. unfold activeOf. rewrite Hs', !Hs, lookup_insert.
        repeat case_decide; try congruence.
        subst. cbn. unfold activeOf. by rewrite ?Hs.
      * right. split_and!; try congruence.
        -- rewrite Hh', Hh, Hn. done.
        -- exists servername. split; [done|]. congruence.
    + right.
      destruct (findOrCreateSocket_reuse name host port localAddress req now st l e rest El Ek)
        as (st' & Hfc & Hi' & Hs' & Hh' & Hr' & Hn' & Ha' & Hc' & Hka' & Hm' & Ht').
      exists (socket e), st'. split; [done|].
      split_and!; try congruence.
      * intros n. unfold idleOf. rewrite Hi', lookup_insert.
        repeat case_decide; try congruence. done.
      * intros n. unfold activeOf. rewrite Hs', lookup_insert.
        repeat case_decide; try congruence. by subst.
      * left. exists e, rest. split_and!; done.
  - pose proof (findIdleSocket_absent name now st El) as Hf.
    destruct (servernameFor host req) as [servername|] eqn:Hsn;
      [|left; split_and!; [|done|done];
        by apply (findOrCreateSocket_throws _ _ _ _ _ _ _ st)].
    right.
    destruct (findOrCreateSocket_create name host port localAddress req now st st
                servername Hf Hsn)
      as (st' & Hfc & Hi' & Hs' & Hh' & Hr' & Hn' & Ha' & Hc' & Hka' & Hm' & Ht').
    exists (nextSocket st), st'. split; [done|].
    split_and!; try congruence.
    + intros n. unfold idleOf. rewrite Hi'.
      case_decide; [|done]. subst. by rewrite El.
    + intros n. unfold activeOf. rewrite Hs', lookup_insert.
      repeat case_decide; try congruence. by subst.
    + right. split_and!; try done. by exists servername.
Qed.

(** Closes the case of a throw against a hypothesis that the reaction
    has returned. *)
Ltac throws H :=
  first [ congruence
        | match goal with
          | Hs : _ = Some _ |- _ => rewrite H in Hs; cbn in Hs; discriminate Hs
          end ].


(** ** Reuse of idle sockets *)

(** C4: when [idleSockets[name]] holds an entry that has not expired,
    [findOrCreateSocket] returns the socket of the first such entry; the
    entry (and the expired entries before it) have left the idle list,
    the socket has been pushed on [sockets[name]], and [createConnection]
    has not been called. *)
Theorem findOrCreateSocket_prefers_idle
    name host port localAddress req now st l e :
  idleSockets st !! name = Some l →
  e ∈ l →
  ¬ expired now e →
  ∃ e0 rest st',
    l = expiredPrefix now l ++ e0 :: rest ∧
    ¬ expired now e0 ∧
    findOrCreateSocket name host port localAddress req now st = Some (socket e0, st') ∧
    idleSockets st' !! name = Some rest ∧
    sockets st' !! name = Some (activeOf name st ++ [socket e0]) ∧
    created st' = created st ∧
    nextSocket st' = nextSocket st.
Proof.
  intros Hl He Hne.
  destruct (keptSuffix now l) as [|e0 rest] eqn:Ek.
  { by destruct (kept_nonempty_of_valid now l e He Hne). }
  destruct (findOrCreateSocket_reuse name host port localAddress req now st l e0 rest Hl Ek)
    as (st' & Hf & Hi & Hs & _ & _ & Hn & _ & Hc & _).
  exists e0, rest, st'. split_and!; try done.
  - by rewrite <- Ek, expired_split.
  - by eapply keptSuffix_head.
  - by rewrite Hi, lookup_insert_eq.
  - by rewrite Hs, lookup_insert_eq.
Qed.

Lemma findOrCreateSocket_prefers_idle_witness :
  ∃ e0 rest st',
    [mkIdle 0 10000] = expiredPrefix 5 [mkIdle 0 10000] ++ e0 :: rest ∧
    ¬ expired 5 e0 ∧
    findOrCreateSocket "h:80" "h" "80" None (Some (request 2)) 5 oneIdle
      = Some (socket e0, st') ∧
    idleSockets st' !! "h:80" = Some rest ∧
    sockets st' !! "h:80" = Some (activeOf "h:80" oneIdle ++ [socket e0]) ∧
    created st' = created oneIdle ∧
    nextSocket st' = nextSocket oneIdle.
Proof.
  apply (findOrCreateSocket_prefers_idle "h:80" "h" "80" None (Some (request 2)) 5
           oneIdle [mkIdle 0 10000] (mkIdle 0 10000)).
  - vm_compute. reflexivity.
  - left.
  - unfold expired. simpl. lia.
Defined.

(** ** The 'free' handler *)

(** C8: when no request waits for the endpoint, the 'free' handler takes
    the socket out of [sockets[name]] and parks it in [idleSockets[name]]
    with the expiry [now + keepAlive], and the validation timer is set;
    [socket.destroyed] plays no part. *)
Theorem freeHandler_without_waiters_parks s host port localAddress now st :
  waitingOf (endpointName host port localAddress) st = [] →
  let name := endpointName host port localAddress in
  let st' := freeHandler s host port localAddress now st in
  st' = putIdleSocket s name now (removeFromSockets s name st) ∧
  activeOf name st' = removeFirst s (activeOf name st) ∧
  (NoDup (activeOf name st) → s ∉ activeOf name st') ∧
  idleOf name st' = idleOf name st ++ [mkIdle s (now + keepAlive st)%Z] ∧
  validationTimer st' = true ∧
  assigned st' = assigned st.
Proof.
  intros Hw name st'.
  assert (st' = putIdleSocket s name now (removeFromSockets s name st)) as Hst'.
  { subst st'. unfold freeHandler. fold name. unfold waitingOf in Hw. fold name in Hw.
    destruct (isDestroyed s st); [done|].
    destruct (requests st !! name) as [[|req rest]|]; done. }
  pose proof (putIdleSocket_fields s name now (removeFromSockets s name st)) as Hf.
  cbn zeta in Hf. destruct Hf as (Hr & Hs & Hh & Hn & Ha & Hc & Hk & Hm & Ht).
  assert (activeOf name st' = removeFirst s (activeOf name st)) as Hact.
  { rewrite Hst'. unfold activeOf at 1. rewrite Hs.
    fold (activeOf name (removeFromSockets s name st)).
    rewrite activeOf_removeFromSockets. by rewrite decide_True. }
  split_and!; try done.
  - intros Hnd. rewrite Hact. by apply removeFirst_not_elem.
  - rewrite Hst', idleOf_putIdleSocket, decide_True by done.
    by rewrite idleOf_removeFromSockets, keepAlive_removeFromSockets.
  - by rewrite Hst'.
  - rewrite Hst', Ha. apply assigned_removeFromSockets.
Qed.

(** A socket that the transport has destroyed and that then signals
    'free' is parked all the same. *)
Lemma freeHandler_without_waiters_parks_witness :
  let st := destroy 0 (stateAfter [(0%Z, AddRequest (request 1) "h" "80" None)]
                                  oneSocketAgent) in
  isDestroyed 0 st = true ∧
  let st' := freeHandler 0 "h" "80" None 7 st in
  st' = putIdleSocket 0 "h:80" 7 (removeFromSockets 0 "h:80" st) ∧
  activeOf "h:80" st' = removeFirst 0 (activeOf "h:80" st) ∧
  (NoDup (activeOf "h:80" st) → 0 ∉ activeOf "h:80" st') ∧
  idleOf "h:80" st' = idleOf "h:80" st ++ [mkIdle 0 (7 + keepAlive st)%Z] ∧
  validationTimer st' = true ∧
  assigned st' = assigned st.
Proof.
  intros st. split; [reflexivity|].
  apply (freeHandler_without_waiters_parks 0 "h" "80" None 7 st).
  reflexivity.
Defined.

(** ** Who deletes [idleSockets[name]] *)

Lemma removeFromIdleSockets_last s name st l :
  idleSockets st !! name = Some l →
  l ≠ [] →
  removeFirstIdle s l = [] →
  idleSockets (removeFromIdleSockets s name st) !! name = None.
Proof.
  intros Hl Hne Hrm. unfold removeFromIdleSockets. rewrite Hl.
  unfold removeFirstIdle in Hrm.
  destruct (indexOfIdle s l) as [i|]; [|done].
  rewrite Hrm. cbn. apply lookup_delete_eq.
Qed.

(** C10: [findIdleSocket] leaves the rest of the list under
    [idleSockets[name]] when it pops an entry, the empty array when the
    entry was the last one; [validateIdle] deletes the property when it
    removes all the entries, and so does [removeFromIdleSockets] when it
    removes the only entry. *)
Theorem findIdleSocket_keeps_the_emptied_list name st l :
  idleSockets st !! name = Some l →
  (∀ now e rest, keptSuffix now l = e :: rest →
     ∃ st', findIdleSocket name now st = Some (Some (socket e), st') ∧
            idleSockets st' !! name = Some rest) ∧
  (∀ now e, keptSuffix now l = [e] →
     ∃ st', findIdleSocket name now st = Some (Some (socket e), st') ∧
            idleSockets st' !! name = Some []) ∧
  (∀ now, l ≠ [] → keptSuffix now l = [] →
     ∃ st', validateIdle name now st = Some (false, st') ∧
            idleSockets st' !! name = None) ∧
  (∀ s, l ≠ [] → removeFirstIdle s l = [] →
     idleSockets (removeFromIdleSockets s name st) !! name = None).
Proof.
  intros Hl.
  assert (∀ now e rest, keptSuffix now l = e :: rest →
     ∃ st', findIdleSocket name now st = Some (Some (socket e), st') ∧
            idleSockets st' !! name = Some rest) as Hpop.
  { intros now e rest Hk.
    destruct (findIdleSocket_some name now st l e rest Hl Hk) as (st' & Hf & Hi & _).
    exists st'. split; [done|]. by rewrite Hi, lookup_insert_eq. }
  split_and!; [done|by intros now e; apply Hpop| |].
  - intros now Hne Hk.
    destruct (validateIdle_spec name now st l Hl) as (st' & Hv & Hi & _).
    exists st'. rewrite Hv, Hk. split; [done|].
    rewrite Hi, lookup_partial_alter, decide_True by done.
    unfold validatedEntry. rewrite Hk. cbn [length].
    rewrite (bool_decide_eq_true_2 (0 = 0)) by done.
    rewrite bool_decide_eq_true_2; [done|].
    unfold keptSuffix in Hk. destruct l as [|e l]; [done|].
    destruct (expiredCount now (e :: l)); [done|lia].
  - intros s. by apply removeFromIdleSockets_last.
Qed.

Lemma findIdleSocket_keeps_the_emptied_list_witness :
  (∃ st', findIdleSocket "h:80" 5 oneIdle = Some (Some 0, st') ∧
          idleSockets st' !! "h:80" = Some []) ∧
  (∃ st', validateIdle "h:80" 10001 oneIdle = Some (false, st') ∧
          idleSockets st' !! "h:80" = None) ∧
  idleSockets (removeFromIdleSockets 0 "h:80" oneIdle) !! "h:80" = None.
Proof.
  destruct (findIdleSocket_keeps_the_emptied_list "h:80" oneIdle [mkIdle 0 10000])
    as (_ & Hpop & Hexp & Hrm).
  - vm_compute. reflexivity.
  - split_and!.
    + apply (Hpop 5%Z (mkIdle 0 10000)). reflexivity.
    + apply (Hexp 10001%Z); [done|reflexivity].
    + apply (Hrm 0); [done|reflexivity].
Defined.

(** ** The validation timer *)

Lemma onlyDestroys_refl h : onlyDestroys h h.
Proof.
  intros s. exists false. destruct (h !! s) as [[]|]; cbn; [|done].
  unfold markDestroyed. cbn. by rewrite orb_false_r.
Qed.

Lemma onlyDestroys_trans h1 h2 h3 :
  onlyDestroys h1 h2 → onlyDestroys h2 h3 → onlyDestroys h1 h3.
Proof.
  intros H12 H23 s. destruct (H12 s) as [b1 E1], (H23 s) as [b2 E2].
  exists (b1 || b2). rewrite E2, E1.
  destruct (h1 !! s) as [[]|]; cbn; [|done].
  unfold markDestroyed. cbn. by rewrite orb_assoc.
Qed.

Lemma onlyDestroys_destroyAll removed st :
  onlyDestroys (heap st) (heap (destroyAll removed st)).
Proof. intros s. eexists. apply heap_destroyAll. Qed.

Lemma filter_ext_elem {A} (P Q : A → Prop)
    `{!∀ x, Decision (P x), !∀ x, Decision (Q x)} (l : list A) :
  (∀ x, x ∈ l → (P x ↔ Q x)) → filter P l = filter Q l.
Proof.
  induction l as [|x l IH]; intros Hl; [done|].
  rewrite !filter_cons.
  rewrite IH by (intros y Hy; apply Hl; by right).
  destruct (Hl x ltac:(left)) as [H1 H2].
  repeat case_decide; tauto.
Qed.

Lemma validateAll_spec names now socketsLeft st :
  NoDup names →
  ∃ st',
    validateAll names now socketsLeft st =
      Some (socketsLeft + length (filter (keepsIdle now st) names), st') ∧
    (∀ n, idleSockets st' !! n =
          if decide (n ∈ names) then idleSockets st !! n ≫= validatedEntry now
          else idleSockets st !! n) ∧
    onlyDestroys (heap st) (heap st') ∧
    requests st' = requests st ∧ sockets st' = sockets st ∧
    nextSocket st' = nextSocket st ∧ assigned st' = assigned st ∧
    created st' = created st ∧ keepAlive st' = keepAlive st ∧
    maxSockets st' = maxSockets st ∧ validationTimer st' = validationTimer st.
Proof.
  intros Hnd. revert socketsLeft st.
  induction Hnd as [|name names Hname Hnd IH]; intros socketsLeft st.
  - exists st. rewrite filter_nil. cbn [validateAll length].
    rewrite Nat.add_0_r. split_and!; try done.
    apply onlyDestroys_refl.
  - cbn [validateAll]. rewrite filter_cons.
    destruct (idleSockets st !! name) as [l|] eqn:El.
    + destruct (validateIdle_spec name now st l El)
        as (st1 & Hv & Hi & Hh & Hr & Hs & Hn & Ha & Hc & Hka & Hm & Ht).
      rewrite Hv. cbn [mbind option_bind].
      destruct (IH (socketsLeft + Nat.b2n (bool_decide (0 < length (keptSuffix now l)))) st1)
        as (st' & Hva & Hi' & Hh' & Hr' & Hs' & Hn' & Ha' & Hc' & Hka' & Hm' & Ht').
      exists st'. split_and!; try congruence.
      * rewrite Hva. f_equal. f_equal.
        assert (filter (keepsIdle now st1) names = filter (keepsIdle now st) names) as ->.
        { apply filter_ext_elem. intros n Hin.
          unfold keepsIdle, idleOf. rewrite Hi, lookup_partial_alter.
          rewrite decide_False; [done|]. intros ->. done. }
        assert (keepsIdle now st name ↔ keptSuffix now l ≠ []) as Hiff.
        { unfold keepsIdle, idleOf. by rewrite El. }
        destruct (decide (keepsIdle now st name)) as [Hk|Hk]; rewrite Hiff in Hk.
        -- rewrite bool_decide_eq_true_2; [cbn; lia|].
           destruct (keptSuffix now l); [done|cbn; lia].
        -- rewrite bool_decide_eq_false_2; [cbn; lia|].
           destruct (keptSuffix now l); [cbn; lia|]. by destruct Hk.
      * intros n. rewrite Hi'. rewrite Hi, lookup_partial_alter.
        destruct (decide (n = name)) as [->|Hne].
        -- rewrite decide_False by done. rewrite !decide_True by (done || left).
           by rewrite El.
        -- rewrite (decide_False (P := name = n)) by done.
           destruct (decide (n ∈ names)) as [Hin|Hnin].
           ++ rewrite decide_True by (by right). done.
           ++ rewrite decide_False; [done|]. rewrite elem_of_cons. tauto.
      * eapply onlyDestroys_trans; [|done]. rewrite Hh. apply onlyDestroys_destroyAll.
    + destruct (IH socketsLeft st)
        as (st' & Hva & Hi' & Hh' & Hr' & Hs' & Hn' & Ha' & Hc' & Hka' & Hm' & Ht').
      exists st'. split_and!; try congruence.
      * rewrite Hva. f_equal. f_equal.
        rewrite decide_False; [done|].
        unfold keepsIdle, idleOf. rewrite El. cbn. by intros ?.
      * intros n. rewrite Hi'.
        destruct (decide (n = name)) as [->|Hne].
        -- rewrite decide_False by done. rewrite decide_True by left. by rewrite El.
        -- destruct (decide (n ∈ names)) as [Hin|Hnin].
           ++ rewrite decide_True by (by right). done.
           ++ rewrite decide_False; [done|]. rewrite elem_of_cons. tauto.
      * done.
Qed.

Lemma totalIdle_zero st : totalIdle st = 0 ↔ ∀ n, idleOf n st = [].
Proof.
  unfold totalIdle, idleOf.
  apply (map_fold_weak_ind
           (λ r (m : gmap string (list IdleEntry)), r = 0 ↔ ∀ n, default [] (m !! n) = [])).
  - split; [|done]. intros _ n. by rewrite lookup_empty.
  - intros i l m r Hi IH. split.
    + intros Hz n. assert (length l = 0 ∧ r = 0) as [Hl Hr] by lia.
      rewrite lookup_insert. case_decide.
      * cbn. by apply nil_length_inv.
      * by apply IH.
    + intros Hall. assert (l = []) as ->.
      { specialize (Hall i). by rewrite lookup_insert_eq in Hall. }
      cbn. apply IH. intros n. specialize (Hall n).
      rewrite lookup_insert in Hall. case_decide; [|done]. subst. by rewrite Hi.
Qed.

(** The loop of the timer callback over all the properties of
    [idleSockets]. *)
Lemma validateAll_idleSockets now st :
  ∃ st',
    validateAll (map fst (map_to_list (idleSockets st))) now 0 st =
      Some (length (filter (keepsIdle now st) (map fst (map_to_list (idleSockets st)))),
            st') ∧
    idleSockets st' = omap (validatedEntry now) (idleSockets st) ∧
    (∀ n, idleOf n st' = keptSuffix now (idleOf n st)) ∧
    (0 < length (filter (keepsIdle now st) (map fst (map_to_list (idleSockets st))))
       ↔ 0 < totalIdle st') ∧
    onlyDestroys (heap st) (heap st') ∧
    requests st' = requests st ∧ sockets st' = sockets st ∧
    nextSocket st' = nextSocket st ∧ assigned st' = assigned st ∧
    created st' = created st ∧ keepAlive st' = keepAlive st ∧
    maxSockets st' = maxSockets st ∧ validationTimer st' = validationTimer st.
Proof.
  set (names := map fst (map_to_list (idleSockets st))).
  assert (NoDup names) as Hnd by apply NoDup_fst_map_to_list.
  assert (∀ n, n ∈ names ↔ is_Some (idleSockets st !! n)) as Hnames.
  { intros n. subst names. change (map fst ?l) with (l.*1).
    rewrite list_elem_of_fmap. split.
    - intros ([k l] & -> & Hin). apply elem_of_map_to_list in Hin. by exists l.
    - intros [l Hl]. exists (n, l). split; [done|]. by apply elem_of_map_to_list. }
  destruct (validateAll_spec names now 0 st Hnd)
    as (st1 & Hva & Hi & Hh & Hr & Hs & Hn & Ha & Hc & Hka & Hm & Ht).
  exists st1. split; [done|].
  assert (idleSockets st1 = omap (validatedEntry now) (idleSockets st)) as Hi1.
  { apply map_eq. intros n. rewrite Hi, lookup_omap. cbn.
    case_decide as Hin; [done|].
    rewrite Hnames in Hin. destruct (idleSockets st !! n); [|done].
    destruct Hin. by eexists. }
  assert (∀ n, idleOf n st1 = keptSuffix now (idleOf n st)) as Hidle.
  { intros n. unfold idleOf. rewrite Hi1, lookup_omap.
    destruct (idleSockets st !! n); cbn; [apply idleOf_validatedEntry|done]. }
  split_and!; try done. split.
  - intros Hlen. destruct (filter (keepsIdle now st) names) as [|n ns] eqn:Ef;
      [cbn in Hlen; lia|].
    assert (n ∈ filter (keepsIdle now st) names) as Hin by (rewrite Ef; left).
    apply list_elem_of_filter in Hin as [Hk _].
    destruct (decide (totalIdle st1 = 0)) as [Hz|]; [|lia].
    rewrite totalIdle_zero in Hz. specialize (Hz n). rewrite Hidle in Hz. done.
  - intros Hpos. destruct (filter (keepsIdle now st) names) as [|n ns] eqn:Ef;
      [|cbn; lia].
    exfalso. assert (totalIdle st1 = 0); [|lia].
    apply totalIdle_zero. intros n. rewrite Hidle.
    destruct (decide (keptSuffix now (idleOf n st) = [])) as [|Hk]; [done|].
    assert (n ∈ names) as Hin.
    { apply Hnames. unfold idleOf in Hk. destruct (idleSockets st !! n); [by eexists|].
      by destruct Hk. }
    assert (n ∈ filter (keepsIdle now st) names) as Hf.
    { apply list_elem_of_filter. split; [|done]. exact Hk. }
    rewrite Ef in Hf. by apply elem_of_nil in Hf.
Qed.

Lemma validationTimerCallback_spec now st :
  ∃ st',
    validationTimerCallback now st = Some st' ∧
    idleSockets st' = omap (validatedEntry now) (idleSockets st) ∧
    validationTimer st' = bool_decide (0 < totalIdle st') ∧
    onlyDestroys (heap st) (heap st') ∧
    requests st' = requests st ∧ sockets st' = sockets st ∧
    nextSocket st' = nextSocket st ∧ assigned st' = assigned st ∧
    created st' = created st ∧ keepAlive st' = keepAlive st ∧
    maxSockets st' = maxSockets st.
Proof.
  unfold validationTimerCallback.
  destruct (validateAll_idleSockets now (set_validationTimer false st))
    as (st1 & Hva & Hi & _ & Hcount & Hh & Hr & Hs & Hn & Ha & Hc & Hka & Hm & Ht).
  rewrite Hva. cbn [mbind option_bind].
  case_bool_decide as Hleft.
  - exists (setupValidator st1). split; [done|].
    assert (setupValidator st1 = set_validationTimer true st1) as ->.
    { unfold setupValidator. by rewrite Ht. }
    change (totalIdle (set_validationTimer true st1)) with (totalIdle st1).
    rewrite bool_decide_eq_true_2 by (by apply Hcount).
    split_and!; done.
  - exists st1. split; [done|].
    rewrite Ht, bool_decide_eq_false_2 by (by rewrite <- Hcount).
    split_and!; done.
Qed.



(** ** What [validateIdle] returns *)

(** With two entries left, [validateIdle] returns [true], which counts 1
    in the sum of the timer callback, not 2. *)
Lemma validateIdle_is_not_a_count :
  validateIdle "h:80" 6 twoIdle = Some (true, twoIdle) ∧
  length (idleOf "h:80" twoIdle) = 2 ∧
  toNumber true ≠ 2 ∧
  validateAll (map fst (map_to_list (idleSockets twoIdle))) 6 0 twoIdle
    = Some (1, twoIdle) ∧
  totalIdle twoIdle = 2.
Proof. vm_compute. split_and!; (reflexivity || discriminate). Qed.

(** C5, as the code has it: [validateIdle] removes the expired prefix
    and returns whether an entry is left ([true] or [false]); the sum of
    the timer callback is the number of endpoints that keep an entry,
    which is positive exactly when an idle entry is left somewhere. *)
Theorem validateIdle_tells_whether_entries_remain name now st l :
  idleSockets st !! name = Some l →
  (∃ st',
     validateIdle name now st = Some (bool_decide (0 < length (idleOf name st')), st') ∧
     idleOf name st' = keptSuffix now l ∧
     l = expiredPrefix now l ++ idleOf name st') ∧
  (∃ socketsLeft st',
     validateAll (map fst (map_to_list (idleSockets st))) now 0 st
       = Some (socketsLeft, st') ∧
     socketsLeft =
       length (filter (λ n, idleOf n st' ≠ []) (map fst (map_to_list (idleSockets st)))) ∧
     (0 < socketsLeft ↔ 0 < totalIdle st')).
Proof.
  intros Hl. split.
  - destruct (validateIdle_spec name now st l Hl) as (st' & Hv & Hi & _).
    assert (idleOf name st' = keptSuffix now l) as Hk.
    { unfold idleOf. rewrite Hi, lookup_partial_alter, decide_True by done.
      apply idleOf_validatedEntry. }
    exists st'. rewrite Hk. split_and!; [done|done|].
    by rewrite expired_split.
  - destruct (validateAll_idleSockets now st) as (st' & Hva & _ & Hidle & Hcount & _).
    eexists _, st'. split; [exact Hva|]. split; [|done].
    f_equal. apply filter_ext_elem. intros n _. unfold keepsIdle. by rewrite Hidle.
Qed.

Lemma validateIdle_tells_whether_entries_remain_witness :
  (∃ st',
     validateIdle "h:80" 10003 twoIdle
       = Some (bool_decide (0 < length (idleOf "h:80" st')), st') ∧
     idleOf "h:80" st' = [mkIdle 1 10005] ∧
     [mkIdle 0 10000; mkIdle 1 10005] = [mkIdle 0 10000] ++ idleOf "h:80" st') ∧
  (∃ socketsLeft st',
     validateAll (map fst (map_to_list (idleSockets twoIdle))) 10003 0 twoIdle
       = Some (socketsLeft, st') ∧
     socketsLeft =
       length (filter (λ n, idleOf n st' ≠ [])
                      (map fst (map_to_list (idleSockets twoIdle)))) ∧
     (0 < socketsLeft ↔ 0 < totalIdle st')).
Proof.
  apply (validateIdle_tells_whether_entries_remain "h:80" 10003 twoIdle
           [mkIdle 0 10000; mkIdle 1 10005]).
  vm_compute. reflexivity.
Defined.

(** ** The bookkeeping invariant *)

Lemma removeFirst_sublist s l : removeFirst s l `sublist_of` l.
Proof.
  induction l as [|x l IH]; [done|].
  rewrite removeFirst_cons. case_bool_decide.
  - by apply sublist_cons.
  - by apply sublist_skip.
Qed.

Lemma removeFirstIdle_sublist s l : removeFirstIdle s l `sublist_of` l.
Proof.
  induction l as [|x l IH]; [done|].
  rewrite removeFirstIdle_cons. case_bool_decide.
  - by apply sublist_cons.
  - by apply sublist_skip.
Qed.

Lemma keptSuffix_sublist now l : keptSuffix now l `sublist_of` l.
Proof. apply sublist_drop. Qed.

Lemma sortedByExpiry_sublist k l : k `sublist_of` l → sortedByExpiry l → sortedByExpiry k.
Proof.
  induction 1 as [|x k l Hkl IH|x k l Hkl IH]; cbn; [done| |].
  - intros [Hall Hs]. split; [|by apply IH].
    intros e' He'. apply Hall. by eapply elem_of_sublist.
  - intros [_ Hs]. by apply IH.
Qed.

Lemma poolOf_elem n s st :
  s ∈ poolOf n st ↔ s ∈ activeOf n st ∨ s ∈ socket <$> idleOf n st.
Proof. unfold poolOf. apply elem_of_app. Qed.

Lemma listensAs_onlyDestroys n s h h' :
  onlyDestroys h h' → listensAs n s h → listensAs n s h'.
Proof.
  intros Hd (o & cl & Ho & Hf & Hn). destruct (Hd s) as [b Hb].
  rewrite Ho in Hb. exists (markDestroyed b o), cl. done.
Qed.

Lemma closuresOk_onlyDestroys h h' : onlyDestroys h h' → closuresOk h → closuresOk h'.
Proof.
  intros Hd Hc s o' Ho'. destruct (Hd s) as [b Hb]. rewrite Ho' in Hb.
  destruct (h !! s) as [o|] eqn:Ho; [|done].
  injection Hb as ->. cbn. by apply (Hc s).
Qed.

Lemma is_Some_onlyDestroys h h' s : onlyDestroys h h' → is_Some (h' !! s) ↔ is_Some (h !! s).
Proof.
  intros Hd. destruct (Hd s) as [b ->]. by rewrite fmap_is_Some.
Qed.

Lemma submseteq_NoDup {A} (k l : list A) : NoDup l → k ⊆+ l → NoDup k.
Proof.
  intros Hl (k' & Hp)%submseteq_Permutation.
  rewrite Hp in Hl. by apply NoDup_app in Hl as (? & _ & _).
Qed.

(** An operation that only untracks sockets, moves them between the
    active and the idle list of their endpoint, or destroys them. *)
Lemma Inv_submseteq st st' :
  Inv st →
  (∀ n, poolOf n st' ⊆+ poolOf n st) →
  onlyDestroys (heap st) (heap st') →
  nextSocket st' = nextSocket st →
  Inv st'.
Proof.
  intros [Hnd Hl Hc Hf] Hsub Hd Hn. split.
  - intros n. eapply submseteq_NoDup; [apply Hnd|apply Hsub].
  - intros n s Hs. eapply listensAs_onlyDestroys; [done|].
    apply Hl. eapply elem_of_submseteq; [done|apply Hsub].
  - by eapply closuresOk_onlyDestroys.
  - intros s Hs. rewrite Hn. apply Hf.
    by apply (is_Some_onlyDestroys (heap st) (heap st') s Hd).
Qed.

Lemma Inv_removeFromSockets s name st : Inv st → Inv (removeFromSockets s name st).
Proof.
  intros HI. apply (Inv_submseteq st); [done| | |].
  - intros n. unfold poolOf.
    rewrite activeOf_removeFromSockets, idleOf_removeFromSockets.
    case_decide; [|done]. apply submseteq_app; [|done].
    apply sublist_submseteq, removeFirst_sublist.
  - rewrite heap_removeFromSockets. apply onlyDestroys_refl.
  - apply nextSocket_removeFromSockets.
Qed.

Lemma Inv_removeFromIdleSockets s name st : Inv st → Inv (removeFromIdleSockets s name st).
Proof.
  intros HI. apply (Inv_submseteq st); [done| | |].
  - intros n. unfold poolOf.
    rewrite activeOf_removeFromIdleSockets, idleOf_removeFromIdleSockets.
    case_decide; [|done]. apply submseteq_app; [done|].
    apply sublist_submseteq, fmap_sublist, removeFirstIdle_sublist.
  - rewrite heap_removeFromIdleSockets. apply onlyDestroys_refl.
  - apply nextSocket_removeFromIdleSockets.
Qed.

Lemma Inv_destroy s st : Inv st → Inv (destroy s st).
Proof.
  intros HI. apply (Inv_submseteq st); [done|done| |done].
  apply (onlyDestroys_destroyAll [mkIdle s 0] st).
Qed.

Lemma Inv_validationTimerCallback now st st' :
  Inv st → validationTimerCallback now st = Some st' → Inv st'.
Proof.
  intros HI Hcb.
  destruct (validationTimerCallback_spec now st)
    as (st1 & Hcb1 & Hi & _ & Hh & _ & Hs & Hn & _).
  rewrite Hcb in Hcb1. injection Hcb1 as <-.
  apply (Inv_submseteq st); [done| |done|done].
  intros n. unfold poolOf, activeOf, idleOf. rewrite Hs, Hi, lookup_omap.
  apply submseteq_app; [done|]. apply sublist_submseteq, fmap_sublist.
  destruct (idleSockets st !! n) as [l|]; cbn; [|done].
  rewrite idleOf_validatedEntry. apply keptSuffix_sublist.
Qed.

(** The two branches of the 'free' handler: the socket goes to the
    first waiting request, or it is parked. *)
Lemma freeHandler_cases s host port localAddress now st :
  let name := endpointName host port localAddress in
  let st' := freeHandler s host port localAddress now st in
  (isDestroyed s st = false ∧
   ∃ req rest,
     requests st !! name = Some (req :: rest) ∧
     assigned st' = assigned st ++ [(req, s)] ∧
     (∀ n, waitingOf n st' = if decide (n = name) then rest else waitingOf n st) ∧
     requests st' !! name = (if bool_decide (rest = []) then None else Some rest) ∧
     sockets st' = sockets st ∧ idleSockets st' = idleSockets st ∧
     heap st' = heap st ∧ nextSocket st' = nextSocket st ∧
     created st' = created st ∧ keepAlive st' = keepAlive st ∧
     maxSockets st' = maxSockets st ∧ validationTimer st' = validationTimer st)
  ∨ ((isDestroyed s st = true ∨ waitingOf name st = []) ∧
     st' = putIdleSocket s name now (removeFromSockets s name st)).
Proof.
  intros name st'. subst st'. unfold freeHandler. fold name.
  destruct (isDestroyed s st) eqn:Ed; [right; split; [by left|done]|].
  unfold waitingOf.
  destruct (requests st !! name) as [[|req rest]|] eqn:Er;
    [right; split; [by right|done]| |right; split; [by right|done]].
  left. split; [done|]. exists req, rest. split; [done|].
  destruct rest as [|r rest].
  - rewrite (bool_decide_eq_true_2 (length [] = 0)) by done.
    rewrite (bool_decide_eq_true_2 ([] = [])) by done.
    unfold waitingOf. cbn. split_and!; try done.
    + intros n. rewrite lookup_delete. case_decide; subst.
      * by rewrite decide_True.
      * rewrite decide_False by done. by rewrite lookup_insert_ne.
    + apply lookup_delete_eq.
  - rewrite (bool_decide_eq_false_2 (length (r :: rest) = 0)) by done.
    rewrite (bool_decide_eq_false_2 (r :: rest = [])) by done.
    unfold waitingOf. cbn. split_and!; try done.
    + intros n. rewrite lookup_insert. case_decide; subst.
      * by rewrite decide_True.
      * by rewrite decide_False.
    + apply lookup_insert_eq.
Qed.

Lemma removeFirst_Permutation s l : s ∈ l → l ≡ₚ s :: removeFirst s l.
Proof.
  induction l as [|x l IH]; [by intros ?%elem_of_nil|].
  rewrite removeFirst_cons. case_bool_decide as E; [by subst|].
  intros [->|Hin]%elem_of_cons; [done|].
  rewrite (IH Hin) at 1. apply Permutation_swap.
Qed.

Lemma poolOf_park s name now st n :
  s ∈ activeOf name st →
  poolOf n (putIdleSocket s name now (removeFromSockets s name st)) ≡ₚ poolOf n st.
Proof.
  intros Hs. unfold poolOf.
  rewrite idleOf_putIdleSocket, idleOf_removeFromSockets.
  unfold activeOf at 1.
  destruct (putIdleSocket_fields s name now (removeFromSockets s name st))
    as (_ & -> & _).
  fold (activeOf n (removeFromSockets s name st)).
  rewrite activeOf_removeFromSockets.
  case_decide; [|done]. subst n.
  rewrite fmap_app. cbn.
  rewrite (removeFirst_Permutation s (activeOf name st) Hs) at 2.
  cbn. rewrite (Permutation_app_comm (socket <$> idleOf name st) [s]). cbn.
  by rewrite Permutation_middle.
Qed.

Lemma Inv_freeHandler s host port localAddress now st :
  Inv st →
  s ∈ activeOf (endpointName host port localAddress) st →
  let st' := freeHandler s host port localAddress now st in
  Inv st' ∧ (∀ n, poolOf n st' ≡ₚ poolOf n st) ∧
  heap st' = heap st ∧ nextSocket st' = nextSocket st.
Proof.
  intros HI Hs st'.
  assert ((∀ n, poolOf n st' ≡ₚ poolOf n st) ∧
          heap st' = heap st ∧ nextSocket st' = nextSocket st) as (Hp & Hh & Hn).
  { destruct (freeHandler_cases s host port localAddress now st)
      as [(_ & req & rest & _ & _ & _ & _ & Hso & Hid & Hh & Hn & _)|[_ Hpark]];
      fold st' in Hso, Hid, Hh, Hn || fold st' in Hpark.
    - split_and!; try done. intros n. unfold poolOf, activeOf, idleOf.
      by rewrite Hso, Hid.
    - rewrite Hpark. split_and!.
      + intros n. by apply poolOf_park.
      + destruct (putIdleSocket_fields s (endpointName host port localAddress) now
                   (removeFromSockets s (endpointName host port localAddress) st))
          as (_ & _ & -> & _). apply heap_removeFromSockets.
      + destruct (putIdleSocket_fields s (endpointName host port localAddress) now
                   (removeFromSockets s (endpointName host port localAddress) st))
          as (_ & _ & _ & -> & _). apply nextSocket_removeFromSockets. }
  split_and!; try done.
  apply (Inv_submseteq st); [done| | |done].
  - intros n. by rewrite Hp.
  - rewrite Hh. apply onlyDestroys_refl.
Qed.

Lemma Inv_findOrCreateSocket name host port localAddress req now st s st' :
  Inv st →
  name = endpointName host port localAddress →
  findOrCreateSocket name host port localAddress req now st = Some (s, st') →
  Inv st' ∧ s ∈ activeOf name st' ∧
  (∀ n x, x ∈ poolOf n st' → x ∈ poolOf n st ∨ x = nextSocket st) ∧
  (∀ x, is_Some (heap st !! x) → is_Some (heap st' !! x)).
Proof.
  intros HI Hname Hf.
  destruct (findOrCreateSocket_views name host port localAddress req now st)
    as [[Hthrows _]|(s0 & st0 & Hf0 & Hidle & Hact & _ & _ & _ & _ & _ & Hcase)]; [throws Hthrows|].
  rewrite Hf in Hf0. injection Hf0 as <- <-.
  assert (s ∈ activeOf name st') as Hs.
  { rewrite Hact, decide_True by done. apply elem_of_app. right. left. }
  destruct Hcase as [(e & rest & Hk & -> & Hh & Hn & _)|(Hk & -> & Hh & Hn & _)].
  - (* an idle socket is reused *)
    assert (∀ n, poolOf n st' ⊆+ poolOf n st) as Hsub.
    { intros n. unfold poolOf. rewrite Hidle, Hact.
      case_decide; [|done]. subst n.
      rewrite Hk. cbn [tail]. rewrite <- app_assoc. apply submseteq_app; [done|].
      rewrite <- (expired_split now (idleOf name st)), Hk, fmap_app. cbn.
      apply submseteq_inserts_l. done. }
    split_and!; [|done| |].
    + apply (Inv_submseteq st); [done|done| |done].
      rewrite Hh. apply onlyDestroys_destroyAll.
    + intros n x Hx. left. eapply elem_of_submseteq; [done|apply Hsub].
    + intros x Hx. rewrite Hh.
      by apply (is_Some_onlyDestroys _ _ x (onlyDestroys_destroyAll _ st)).
  - (* a new socket is created *)
    destruct HI as [Hnd Hl Hc Hfr].
    set (h1 := heap (destroyAll (expiredPrefix now (idleOf name st)) st)) in *.
    assert (onlyDestroys (heap st) h1) as Hd by apply onlyDestroys_destroyAll.
    assert (∀ n x, x ∈ poolOf n st → x < nextSocket st) as Hlt.
    { intros n x Hx. apply Hfr. destruct (Hl n x Hx) as (o & _ & -> & _). by eexists. }
    assert (∀ n x, x ∈ poolOf n st' → x ∈ poolOf n st ∨ x = nextSocket st) as Hin.
    { intros n x. unfold poolOf. rewrite Hidle, Hact. case_decide; [|by left].
      subst n. rewrite Hk. cbn [tail fmap list_fmap].
      rewrite app_nil_r, !elem_of_app, list_elem_of_singleton. tauto. }
    split_and!; [|done|done|].
    + split.
      * intros n. unfold poolOf. rewrite Hidle, Hact. case_decide; [|apply Hnd].
        subst n. rewrite Hk. cbn [tail fmap list_fmap]. rewrite app_nil_r.
        apply NoDup_app. split_and!.
        -- specialize (Hnd name). unfold poolOf in Hnd.
           by apply NoDup_app in Hnd as (? & _ & _).
        -- intros x Hx ->%list_elem_of_singleton.
           assert (nextSocket st < nextSocket st); [|lia].
           apply (Hlt name). apply poolOf_elem. by left.
        -- apply NoDup_singleton.
      * intros n x Hx. destruct (Hin n x Hx) as [Hold| ->].
        -- destruct (listensAs_onlyDestroys n x _ _ Hd (Hl n x Hold)) as (o & cl & Ho & Hcl).
           exists o, cl. split; [|done]. rewrite Hh, lookup_insert_ne; [done|].
           specialize (Hlt n x Hold). lia.
        -- assert (n = name) as ->.
           { destruct (decide (n = name)) as [|Hne]; [done|].
             unfold poolOf in Hx. rewrite Hidle, Hact, !decide_False in Hx by done.
             specialize (Hlt n _ Hx). lia. }
           eexists _, _. rewrite Hh, lookup_insert_eq. done.
      * intros x o. rewrite Hh, lookup_insert. case_decide.
        -- intros [= <-]. cbn. split_and!; try done. by intros cl [= <-].
        -- by apply (closuresOk_onlyDestroys _ _ Hd Hc).
      * intros x. rewrite Hh, Hn, lookup_insert. case_decide; [lia|].
        intros Hx. apply (is_Some_onlyDestroys _ _ x Hd) in Hx.
        specialize (Hfr x Hx). lia.
    + intros x Hx. rewrite Hh, lookup_insert. case_decide; [by eexists|].
      by apply (is_Some_onlyDestroys _ _ x Hd).
Qed.

Lemma emitFree_tracked s name now st :
  Inv st →
  s ∈ activeOf name st →
  ∃ cl, emitFree s now st = freeHandler s (cl_host cl) (cl_port cl) (cl_localAddress cl) now st ∧
        endpointName (cl_host cl) (cl_port cl) (cl_localAddress cl) = name.
Proof.
  intros HI Hs.
  destruct (inv_listens st HI name s) as (o & cl & Ho & Hf & Hn).
  { apply poolOf_elem. by left. }
  exists cl. unfold emitFree. rewrite Ho, Hf. split; [done|].
  destruct (inv_closures st HI s o Ho) as (_ & _ & Hcl). rewrite <- (Hcl cl Hf). done.
Qed.

Lemma Inv_emitFree s name now st :
  Inv st →
  s ∈ activeOf name st →
  let st' := emitFree s now st in
  Inv st' ∧ (∀ n, poolOf n st' ≡ₚ poolOf n st) ∧
  heap st' = heap st ∧ nextSocket st' = nextSocket st.
Proof.
  intros HI Hs st'. subst st'.
  destruct (emitFree_tracked s name now st HI Hs) as (cl & -> & Hn).
  apply Inv_freeHandler; [done|]. by rewrite Hn.
Qed.

Lemma Inv_removeSocket s name host port localAddress now st st' :
  Inv st →
  name = endpointName host port localAddress →
  removeSocket s name host port localAddress now st = Some st' →
  Inv st' ∧
  (∀ n x, x ∈ poolOf n st' →
     x ∈ poolOf n (removeFromIdleSockets s name (removeFromSockets s name st)) ∨
     x = nextSocket st) ∧
  (∀ x, is_Some (heap st !! x) → is_Some (heap st' !! x)).
Proof.
  intros HI Hname Hrm. unfold removeSocket in Hrm.
  set (st1 := removeFromIdleSockets s name (removeFromSockets s name st)) in *.
  assert (Inv st1) as HI1 by by apply Inv_removeFromIdleSockets, Inv_removeFromSockets.
  assert (heap st1 = heap st) as Hh1.
  { subst st1. by rewrite heap_removeFromIdleSockets, heap_removeFromSockets. }
  assert (nextSocket st1 = nextSocket st) as Hn1.
  { subst st1. by rewrite nextSocket_removeFromIdleSockets, nextSocket_removeFromSockets. }
  destruct (requests st1 !! name) as [[|req rest]|].
  1,3: injection Hrm as <-; split_and!; [done|by left|by rewrite Hh1].
  destruct (findOrCreateSocket name host port localAddress (Some req) now st1)
    as [[s' st2]|] eqn:Hf; [|done].
  cbn in Hrm. injection Hrm as <-.
  destruct (Inv_findOrCreateSocket _ _ _ _ _ _ _ _ _ HI1 Hname Hf)
    as (HI2 & Hs' & Hin & Hdom).
  destruct (Inv_emitFree s' name now st2 HI2 Hs') as (HI3 & Hp & Hh3 & Hn3).
  split_and!; [done| |].
  - intros n x Hx. rewrite Hp in Hx. rewrite <- Hn1. by apply Hin.
  - intros x Hx. rewrite Hh3. apply Hdom. by rewrite Hh1.
Qed.

Lemma Inv_addRequest req host port localAddress now st st' :
  Inv st →
  addRequest req host port localAddress now st = Some st' →
  Inv st'.
Proof.
  intros HI Hadd. unfold addRequest in Hadd.
  set (name := endpointName host port localAddress) in *.
  set (st1 := match sockets st !! name with
              | Some _ => st
              | None => set_sockets <[name:=[]]> st
              end) in *.
  assert (Inv st1) as HI1.
  { apply (Inv_submseteq st); [done| | |].
    - intros n. assert (poolOf n st1 = poolOf n st) as ->; [|done].
      subst st1. unfold poolOf, activeOf, idleOf.
      destruct (sockets st !! name) eqn:E; [done|]. cbn.
      rewrite lookup_insert.
      destruct (decide (name = n)) as [<-|]; [by rewrite E|done].
    - subst st1. destruct (sockets st !! name); apply onlyDestroys_refl.
    - subst st1. by destruct (sockets st !! name). }
  destruct (lengthBelow _ _) eqn:Hlt.
  - destruct (findOrCreateSocket name host port localAddress (Some req) now st1)
      as [[s st2]|] eqn:Hf; [|done].
    cbn in Hadd. injection Hadd as <-.
    destruct (Inv_findOrCreateSocket _ _ _ _ _ _ _ _ _ HI1 eq_refl Hf) as (HI2 & _).
    apply (Inv_submseteq st2); [done|done|apply onlyDestroys_refl|done].
  - injection Hadd as <-.
    apply (Inv_submseteq st1); [done| | |].
    + intros n. by destruct (requests st1 !! name).
    + destruct (requests st1 !! name); apply onlyDestroys_refl.
    + by destruct (requests st1 !! name).
Qed.

Lemma Inv_emitClose s now st st' :
  Inv st → emitClose s now st = Some st' → Inv st'.
Proof.
  intros HI Hc. unfold emitClose in Hc.
  destruct (heap st !! s) as [o|] eqn:Ho; [|by injection Hc as <-].
  destruct (onClose o) as [cl|] eqn:Hcl; [|by injection Hc as <-].
  destruct (inv_closures st HI s o Ho) as (Hcf & _ & Hwf).
  rewrite Hcf in Hcl.
  by destruct (Inv_removeSocket _ _ _ _ _ _ _ _ HI (Hwf cl Hcl) Hc).
Qed.

Lemma removeFirst_fmap_not_elem s (l : list IdleEntry) :
  NoDup (socket <$> l) → s ∉ socket <$> removeFirstIdle s l.
Proof. intros Hnd. rewrite removeFirstIdle_sockets. by apply removeFirst_not_elem. Qed.

Lemma Inv_emitAgentRemove s now st st' :
  Inv st → emitAgentRemove s now st = Some st' → Inv st'.
Proof.
  intros HI Hc. unfold emitAgentRemove in Hc.
  destruct (heap st !! s) as [o|] eqn:Ho; [|by injection Hc as <-].
  destruct (onRemove o) as [cl|] eqn:Hcl; [|by injection Hc as <-].
  destruct (inv_closures st HI s o Ho) as (_ & Hrf & Hwf).
  rewrite Hrf in Hcl.
  destruct (removeSocket s (cl_name cl) (cl_host cl) (cl_port cl) (cl_localAddress cl) now st)
    as [st1|] eqn:Hrm; [|done].
  cbn in Hc. injection Hc as <-.
  destruct (Inv_removeSocket _ _ _ _ _ _ _ _ HI (Hwf cl Hcl) Hrm) as (HI1 & Hin & Hdom).
  (* [s] is not tracked any more *)
  assert (∀ n, s ∉ poolOf n st1) as Hs.
  { intros n Hx. destruct (Hin n s Hx) as [Hold| ->].
    - unfold poolOf in Hold.
      rewrite activeOf_removeFromIdleSockets, activeOf_removeFromSockets,
        idleOf_removeFromIdleSockets, idleOf_removeFromSockets in Hold.
      pose proof (inv_nodup st HI n) as Hnd. unfold poolOf in Hnd.
      apply NoDup_app in Hnd as (Hnda & _ & Hndi).
      case_decide as Hn.
      + apply elem_of_app in Hold as [Ha|Hi].
        * by apply (removeFirst_not_elem s (activeOf n st)).
        * by apply (removeFirst_fmap_not_elem s (idleOf n st)).
      + apply Hn. destruct (inv_listens st HI n s Hold) as (o' & cl' & Ho' & Hf' & Hn').
        rewrite Ho in Ho'. injection Ho' as <-. congruence.
    - assert (nextSocket st < nextSocket st); [|lia].
      apply (inv_fresh st HI). by eexists. }
  destruct HI1 as [Hnd Hl Hcl1 Hfr]. split.
  - done.
  - intros n x Hx. destruct (Hl n x Hx) as (o' & cl' & Ho' & Hcl').
    exists o', cl'. split; [|done]. unfold removeListeners. cbn.
    rewrite lookup_alter_ne; [done|]. intros ->. by apply (Hs n).
  - intros x o'. unfold removeListeners. cbn. rewrite lookup_alter.
    case_decide; [|apply Hcl1].
    destruct (heap st1 !! s); [|done]. intros [= <-]. done.
  - intros x. unfold removeListeners. cbn. rewrite lookup_alter_is_Some. apply Hfr.
Qed.

Lemma Inv_Agent options : Inv (Agent options).
Proof.
  split.
  - intros n. unfold poolOf, activeOf, idleOf. cbn. rewrite !lookup_empty. constructor.
  - intros n s. unfold poolOf, activeOf, idleOf. cbn. rewrite !lookup_empty.
    by intros ?%elem_of_nil.
  - intros s o. cbn. by rewrite lookup_empty.
  - intros s. cbn. rewrite lookup_empty. by intros [? ?].
Qed.

Lemma Inv_step now ev st st' :
  Inv st → enabled ev st = true → step now ev st = Some st' → Inv st'.
Proof.
  intros HI Hen Hstep. destruct ev as [req host port la|s|s|s|s|]; cbn in Hstep.
  - by eapply Inv_addRequest.
  - injection Hstep as <-. cbn in Hen. unfold nameOfSocket in Hen.
    destruct (heap st !! s) as [o|] eqn:Ho; [|done]. cbn in Hen.
    destruct (onFree o) as [cl|] eqn:Hcl; [|done]. cbn in Hen.
    apply bool_decide_eq_true in Hen.
    by destruct (Inv_emitFree s _ now st HI Hen).
  - by eapply Inv_emitClose.
  - by eapply Inv_emitAgentRemove.
  - injection Hstep as <-. by apply Inv_destroy.
  - destruct (validationTimer st); [|by injection Hstep as <-].
    by eapply Inv_validationTimerCallback.
Qed.

Lemma Inv_reachable options st : reachable options st → Inv st.
Proof.
  induction 1 as [|st now ev st' _ IH Hen Hstep]; [apply Inv_Agent|].
  by eapply Inv_step.
Qed.

(** ** Active and idle are disjoint *)

(** C9: in every reachable state no socket is both in [sockets[name]]
    and in [idleSockets[name]]; the 'free' handler takes the socket out
    of the active list before it parks it, and [findIdleSocket] takes
    the entry out of the idle list before it pushes the socket on the
    active list. *)
Theorem active_and_idle_disjoint options st name s :
  reachable options st →
  ¬ (s ∈ activeOf name st ∧ s ∈ socket <$> idleOf name st).
Proof.
  intros Hr [Ha Hi]. apply Inv_reachable in Hr.
  pose proof (inv_nodup st Hr name) as Hnd. unfold poolOf in Hnd.
  apply NoDup_app in Hnd as (_ & Hdis & _). by apply (Hdis s).
Qed.

Lemma reachable_run options evs st st' :
  reachable options st → run evs st = Some st' → reachable options st'.
Proof.
  revert st. induction evs as [|[now ev] evs IH]; intros st Hr Hrun; cbn in Hrun.
  - by injection Hrun as <-.
  - destruct (enabled ev st) eqn:Hen; [|done].
    destruct (step now ev st) as [st1|] eqn:Hstep; [|done]. cbn in Hrun.
    apply (IH st1); [|done]. by eapply reachable_step.
Qed.

Lemma reachableAt_run options evs t st st' :
  reachableAt options t st →
  monotone t evs = true →
  run evs st = Some st' →
  reachableAt options (lastTime t evs) st'.
Proof.
  revert t st. induction evs as [|[now ev] evs IH]; intros t st Hr Hm Hrun;
    cbn in Hrun, Hm.
  - by injection Hrun as <-.
  - apply andb_true_iff in Hm as [Ht%bool_decide_eq_true Hm].
    destruct (enabled ev st) eqn:Hen; [|done].
    destruct (step now ev st) as [st1|] eqn:Hstep; [|done]. cbn in Hrun.
    cbn [lastTime]. apply (IH now st1); [|done|done]. by eapply reachableAt_step.
Qed.

Lemma reachableAt_reachable options t st : reachableAt options t st → reachable options st.
Proof.
  induction 1 as [|t st now ev st' _ IH _ Hen Hstep]; [constructor|].
  by eapply reachable_step.
Qed.

Lemma active_and_idle_disjoint_witness :
  ¬ (0 ∈ activeOf "h:80" oneIdle ∧ 0 ∈ socket <$> idleOf "h:80" oneIdle).
Proof.
  apply (active_and_idle_disjoint (mkAgentOptions (Some (integer 1)) None) oneIdle "h:80" 0).
  apply (reachable_run _ [ (0%Z, AddRequest (request 1) "h" "80" None);
                           (0%Z, SocketFree 0) ] oneSocketAgent).
  - apply reachable_init.
  - vm_compute. reflexivity.
Defined.

(** ** Expiry order *)

Lemma Timed_mono t t' st : (t ≤ t')%Z → Timed t st → Timed t' st.
Proof.
  intros Ht HT n. destruct (HT n) as [Hs Hb]. split; [done|].
  intros e He. specialize (Hb e He). lia.
Qed.

Lemma Timed_sublist t st st' :
  Timed t st →
  (∀ n, idleOf n st' `sublist_of` idleOf n st) →
  keepAlive st' = keepAlive st →
  Timed t st'.
Proof.
  intros HT Hsub Hk n. destruct (HT n) as [Hs Hb]. split.
  - apply (sortedByExpiry_sublist _ (idleOf n st)); [apply Hsub|done].
  - intros e He. rewrite Hk. apply Hb.
    apply (elem_of_sublist (idleOf n st')); [done|apply Hsub].
Qed.

Lemma Timed_putIdleSocket s name now st :
  Timed now st → Timed now (putIdleSocket s name now st).
Proof.
  intros HT n. destruct (HT n) as [Hs Hb].
  destruct (putIdleSocket_fields s name now st) as (_ & _ & _ & _ & _ & _ & Hk & _).
  rewrite idleOf_putIdleSocket, Hk. case_decide; [|done]. split.
  - apply sortedByExpiry_app. split_and!; [done|cbn; split; [|done]|].
    + by intros e' ?%elem_of_nil.
    + intros e1 e2 He1 ->%list_elem_of_singleton. cbn. by apply Hb.
  - intros e [He| ->%list_elem_of_singleton]%elem_of_app; [by apply Hb|]. cbn. lia.
Qed.

Lemma Timed_freeHandler s host port localAddress now st :
  Timed now st → Timed now (freeHandler s host port localAddress now st).
Proof.
  intros HT.
  destruct (freeHandler_cases s host port localAddress now st)
    as [(_ & req & rest & _ & _ & _ & _ & _ & Hid & _ & _ & _ & Hk & _)|[_ ->]].
  - apply (Timed_sublist now st); [done| |done].
    intros n. unfold idleOf. by rewrite Hid.
  - apply Timed_putIdleSocket.
    apply (Timed_sublist now st); [done| |apply keepAlive_removeFromSockets].
    intros n. by rewrite idleOf_removeFromSockets.
Qed.

Lemma Timed_emitFree s now st : Timed now st → Timed now (emitFree s now st).
Proof.
  intros HT. unfold emitFree. destruct (heap st !! s) as [o|]; [|done].
  destruct (onFree o); [|done]. by apply Timed_freeHandler.
Qed.

Lemma Timed_findOrCreateSocket name host port localAddress req now st s st' t :
  Timed t st →
  findOrCreateSocket name host port localAddress req now st = Some (s, st') →
  Timed t st'.
Proof.
  intros HT Hf.
  destruct (findOrCreateSocket_views name host port localAddress req now st)
    as [[Hthrows _]|(s0 & st0 & Hf0 & Hidle & _ & _ & _ & Hk & _)]; [throws Hthrows|].
  rewrite Hf in Hf0. injection Hf0 as <- <-.
  apply (Timed_sublist t st); [done| |done].
  intros n. rewrite Hidle. case_decide; [|done]. subst n.
  pose proof (keptSuffix_sublist now (idleOf name st)) as Hsub.
  destruct (keptSuffix now (idleOf name st)) as [|e r]; [apply sublist_nil_l|].
  cbn [tail]. etrans; [|exact Hsub]. by apply sublist_cons.
Qed.

Lemma Timed_removeSocket s name host port localAddress now st st' :
  Timed now st →
  removeSocket s name host port localAddress now st = Some st' →
  Timed now st'.
Proof.
  intros HT Hrm. unfold removeSocket in Hrm.
  set (st1 := removeFromIdleSockets s name (removeFromSockets s name st)) in *.
  assert (Timed now st1) as HT1.
  { apply (Timed_sublist now st); [done| |].
    - intros n. subst st1.
      rewrite idleOf_removeFromIdleSockets, idleOf_removeFromSockets.
      case_decide; [|done]. apply removeFirstIdle_sublist.
    - subst st1. by rewrite keepAlive_removeFromIdleSockets, keepAlive_removeFromSockets. }
  destruct (requests st1 !! name) as [[|req rest]|].
  1,3: by injection Hrm as <-.
  destruct (findOrCreateSocket name host port localAddress (Some req) now st1)
    as [[s' st2]|] eqn:Hf; [|done].
  cbn in Hrm. injection Hrm as <-.
  apply Timed_emitFree. by eapply Timed_findOrCreateSocket.
Qed.

Lemma Timed_step t now ev st st' :
  Timed t st → (t ≤ now)%Z → step now ev st = Some st' → Timed now st'.
Proof.
  intros HT0 Ht Hstep. pose proof (Timed_mono t now st Ht HT0) as HT.
  destruct ev as [req host port la|s|s|s|s|]; cbn in Hstep.
  - unfold addRequest in Hstep.
    set (name := endpointName host port la) in *.
    set (st1 := match sockets st !! name with
                | Some _ => st
                | None => set_sockets <[name:=[]]> st
                end) in *.
    assert (Timed now st1) as HT1.
    { apply (Timed_sublist now st); [done| |];
        subst st1; by destruct (sockets st !! name). }
    destruct (lengthBelow _ _) eqn:Hlt.
    + destruct (findOrCreateSocket name host port la (Some req) now st1)
        as [[s st2]|] eqn:Hf; [|done].
      cbn in Hstep. injection Hstep as <-.
      apply (Timed_sublist now st2); [|done|done].
      by eapply Timed_findOrCreateSocket.
    + injection Hstep as <-.
      apply (Timed_sublist now st1); [done| |];
        by destruct (requests st1 !! name).
  - injection Hstep as <-. by apply Timed_emitFree.
  - unfold emitClose in Hstep. destruct (heap st !! s) as [o|]; [|by injection Hstep as <-].
    destruct (onClose o); [|by injection Hstep as <-].
    by eapply Timed_removeSocket.
  - unfold emitAgentRemove in Hstep.
    destruct (heap st !! s) as [o|]; [|by injection Hstep as <-].
    destruct (onRemove o) as [cl|]; [|by injection Hstep as <-].
    destruct (removeSocket s (cl_name cl) (cl_host cl) (cl_port cl) (cl_localAddress cl) now st)
      as [st1|] eqn:Hrm; [|done].
    cbn in Hstep. injection Hstep as <-.
    apply (Timed_sublist now st1); [|done|done]. by eapply Timed_removeSocket.
  - injection Hstep as <-. by apply (Timed_sublist now st).
  - destruct (validationTimer st); [|by injection Hstep as <-].
    destruct (validationTimerCallback_spec now st)
      as (st1 & Hcb & Hi & _ & _ & _ & _ & _ & _ & _ & Hk & _).
    rewrite Hstep in Hcb. injection Hcb as <-.
    apply (Timed_sublist now st); [done| |done].
    intros n. unfold idleOf. rewrite Hi, lookup_omap.
    destruct (idleSockets st !! n) as [l|]; cbn; [|done].
    rewrite idleOf_validatedEntry. apply keptSuffix_sublist.
Qed.

Lemma Timed_reachableAt options t st : reachableAt options t st → Timed t st.
Proof.
  induction 1 as [t|t st now ev st' _ IH Ht _ Hstep].
  - intros n. unfold idleOf. cbn. rewrite lookup_empty. cbn. split; [done|].
    by intros e ?%elem_of_nil.
  - by eapply Timed_step.
Qed.

(** ** The expiry threshold *)

Lemma filter_all {A} (P : A → Prop) `{!∀ x, Decision (P x)} (l : list A) :
  Forall P l → filter P l = l.
Proof.
  induction 1 as [|x l Hx Hl IH]; [done|].
  by rewrite filter_cons, decide_True, IH.
Qed.

Lemma filter_none {A} (P : A → Prop) `{!∀ x, Decision (P x)} (l : list A) :
  Forall (λ x, ¬ P x) l → filter P l = [].
Proof.
  induction 1 as [|x l Hx Hl IH]; [done|].
  by rewrite filter_cons, decide_False, IH.
Qed.

(** On a list in expiry order the prefix scan of [validateIdle] finds
    all the expired entries. *)
Lemma expiredPrefix_sorted now l :
  sortedByExpiry l →
  expiredPrefix now l = filter (expired now) l ∧
  keptSuffix now l = filter (λ e, ¬ expired now e) l.
Proof.
  intros Hs.
  pose proof (expiredPrefix_all now l) as Hp.
  pose proof (keptSuffix_sorted now l Hs) as Hk.
  rewrite <- (expired_split now l) at 2 4. rewrite !filter_app.
  assert (Forall (λ e, ¬ ¬ expired now e) (expiredPrefix now l)) as Hp'.
  { eapply Forall_impl; [exact Hp|]. intros e He Hne. by apply Hne. }
  split.
  - rewrite (filter_all _ _ Hp), (filter_none _ _ Hk). by rewrite app_nil_r.
  - by rewrite (filter_all _ _ Hk), (filter_none _ _ Hp').
Qed.

(** C6: [putIdleSocket] records the expiry [now + keepAlive]; when the
    clock does not run backwards, [validateIdle] removes and destroys
    exactly the entries whose expiry has passed, and an entry whose
    expiry has not passed stays in the list with its socket as it was. *)
Theorem expiry_threshold options t st name now l s :
  reachableAt options t st →
  idleSockets st !! name = Some l →
  idleOf name (putIdleSocket s name now st) = l ++ [mkIdle s (now + keepAlive st)%Z] ∧
  ∃ b st',
    validateIdle name now st = Some (b, st') ∧
    idleOf name st' = filter (λ e, ¬ expired now e) l ∧
    (∀ e, e ∈ l → expired now e →
       (e ∉ idleOf name st') ∧ isDestroyed (socket e) st' = true) ∧
    (∀ e, e ∈ l → ¬ expired now e →
       e ∈ idleOf name st' ∧ isDestroyed (socket e) st' = isDestroyed (socket e) st).
Proof.
  intros Hr Hl.
  assert (idleOf name st = l) as Hidle by (unfold idleOf; by rewrite Hl).
  split.
  { by rewrite idleOf_putIdleSocket, decide_True, Hidle. }
  pose proof (Timed_reachableAt options t st Hr name) as [Hs _].
  pose proof (Inv_reachable options st (reachableAt_reachable options t st Hr)) as HI.
  rewrite Hidle in Hs.
  destruct (expiredPrefix_sorted now l Hs) as [Hp Hk].
  destruct (validateIdle_spec name now st l Hl) as (st' & Hv & Hi & Hh & _).
  assert (idleOf name st' = filter (λ e, ¬ expired now e) l) as Hidle'.
  { unfold idleOf. rewrite Hi, lookup_partial_alter, decide_True by done.
    by rewrite idleOf_validatedEntry. }
  assert (∀ x, isDestroyed x st' =
               (isDestroyed x st || (bool_decide (is_Some (heap st !! x)) &&
                  bool_decide (x ∈ socket <$> filter (expired now) l)))) as Hd.
  { intros x. unfold isDestroyed. rewrite Hh, heap_destroyAll, Hp.
    destruct (heap st !! x) as [o|] eqn:Ho; [|done].
    rewrite (bool_decide_eq_true_2 (is_Some (Some o))) by by eexists. done. }
  eexists _, st'. split; [exact Hv|]. split; [done|]. split.
  - intros e He Hexp. split.
    + rewrite Hidle', list_elem_of_filter. tauto.
    + rewrite Hd.
      assert (is_Some (heap st !! socket e)) as Hsome.
      { destruct (inv_listens st HI name (socket e)) as (o & _ & -> & _); [|by eexists].
        apply poolOf_elem. right. rewrite Hidle. by apply list_elem_of_fmap_2. }
      rewrite (bool_decide_eq_true_2 _ Hsome), bool_decide_eq_true_2.
      * by rewrite orb_true_r.
      * apply list_elem_of_fmap_2, list_elem_of_filter. done.
  - intros e He Hne. split.
    + rewrite Hidle', list_elem_of_filter. done.
    + rewrite Hd, (bool_decide_eq_false_2 (socket e ∈ _)).
      * by rewrite andb_false_r, orb_false_r.
      * intros (e' & Hsock & [Hexp' He']%list_elem_of_filter)%list_elem_of_fmap.
        pose proof (inv_nodup st HI name) as Hnd. unfold poolOf in Hnd.
        apply NoDup_app in Hnd as (_ & _ & Hnd). rewrite Hidle in Hnd.
        assert (e = e') as ->; [|done].
        apply list_elem_of_lookup in He as [i Hi'], He' as [j Hj].
        assert (i = j) as ->.
        { apply (NoDup_lookup _ _ _ (socket e) Hnd);
            rewrite list_lookup_fmap; [by rewrite Hi'|by rewrite Hj, Hsock]. }
        congruence.
Qed.

Lemma expiry_threshold_witness :
  idleOf "h:80" (putIdleSocket 2 "h:80" 10003 twoIdle) =
    [mkIdle 0 10000; mkIdle 1 10005] ++ [mkIdle 2 (10003 + keepAlive twoIdle)%Z] ∧
  ∃ b st',
    validateIdle "h:80" 10003 twoIdle = Some (b, st') ∧
    idleOf "h:80" st' = [mkIdle 1 10005] ∧
    (∀ e, e ∈ [mkIdle 0 10000; mkIdle 1 10005] → expired 10003 e →
       (e ∉ idleOf "h:80" st') ∧ isDestroyed (socket e) st' = true) ∧
    (∀ e, e ∈ [mkIdle 0 10000; mkIdle 1 10005] → ¬ expired 10003 e →
       e ∈ idleOf "h:80" st' ∧
       isDestroyed (socket e) st' = isDestroyed (socket e) twoIdle).
Proof.
  apply (expiry_threshold (mkAgentOptions (Some (integer 2)) None) 5 twoIdle "h:80" 10003
           [mkIdle 0 10000; mkIdle 1 10005] 2).
  - apply (reachableAt_run _ [ (0%Z, AddRequest (request 1) "h" "80" None);
                               (0%Z, AddRequest (request 2) "h" "80" None);
                               (0%Z, SocketFree 0);
                               (5%Z, SocketFree 1) ] 0 twoSocketAgent).
    + apply reachableAt_init.
    + vm_compute. reflexivity.
    + vm_compute. reflexivity.
  - vm_compute. reflexivity.
Defined.

(** ** The limit on active sockets *)

(** A shorter array is below the limit when a longer one is. *)
Lemma lengthBelow_mono n m x : n ≤ m → lengthBelow m x = true → lengthBelow n x = true.
Proof.
  intros Hle. destruct x as [| | |q]; try done. cbn [lengthBelow].
  rewrite !negb_true_iff. intros H. apply not_true_is_false. intros H'.
  apply not_true_iff_false in H. apply H.
  apply Qle_bool_iff. apply Qle_bool_iff in H'.
  eapply Qle_trans; [exact H'|]. rewrite <- Zle_Qle. lia.
Qed.

(** For a whole number the comparison is the comparison of integers. *)
Lemma lengthBelow_integer n k : lengthBelow n (integer k) = bool_decide (Z.of_nat n < k)%Z.
Proof.
  unfold lengthBelow, integer.
  destruct (Qle_bool (inject_Z k) (inject_Z (Z.of_nat n))) eqn:E; cbn [negb]; symmetry.
  - apply bool_decide_eq_false_2. apply Qle_bool_iff in E. rewrite <- Zle_Qle in E. lia.
  - apply bool_decide_eq_true_2. apply not_true_iff_false in E.
    rewrite Qle_bool_iff, <- Zle_Qle in E. lia.
Qed.

(** [addRequest] keeps the active sockets of every endpoint within
    [maxSockets]. *)
Lemma addRequest_respects_maxSockets req host port localAddress now st st' :
  withinLimit st →
  addRequest req host port localAddress now st = Some st' →
  maxSockets st' = maxSockets st ∧ withinLimit st'.
Proof.
  intros Hcap Hadd. unfold addRequest in Hadd.
  set (name := endpointName host port localAddress) in *.
  set (st1 := match sockets st !! name with
              | Some _ => st
              | None => set_sockets <[name:=[]]> st
              end) in *.
  assert (maxSockets st1 = maxSockets st) as Hm1.
  { subst st1. by destruct (sockets st !! name). }
  assert (∀ n, activeOf n st1 = activeOf n st) as Ha1.
  { intros n. subst st1. unfold activeOf.
    destruct (sockets st !! name) eqn:E; [done|]. cbn.
    rewrite lookup_insert. destruct (decide (name = n)) as [<-|]; [by rewrite E|done]. }
  fold (activeOf name st1) in Hadd.
  destruct (lengthBelow _ _) eqn:Hlt.
  - destruct (findOrCreateSocket_views name host port localAddress (Some req) now st1)
      as [[Hthrows _]|(s & st2 & Hf & _ & Hact & _ & _ & _ & Hm & _)]; [throws Hthrows|].
    rewrite Hf in Hadd. cbn in Hadd. injection Hadd as <-.
    change (maxSockets (onSocket req s st2)) with (maxSockets st2).
    split; [congruence|]. intros n k.
    change (activeOf n (onSocket req s st2)) with (activeOf n st2).
    change (maxSockets (onSocket req s st2)) with (maxSockets st2).
    rewrite Hact, Hm, Hm1. case_decide.
    + subst n. rewrite length_app. cbn. intros Hk. rewrite Hm1 in Hlt.
      apply (lengthBelow_mono k (length (activeOf name st1))); [lia|done].
    + rewrite Ha1. apply Hcap.
  - injection Hadd as <-.
    destruct (requests st1 !! name); cbn [maxSockets set_requests];
      (split; [done|]); intros n k; unfold activeOf; cbn [sockets maxSockets set_requests];
      fold (activeOf n st1); rewrite Ha1, Hm1; apply Hcap.
Qed.

Lemma maxSockets_removeFromSockets s name st :
  maxSockets (removeFromSockets s name st) = maxSockets st.
Proof. unchanged removeFromSockets. Qed.

Lemma maxSockets_removeFromIdleSockets s name st :
  maxSockets (removeFromIdleSockets s name st) = maxSockets st.
Proof. unchanged removeFromIdleSockets. Qed.

Lemma withinLimit_shrink st st' :
  withinLimit st →
  maxSockets st' = maxSockets st →
  (∀ n, length (activeOf n st') ≤ length (activeOf n st)) →
  withinLimit st'.
Proof.
  intros H Hm Hle n k Hk. rewrite Hm. apply (H n). specialize (Hle n). lia.
Qed.

Lemma withinLimit_emitFree s now st : withinLimit st → withinLimit (emitFree s now st).
Proof.
  intros H. unfold emitFree. destruct (heap st !! s) as [o|]; [|done].
  destruct (onFree o) as [cl|]; [|done].
  destruct (freeHandler_cases s (cl_host cl) (cl_port cl) (cl_localAddress cl) now st)
    as [(_ & req & rest & _ & _ & _ & _ & Hso & _ & _ & _ & _ & _ & Hm & _)|[_ ->]].
  - apply (withinLimit_shrink st); [done|done|]. intros n. unfold activeOf. by rewrite Hso.
  - set (name := endpointName (cl_host cl) (cl_port cl) (cl_localAddress cl)).
    destruct (putIdleSocket_fields s name now (removeFromSockets s name st))
      as (_ & Hso & _ & _ & _ & _ & _ & Hm & _).
    apply (withinLimit_shrink st); [done| |].
    + by rewrite Hm, maxSockets_removeFromSockets.
    + intros n. unfold activeOf at 1. rewrite Hso.
      fold (activeOf n (removeFromSockets s name st)).
      rewrite activeOf_removeFromSockets. case_decide; [|done].
      apply removeFirst_length.
Qed.

Lemma withinLimit_removeSocket s name host port localAddress now st st' :
  withinLimit st →
  s ∈ activeOf name st →
  removeSocket s name host port localAddress now st = Some st' →
  withinLimit st'.
Proof.
  intros H Hs Hrm. unfold removeSocket in Hrm.
  set (st0 := removeFromIdleSockets s name (removeFromSockets s name st)) in *.
  assert (maxSockets st0 = maxSockets st) as Hm0.
  { subst st0. by rewrite maxSockets_removeFromIdleSockets, maxSockets_removeFromSockets. }
  assert (∀ n, activeOf n st0 =
               if decide (n = name) then removeFirst s (activeOf n st) else activeOf n st)
    as Ha0.
  { intros n. subst st0.
    by rewrite activeOf_removeFromIdleSockets, activeOf_removeFromSockets. }
  destruct (requests st0 !! name) as [[|req rest]|].
  1,3: injection Hrm as <-; apply (withinLimit_shrink st); [done|done|];
       intros n; rewrite Ha0; case_decide; [apply removeFirst_length|done].
  destruct (findOrCreateSocket_views name host port localAddress (Some req) now st0)
    as [[Hthrows _]|(s' & st1 & Hf & _ & Hact & _ & _ & _ & Hm1 & _)]; [throws Hthrows|].
  rewrite Hf in Hrm. cbn in Hrm. injection Hrm as <-.
  apply withinLimit_emitFree.
  apply (withinLimit_shrink st); [done|congruence|].
  intros n. rewrite Hact, Ha0. case_decide; [|done]. subst n.
  rewrite length_app. cbn.
  pose proof (removeFirst_elem_length s (activeOf name st) Hs). lia.
Qed.

(** As long as no socket closes after it has left the active list, the
    limit holds. *)
Lemma withinLimit_step now ev st st' :
  withinLimit st → closesActive ev st → step now ev st = Some st' → withinLimit st'.
Proof.
  intros H Hcl Hstep. destruct ev as [req host port la|s|s|s|s|]; cbn in Hstep, Hcl.
  - by destruct (addRequest_respects_maxSockets _ _ _ _ _ _ _ H Hstep).
  - injection Hstep as <-. by apply withinLimit_emitFree.
  - unfold emitClose in Hstep.
    destruct (heap st !! s) as [o|] eqn:Ho; [|by injection Hstep as <-].
    destruct (onClose o) as [cl|] eqn:Hc; [|by injection Hstep as <-].
    eapply withinLimit_removeSocket; [done| |done]. apply (Hcl o); [done|by left].
  - unfold emitAgentRemove in Hstep.
    destruct (heap st !! s) as [o|] eqn:Ho; [|by injection Hstep as <-].
    destruct (onRemove o) as [cl|] eqn:Hc; [|by injection Hstep as <-].
    destruct (removeSocket s (cl_name cl) (cl_host cl) (cl_port cl) (cl_localAddress cl) now st)
      as [st1|] eqn:Hrm; [|done].
    cbn in Hstep. injection Hstep as <-.
    apply (withinLimit_shrink st1); [|done|done].
    eapply withinLimit_removeSocket; [done| |done]. apply (Hcl o); [done|by right].
  - injection Hstep as <-. by apply (withinLimit_shrink st).
  - destruct (validationTimer st); [|by injection Hstep as <-].
    destruct (validationTimerCallback_spec now st)
      as (st1 & Hcb & _ & _ & _ & _ & Hso & _ & _ & _ & _ & Hm).
    rewrite Hstep in Hcb. injection Hcb as <-.
    apply (withinLimit_shrink st); [done|done|]. intros n. unfold activeOf. by rewrite Hso.
Qed.

(** C1: the limit does not hold in every reachable state.  When the
    'close' event of a socket that [validateIdle] has destroyed arrives
    while a request waits, [removeSocket] creates a socket although
    [sockets[name]] is full: with [maxSockets = 1] the endpoint ends up
    with two active sockets. *)
Theorem late_close_exceeds_maxSockets :
  ∃ st,
    run lateClose oneSocketAgent = Some st ∧
    monotone 0 lateClose = true ∧
    reachable (mkAgentOptions (Some (integer 1)) None) st ∧
    maxSockets st = integer 1 ∧
    activeOf "h:80" st = [1; 2] ∧
    assigned st = [(request 1, 0); (request 2, 1); (request 3, 2)].
Proof.
  exists (stateAfter lateClose oneSocketAgent).
  assert (run lateClose oneSocketAgent = Some (stateAfter lateClose oneSocketAgent)) as Hrun
    by (vm_compute; reflexivity).
  split_and!; [done|by vm_compute| |by vm_compute..].
  eapply reachable_run; [apply reachable_init|exact Hrun].
Qed.

(** ** The order of service *)

Lemma queueStep_from adm st0 st st' :
  assigned st0 = assigned st →
  requests st0 = requests st →
  queueStep adm st0 st' →
  queueStep adm st st'.
Proof.
  intros Ha Hr Hq.
  assert (∀ n, waitingOf n st0 = waitingOf n st) as Hw.
  { intros n. unfold waitingOf. by rewrite Hr. }
  destruct Hq as [H1 H2|name req H0 H1 H2|name req rest s H0 H1 H2|req s H0 H1 H2].
  - apply queue_same; [congruence|]. intros n. by rewrite H2.
  - apply (queue_enqueue _ _ _ name req); [done|congruence|].
    intros n. by rewrite H2, Hw.
  - apply (queue_serve _ _ _ name req rest s); [by rewrite <- Hw|congruence|].
    intros n. by rewrite H2, Hw.
  - apply (queue_direct _ _ _ req s); [done|congruence|]. intros n. by rewrite H2.
Qed.

Lemma queueStep_to adm st st1 st' :
  assigned st' = assigned st1 →
  requests st' = requests st1 →
  queueStep adm st st1 →
  queueStep adm st st'.
Proof.
  intros Ha Hr Hq.
  assert (∀ n, waitingOf n st' = waitingOf n st1) as Hw.
  { intros n. unfold waitingOf. by rewrite Hr. }
  destruct Hq as [H1 H2|name req H0 H1 H2|name req rest s H0 H1 H2|req s H0 H1 H2].
  - apply queue_same; [congruence|]. intros n. by rewrite Hw.
  - apply (queue_enqueue _ _ _ name req); [done|congruence|]. intros n. by rewrite Hw.
  - apply (queue_serve _ _ _ name req rest s); [done|congruence|]. intros n. by rewrite Hw.
  - apply (queue_direct _ _ _ req s); [done|congruence|]. intros n. by rewrite Hw.
Qed.

Lemma queueStep_freeHandler adm s host port localAddress now st :
  queueStep adm st (freeHandler s host port localAddress now st).
Proof.
  destruct (freeHandler_cases s host port localAddress now st)
    as [(_ & req & rest & Hr & Ha & Hw & _)|[_ ->]].
  - apply (queue_serve _ _ _ (endpointName host port localAddress) req rest s);
      [|done|done]. unfold waitingOf. by rewrite Hr.
  - destruct (putIdleSocket_fields s (endpointName host port localAddress) now
               (removeFromSockets s (endpointName host port localAddress) st))
      as (Hr & _ & _ & _ & Ha & _).
    apply queue_same.
    + by rewrite Ha, assigned_removeFromSockets.
    + intros n. unfold waitingOf. by rewrite Hr, requests_removeFromSockets.
Qed.

Lemma queueStep_emitFree adm s now st : queueStep adm st (emitFree s now st).
Proof.
  unfold emitFree. destruct (heap st !! s) as [o|]; [|by apply queue_same].
  destruct (onFree o); [|by apply queue_same]. apply queueStep_freeHandler.
Qed.

Lemma queueStep_removeSocket adm s name host port localAddress now st st' :
  removeSocket s name host port localAddress now st = Some st' →
  queueStep adm st st'.
Proof.
  intros Hrm. unfold removeSocket in Hrm.
  set (st1 := removeFromIdleSockets s name (removeFromSockets s name st)) in *.
  assert (assigned st1 = assigned st) as Ha1.
  { subst st1. by rewrite assigned_removeFromIdleSockets, assigned_removeFromSockets. }
  assert (requests st1 = requests st) as Hr1.
  { subst st1. by rewrite requests_removeFromIdleSockets, requests_removeFromSockets. }
  destruct (requests st1 !! name) as [[|req rest]|].
  1,3: injection Hrm as <-; apply queue_same; [done|];
       intros n; unfold waitingOf; by rewrite Hr1.
  destruct (findOrCreateSocket_views name host port localAddress (Some req) now st1)
    as [[Hthrows _]|(s' & st2 & Hf & _ & _ & Hr2 & Ha2 & _)]; [throws Hthrows|].
  rewrite Hf in Hrm. cbn in Hrm. injection Hrm as <-.
  apply (queueStep_from adm st2); [congruence|congruence|].
  apply queueStep_emitFree.
Qed.

Lemma queueStep_step now ev st st' :
  step now ev st = Some st' → queueStep (admittedBy ev) st st'.
Proof.
  intros Hstep. destruct ev as [req host port la|s|s|s|s|]; cbn in Hstep.
  - unfold addRequest in Hstep.
    set (name := endpointName host port la) in *.
    set (st1 := match sockets st !! name with
                | Some _ => st
                | None => set_sockets <[name:=[]]> st
                end) in *.
    assert (assigned st1 = assigned st ∧ requests st1 = requests st) as [Ha1 Hr1].
    { subst st1. by destruct (sockets st !! name). }
    destruct (lengthBelow _ _) eqn:Hlt.
    + destruct (findOrCreateSocket_views name host port la (Some req) now st1)
        as [[Hthrows _]|(s & st2 & Hf & _ & _ & Hr2 & Ha2 & _)]; [throws Hthrows|].
      rewrite Hf in Hstep. cbn in Hstep. injection Hstep as <-.
      apply (queue_direct _ _ _ req s); [done| |].
      * cbn. congruence.
      * intros n. unfold waitingOf. cbn. congruence.
    + injection Hstep as <-.
      apply (queue_enqueue _ _ _ name req); [done| |].
      * by destruct (requests st1 !! name).
      * intros n. unfold waitingOf. rewrite <- Hr1.
        destruct (requests st1 !! name) as [q|] eqn:Eq; cbn;
          rewrite ?lookup_insert_eq, lookup_insert; cbn;
          destruct (decide (name = n)) as [<-|Hne].
        -- rewrite decide_True by done. by rewrite Eq.
        -- by rewrite decide_False by done.
        -- rewrite decide_True by done. by rewrite Eq.
        -- rewrite decide_False by done. by rewrite lookup_insert_ne.
  - injection Hstep as <-. apply queueStep_emitFree.
  - unfold emitClose in Hstep.
    destruct (heap st !! s) as [o|]; [|injection Hstep as <-; by apply queue_same].
    destruct (onClose o); [|injection Hstep as <-; by apply queue_same].
    by eapply queueStep_removeSocket.
  - unfold emitAgentRemove in Hstep.
    destruct (heap st !! s) as [o|]; [|injection Hstep as <-; by apply queue_same].
    destruct (onRemove o) as [cl|]; [|injection Hstep as <-; by apply queue_same].
    destruct (removeSocket s (cl_name cl) (cl_host cl) (cl_port cl) (cl_localAddress cl) now st)
      as [st1|] eqn:Hrm; [|done].
    cbn in Hstep. injection Hstep as <-.
    apply (queueStep_to _ _ st1); [done|done|]. by eapply queueStep_removeSocket.
  - injection Hstep as <-. by apply queue_same.
  - destruct (validationTimer st); [|injection Hstep as <-; by apply queue_same].
    destruct (validationTimerCallback_spec now st)
      as (st1 & Hcb & _ & _ & _ & Hr & _ & _ & Ha & _).
    rewrite Hstep in Hcb. injection Hcb as <-.
    apply queue_same; [done|]. intros n. unfold waitingOf. by rewrite Hr.
Qed.

Lemma queueStep_extends adm st st' :
  queueStep adm st st' → ∃ ext, assigned st' = assigned st ++ ext.
Proof.
  intros [H1 _|name req _ H1 _|name req rest s _ H1 _|req s _ H1 _].
  - exists []. by rewrite app_nil_r.
  - exists []. by rewrite app_nil_r.
  - by eexists.
  - by eexists.
Qed.

Lemma run_extends evs st st' :
  run evs st = Some st' → ∃ ext, assigned st' = assigned st ++ ext.
Proof.
  revert st. induction evs as [|[now ev] evs IH]; intros st Hrun; cbn in Hrun.
  - injection Hrun as <-. exists []. by rewrite app_nil_r.
  - destruct (enabled ev st); [|done].
    destruct (step now ev st) as [st1|] eqn:Hstep; [|done]. cbn in Hrun.
    destruct (queueStep_extends _ _ _ (queueStep_step _ _ _ _ Hstep)) as [e1 H1].
    destruct (IH st1 Hrun) as [e2 H2].
    exists (e1 ++ e2). by rewrite H2, H1, app_assoc.
Qed.

Lemma admitted_cons now ev evs r :
  r ∉ admitted ((now, ev) :: evs) → admittedBy ev ≠ Some r ∧ r ∉ admitted evs.
Proof.
  destruct ev; cbn; try (intros H; split; [done|exact H]).
  rewrite not_elem_of_cons. intros [H1 H2]. split; [congruence|done].
Qed.

(** Requests that wait for the same endpoint are given sockets in the
    order of the queue.  If [r1] is ahead of [r2] in [requests[name]],
    then along every run in which [r2] is not handed to [addRequest]
    again, [r2] is not given a socket before [r1] is: if [r2] occurs in
    the calls of [onSocket] made during the run, [r1] occurs before it. *)
Lemma served_in_queue_order name r1 r2 evs :
  ∀ st st' q1 q2 q3,
    waitingOf name st = q1 ++ r1 :: q2 ++ r2 :: q3 →
    r2 ∉ q1 ++ r1 :: q2 →
    (∀ n, n ≠ name → r2 ∉ waitingOf n st) →
    r2 ∉ admitted evs →
    run evs st = Some st' →
    ∃ served,
      assigned st' = assigned st ++ served ∧
      (r2 ∈ served.*1 → ∃ l1 l2, served.*1 = l1 ++ r1 :: l2 ∧ r2 ∉ l1).
Proof.
  induction evs as [|[now ev] evs IH]; intros st st' q1 q2 q3 Hq Hr2 Hother Hadm Hrun;
    cbn in Hrun.
  { injection Hrun as <-. exists []. rewrite app_nil_r. split; [done|].
    by intros ?%elem_of_nil. }
  destruct (enabled ev st); [|done].
  destruct (step now ev st) as [st1|] eqn:Hstep; [|done]. cbn in Hrun.
  apply admitted_cons in Hadm as [Hev Hadm].
  (* a request other than [r2] is served while the queue keeps its shape *)
  assert (∀ req s q1' q3',
            req ≠ r2 →
            assigned st1 = assigned st ++ [(req, s)] →
            waitingOf name st1 = q1' ++ r1 :: q2 ++ r2 :: q3' →
            r2 ∉ q1' ++ r1 :: q2 →
            (∀ n, n ≠ name → r2 ∉ waitingOf n st1) →
            ∃ served,
              assigned st' = assigned st ++ served ∧
              (r2 ∈ served.*1 → ∃ l1 l2, served.*1 = l1 ++ r1 :: l2 ∧ r2 ∉ l1)) as Hserved.
  { intros req s q1' q3' Hne Ha Hq' Hr2' Hother'.
    destruct (IH st1 st' q1' q2 q3' Hq' Hr2' Hother' Hadm Hrun) as (served & Hs & Hord).
    exists ((req, s) :: served). split.
    - rewrite Hs, Ha, <- app_assoc. done.
    - rewrite fmap_cons. cbn [fst].
      intros [->|Hin]%elem_of_cons; [done|].
      destruct (Hord Hin) as (l1 & l2 & -> & Hl1).
      exists (req :: l1), l2. split; [done|].
      apply not_elem_of_cons. split; [congruence|done]. }
  destruct (queueStep_step _ _ _ _ Hstep)
    as [Ha Hw|name' req Hreq Ha Hw|name' req rest s Hhead Ha Hw|req s Hreq Ha Hw].
  - (* nothing happens to the queues *)
    destruct (IH st1 st' q1 q2 q3) as (served & Hs & Hord); try done.
    + by rewrite Hw.
    + intros n Hn. rewrite Hw. by apply Hother.
    + exists served. split; [congruence|done].
  - (* the admitted request joins a queue *)
    assert (req ≠ r2) as Hne by congruence.
    destruct (IH st1 st' q1 q2 (if decide (name = name') then q3 ++ [req] else q3))
      as (served & Hs & Hord); try done.
    + rewrite Hw, Hq. case_decide; [|done].
      by rewrite <- !app_assoc, <- !app_comm_cons, <- !app_assoc, <- !app_comm_cons.
    + intros n Hn. rewrite Hw. case_decide; [|by apply Hother].
      rewrite not_elem_of_app, list_elem_of_singleton. split; [by apply Hother|congruence].
    + exists served. split; [congruence|done].
  - (* the head of a queue is served *)
    destruct (decide (name' = name)) as [->|Hn'].
    + rewrite Hq in Hhead. destruct q1 as [|x q1']; cbn in Hhead.
      * (* it is [r1] *)
        injection Hhead as <- <-.
        destruct (run_extends evs st1 st' Hrun) as [served Hs].
        exists ((r1, s) :: served). split.
        -- rewrite Hs, Ha, <- app_assoc. done.
        -- intros _. exists [], served.*1. split; [done|]. apply not_elem_of_nil.
      * injection Hhead as <- <-.
        apply not_elem_of_cons in Hr2 as [Hx Hr2].
        apply (Hserved x s q1' q3); try done.
        -- by rewrite Hw, decide_True.
        -- intros n Hn. rewrite Hw, decide_False by done. by apply Hother.
    + assert (req ≠ r2) as Hne.
      { intros ->. apply (Hother name' Hn'). rewrite Hhead. left. }
      apply (Hserved req s q1 q3); try done.
      * by rewrite Hw, decide_False.
      * intros n Hn. rewrite Hw. case_decide; [|by apply Hother].
        subst n. intros Hin. apply (Hother name' Hn'). rewrite Hhead. by right.
  - (* the admitted request is served at once *)
    assert (req ≠ r2) as Hne by congruence.
    apply (Hserved req s q1 q3); try done.
    + by rewrite Hw.
    + intros n Hn. rewrite Hw. by apply Hother.
Qed.

(** At the limit [addRequest] appends the request to the queue of the
    endpoint and does nothing else. *)
Lemma addRequest_at_the_limit req host port localAddress now st :
  let name := endpointName host port localAddress in
  lengthBelow (length (activeOf name st)) (maxSockets st) = false →
  ∃ st',
    addRequest req host port localAddress now st = Some st' ∧
    (∀ n, waitingOf n st' =
          if decide (n = name) then waitingOf n st ++ [req] else waitingOf n st) ∧
    assigned st' = assigned st ∧
    created st' = created st ∧
    (∀ n, activeOf n st' = activeOf n st) ∧
    idleSockets st' = idleSockets st ∧
    heap st' = heap st ∧
    maxSockets st' = maxSockets st.
Proof.
  intros name Hsat. unfold addRequest. fold name.
  set (st1 := match sockets st !! name with
              | Some _ => st
              | None => set_sockets <[name:=[]]> st
              end).
  assert (maxSockets st1 = maxSockets st ∧ requests st1 = requests st ∧
          assigned st1 = assigned st ∧ created st1 = created st ∧
          idleSockets st1 = idleSockets st ∧ heap st1 = heap st)
    as (Hm1 & Hr1 & Has1 & Hc1 & Hi1 & Hh1).
  { subst st1. by destruct (sockets st !! name). }
  assert (∀ n, activeOf n st1 = activeOf n st) as Ha1.
  { intros n. subst st1. unfold activeOf.
    destruct (sockets st !! name) eqn:E; [done|]. cbn.
    rewrite lookup_insert. destruct (decide (name = n)) as [<-|]; [by rewrite E|done]. }
  fold (activeOf name st1). rewrite Ha1, Hm1, Hsat.
  set (st2 := match requests st1 !! name with
              | Some _ => st1
              | None => set_requests <[name:=[]]> st1
              end).
  assert (sockets st2 = sockets st1 ∧ assigned st2 = assigned st1 ∧
          created st2 = created st1 ∧ idleSockets st2 = idleSockets st1 ∧
          heap st2 = heap st1 ∧ maxSockets st2 = maxSockets st1)
    as (Hs2 & Has2 & Hc2 & Hi2 & Hh2 & Hm2).
  { subst st2. by destruct (requests st1 !! name). }
  assert (∀ n, default [] (requests st2 !! n) = default [] (requests st !! n)) as Hw2.
  { intros n. subst st2. rewrite <- Hr1.
    destruct (requests st1 !! name) eqn:E; [done|]. cbn.
    rewrite lookup_insert. destruct (decide (name = n)) as [<-|]; [by rewrite E|done]. }
  eexists. split; [reflexivity|].
  unfold waitingOf, activeOf.
  cbn [requests sockets assigned created idleSockets heap maxSockets set_requests].
  rewrite Hs2, Has2, Hc2, Hi2, Hh2, Hm2.
  split_and!; try done.
  intros n. rewrite lookup_insert. destruct (decide (name = n)) as [<-|Hne].
  - by rewrite decide_True, Hw2.
  - by rewrite decide_False, Hw2.
Qed.

(** The 'free' events of live sockets of an endpoint serve its queue from
    the head: the k-th event gives its socket to the k-th waiting
    request. *)
Lemma frees_serve_the_queue name frees : ∀ st,
  (∀ s, s ∈ frees.*2 → liveSocket name s st) →
  length frees ≤ length (waitingOf name st) →
  ∃ st',
    run (freeEvents frees) st = Some st' ∧
    assigned st' =
      assigned st ++ zip (take (length frees) (waitingOf name st)) frees.*2 ∧
    waitingOf name st' = drop (length frees) (waitingOf name st).
Proof.
  induction frees as [|[t s] frees IH]; intros st Hlive Hlen.
  { exists st. cbn. by rewrite app_nil_r, drop_0. }
  destruct (waitingOf name st) as [|r q] eqn:Hq; [cbn in Hlen; lia|].
  destruct (Hlive s ltac:(cbn; left)) as (Hact & Hd & Hn).
  unfold nameOfSocket in Hn.
  destruct (heap st !! s) as [o|] eqn:Ho; [|done]. cbn in Hn.
  destruct (onFree o) as [cl|] eqn:Hcl; [|done]. cbn in Hn. injection Hn as Hn.
  pose proof (freeHandler_cases s (cl_host cl) (cl_port cl) (cl_localAddress cl) t st) as Hc.
  cbn zeta in Hc. rewrite Hn in Hc.
  destruct Hc as [(_ & r' & q' & Hq' & Ha & Hw & _ & Hso & _ & Hh & _)|[[Hd'|Hnil] _]];
    [|congruence|congruence].
  assert (r' = r ∧ q' = q) as [-> ->].
  { unfold waitingOf in Hq. rewrite Hq' in Hq. cbn in Hq. by injection Hq as -> ->. }
  set (st1 := freeHandler s (cl_host cl) (cl_port cl) (cl_localAddress cl) t st) in *.
  assert (step t (SocketFree s) st = Some st1) as Hstep.
  { cbn. unfold emitFree. by rewrite Ho, Hcl. }
  assert (enabled (SocketFree s) st = true) as Hen.
  { cbn. unfold nameOfSocket. rewrite Ho. cbn. rewrite Hcl. cbn. rewrite Hn.
    by apply bool_decide_eq_true_2. }
  assert (waitingOf name st1 = q) as Hq1 by (by rewrite Hw, decide_True).
  destruct (IH st1) as (st' & Hrun & Ha' & Hw').
  { intros s' Hs'. destruct (Hlive s' ltac:(cbn; by right)) as (H1 & H2 & H3).
    unfold liveSocket, activeOf, isDestroyed, nameOfSocket in *.
    by rewrite Hso, Hh. }
  { rewrite Hq1. cbn in Hlen. lia. }
  exists st'. split_and!.
  - cbn [freeEvents fmap list_fmap run fst snd]. rewrite Hen, Hstep. exact Hrun.
  - rewrite Ha', Ha, Hq1. cbn. by rewrite <- app_assoc.
  - rewrite Hw', Hq1. done.
Qed.

(** C2: the queue of an endpoint is first in, first out.  When the
    endpoint is at its limit, [addRequest] appends: the requests [r1]
    and then [r2] end up last in the queue, in this order.  A socket of
    the endpoint that signals 'free' while it is not destroyed is given
    to the request at the head, which leaves the queue: the k-th such
    event serves the k-th waiting request.  And whatever happens next,
    as long as [r2] is not handed to [addRequest] again, [r2] is not
    given a socket before [r1] is. *)
Theorem waiting_requests_served_in_order host port localAddress r1 r2 t1 t2 st :
  let name := endpointName host port localAddress in
  lengthBelow (length (activeOf name st)) (maxSockets st) = false →
  ∃ st1 st2,
    addRequest r1 host port localAddress t1 st = Some st1 ∧
    addRequest r2 host port localAddress t2 st1 = Some st2 ∧
    waitingOf name st2 = waitingOf name st ++ [r1; r2] ∧
    assigned st2 = assigned st ∧
    (∀ frees,
       (∀ s, s ∈ frees.*2 → liveSocket name s st2) →
       length frees ≤ length (waitingOf name st2) →
       ∃ st3,
         run (freeEvents frees) st2 = Some st3 ∧
         assigned st3 =
           assigned st2 ++ zip (take (length frees) (waitingOf name st2)) frees.*2 ∧
         waitingOf name st3 = drop (length frees) (waitingOf name st2)) ∧
    (∀ evs st',
       r1 ≠ r2 →
       (∀ n, r2 ∉ waitingOf n st) →
       r2 ∉ admitted evs →
       run evs st2 = Some st' →
       ∃ served,
         assigned st' = assigned st2 ++ served ∧
         (r2 ∈ served.*1 → ∃ l1 l2, served.*1 = l1 ++ r1 :: l2 ∧ r2 ∉ l1)).
Proof.
  intros name Hsat.
  destruct (addRequest_at_the_limit r1 host port localAddress t1 st Hsat)
    as (st1 & Hadd1 & Hw1 & Ha1 & _ & Hact1 & _ & _ & Hm1).
  assert (lengthBelow (length (activeOf name st1)) (maxSockets st1) = false) as Hsat1
      by (by rewrite Hact1, Hm1).
  destruct (addRequest_at_the_limit r2 host port localAddress t2 st1 Hsat1)
    as (st2 & Hadd2 & Hw2 & Ha2 & _).
  fold name in Hw1, Hw2.
  assert (waitingOf name st2 = waitingOf name st ++ [r1; r2]) as Hq.
  { by rewrite Hw2, decide_True, Hw1, decide_True, <- app_assoc. }
  exists st1, st2. split_and!; [done|done|done|congruence| |].
  - intros frees. apply frees_serve_the_queue.
  - intros evs st' Hne Hfresh Hadm Hrun.
    apply (served_in_queue_order name r1 r2 evs st2 st' (waitingOf name st) [] []);
      [done| | |done|done].
    + intros [Hin|Hin%list_elem_of_singleton]%elem_of_app; [by apply (Hfresh name)|done].
    + intros n Hn. rewrite Hw2, decide_False, Hw1, decide_False by done. apply Hfresh.
Qed.

(** Socket 0 serves request 1; requests 2 and 3 arrive and wait, in this
    order; when socket 0 signals 'free', request 2 gets it and request 3
    is left waiting. *)
Lemma waiting_requests_served_in_order_witness :
  ∃ st1 st2 st3,
    addRequest (request 2) "h" "80" None 0 oneActive = Some st1 ∧
    addRequest (request 3) "h" "80" None 0 st1 = Some st2 ∧
    waitingOf "h:80" st2 = [request 2; request 3] ∧
    run (freeEvents [(1%Z, 0)]) st2 = Some st3 ∧
    assigned st3 = assigned st2 ++ [(request 2, 0)] ∧
    waitingOf "h:80" st3 = [request 3].
Proof.
  destruct (waiting_requests_served_in_order "h" "80" None (request 2) (request 3) 0 0 oneActive)
    as (st1 & st2 & H1 & H2 & Hw & Ha & Hfree & _).
  { vm_compute. reflexivity. }
  assert (waitingOf "h:80" oneActive = []) as Hw0 by (vm_compute; reflexivity).
  change (endpointName "h" "80" None) with "h:80" in *.
  rewrite Hw0 in Hw. cbn [app] in Hw.
  destruct (Hfree [(1%Z, 0)]) as (st3 & Hrun & Ha3 & Hw3).
  - intros s Hs. apply list_elem_of_singleton in Hs as ->.
    assert (st2 = oneActiveTwoWaiting) as ->.
    { apply (inj Some). rewrite <- H2.
      assert (st1 = oneActiveOneWaiting) as ->; [|vm_compute; reflexivity].
      apply (inj Some). rewrite <- H1. vm_compute. reflexivity. }
    split_and!; vm_compute; [left|reflexivity|reflexivity].
  - rewrite Hw. cbn. lia.
  - exists st1, st2, st3. rewrite Hw in Ha3, Hw3. by split_and!.
Defined.

(** ** Replenishment when a socket closes *)

Lemma created_removeFromSockets s name st :
  created (removeFromSockets s name st) = created st.
Proof. unchanged removeFromSockets. Qed.

Lemma created_removeFromIdleSockets s name st :
  created (removeFromIdleSockets s name st) = created st.
Proof. unchanged removeFromIdleSockets. Qed.

(** Socket 0 is destroyed but parked; when socket 1 closes, the parked
    socket is taken for the waiting request, found destroyed by the
    'free' handler and parked again: the request is given no socket and
    no socket is created. *)
Lemma close_with_dead_idle_socket_serves_nobody :
  ∃ st st',
    run deadIdle twoSocketAgent = Some st ∧
    activeOf "h:80" st = [1] ∧
    waitingOf "h:80" st = [request 3] ∧
    step 2 (SocketClose 1) st = Some st' ∧
    assigned st' = assigned st ∧
    waitingOf "h:80" st' = [request 3] ∧
    created st' = created st ∧
    activeOf "h:80" st' = [].
Proof.
  exists (stateAfter deadIdle twoSocketAgent),
         (stateAfter (deadIdle ++ [(2%Z, SocketClose 1)]) twoSocketAgent).
  vm_compute. split_and!; reflexivity.
Qed.

(** With [maxSockets = 1], one active socket, one waiting request and an
    idle socket that has not expired, the close of the active socket
    takes the idle socket for the request: no socket is created. *)
Lemma close_with_idle_socket_creates_nothing :
  ∃ st st',
    run idleBesideActive oneSocketAgent = Some st ∧
    maxSockets st = integer 1 ∧
    activeOf "h:80" st = [2] ∧
    socket <$> idleOf "h:80" st = [1] ∧
    waitingOf "h:80" st = [request 4] ∧
    step 10004 (SocketClose 2) st = Some st' ∧
    assigned st' = assigned st ++ [(request 4, 1)] ∧
    created st' = created st.
Proof.
  exists (stateAfter idleBesideActive oneSocketAgent),
         (stateAfter (idleBesideActive ++ [(10004%Z, SocketClose 2)]) oneSocketAgent).
  vm_compute. split_and!; reflexivity.
Qed.

(** A socket that [validateIdle] keeps is not one that it destroys. *)
Lemma kept_socket_not_destroyed now st name e rest :
  Inv st →
  keptSuffix now (idleOf name st) = e :: rest →
  isDestroyed (socket e) (destroyAll (expiredPrefix now (idleOf name st)) st)
    = isDestroyed (socket e) st.
Proof.
  intros HI Hk. unfold isDestroyed. rewrite heap_destroyAll.
  destruct (heap st !! socket e) as [o|]; [|done]. cbn.
  rewrite bool_decide_eq_false_2; [by rewrite orb_false_r|].
  pose proof (inv_nodup st HI name) as Hnd. unfold poolOf in Hnd.
  apply NoDup_app in Hnd as (_ & _ & Hnd).
  rewrite <- (expired_split now (idleOf name st)), Hk, fmap_app in Hnd.
  apply NoDup_app in Hnd as (_ & Hdis & _).
  intros Hin. apply (Hdis _ Hin). cbn. left.
Qed.

(** C3, as the code has it: when a socket with a 'close' listener
    closes and a request waits for its endpoint, [removeSocket] calls
    [findOrCreateSocket] for the first waiting request and emits 'free'
    on the socket returned.  If the endpoint has an idle socket that has
    not expired, the oldest one is taken and no socket is created: the
    request is given that socket if the socket is not destroyed; a
    destroyed one is parked again and the request keeps waiting.  If
    there is none, a socket is created and given to the request, unless
    the Host header of the request is a truthy value that is not a
    string: then [findOrCreateSocket] throws. *)
Theorem close_replenishes options st s o cl req rest now :
  reachable options st →
  heap st !! s = Some o →
  onClose o = Some cl →
  waitingOf (cl_name cl) st = req :: rest →
  let name := cl_name cl in
  let st0 := removeFromIdleSockets s name (removeFromSockets s name st) in
  (keptSuffix now (idleOf name st0) = [] ↔
   ∀ e, e ∈ idleOf name st0 → expired now e) ∧
  match keptSuffix now (idleOf name st0) with
  | e :: _ =>
      ∃ st1 st',
        ¬ expired now e ∧
        findOrCreateSocket name (cl_host cl) (cl_port cl) (cl_localAddress cl)
          (Some req) now st0 = Some (socket e, st1) ∧
        step now (SocketClose s) st = Some st' ∧
        st' = emitFree (socket e) now st1 ∧
        created st' = created st ∧
        (isDestroyed (socket e) st = false →
           assigned st' = assigned st ++ [(req, socket e)] ∧
           waitingOf name st' = rest ∧
           socket e ∈ activeOf name st') ∧
        (isDestroyed (socket e) st = true →
           assigned st' = assigned st ∧
           waitingOf name st' = req :: rest ∧
           socket e ∈ socket <$> idleOf name st')
  | [] =>
      match servernameFor (cl_host cl) (Some req) with
      | Some servername =>
          ∃ st1 st',
            findOrCreateSocket name (cl_host cl) (cl_port cl) (cl_localAddress cl)
              (Some req) now st0 = Some (nextSocket st, st1) ∧
            step now (SocketClose s) st = Some st' ∧
            st' = emitFree (nextSocket st) now st1 ∧
            created st' =
              created st ++
              [mkConnOptions (cl_port cl) (cl_host cl) (cl_localAddress cl) servername] ∧
            assigned st' = assigned st ++ [(req, nextSocket st)] ∧
            waitingOf name st' = rest ∧
            nextSocket st ∈ activeOf name st' ∧
            isDestroyed (nextSocket st) st' = false
      | None =>
          findOrCreateSocket name (cl_host cl) (cl_port cl) (cl_localAddress cl)
            (Some req) now st0 = None ∧
          step now (SocketClose s) st = None
      end
  end.
Proof.
  intros Hreach Ho Hcl Hw name st0.
  split.
  { split.
    - intros Hk e He. apply keptSuffix_nil in Hk. rewrite Forall_forall in Hk. by apply Hk.
    - intros Hall. destruct (keptSuffix now (idleOf name st0)) as [|e r] eqn:Hk; [done|].
      exfalso. apply (keptSuffix_head now _ e r Hk). apply Hall.
      apply (elem_of_sublist (keptSuffix now (idleOf name st0)));
        [rewrite Hk; left|apply keptSuffix_sublist]. }
  pose proof (Inv_reachable options st Hreach) as HI.
  destruct (inv_closures st HI s o Ho) as (Hcf & _ & Hwf).
  assert (name = endpointName (cl_host cl) (cl_port cl) (cl_localAddress cl)) as Hname.
  { apply Hwf. by rewrite <- Hcf. }
  assert (Inv st0) as HI0 by by apply Inv_removeFromIdleSockets, Inv_removeFromSockets.
  assert (requests st0 = requests st) as Hr0.
  { subst st0. by rewrite requests_removeFromIdleSockets, requests_removeFromSockets. }
  assert (assigned st0 = assigned st) as Ha0.
  { subst st0. by rewrite assigned_removeFromIdleSockets, assigned_removeFromSockets. }
  assert (nextSocket st0 = nextSocket st) as Hn0.
  { subst st0. by rewrite nextSocket_removeFromIdleSockets, nextSocket_removeFromSockets. }
  assert (created st0 = created st) as Hc0.
  { subst st0. by rewrite created_removeFromIdleSockets, created_removeFromSockets. }
  assert (heap st0 = heap st) as Hh0.
  { subst st0. by rewrite heap_removeFromIdleSockets, heap_removeFromSockets. }
  assert (requests st !! name = Some (req :: rest)) as Hq.
  { unfold waitingOf in Hw. fold name in Hw.
    destruct (requests st !! name) as [q|]; [|done]. cbn in Hw. by subst. }
  assert (step now (SocketClose s) st =
          (r ← findOrCreateSocket name (cl_host cl) (cl_port cl) (cl_localAddress cl)
                 (Some req) now st0;
           Some (emitFree r.1 now r.2))) as Hstep.
  { cbn. unfold emitClose. rewrite Ho, Hcl. unfold removeSocket.
    fold name. fold st0. rewrite Hr0, Hq.
    by destruct (findOrCreateSocket name (cl_host cl) (cl_port cl) (cl_localAddress cl)
                   (Some req) now st0) as [[? ?]|]. }
  destruct (findOrCreateSocket_views name (cl_host cl) (cl_port cl) (cl_localAddress cl)
              (Some req) now st0)
    as [(Hthrows & Hk & Hsn)|(s' & st1 & Hf & Hidle & Hact & Hr1 & Ha1 & _ & _ & _ & Hcase)].
  { rewrite Hk, Hsn. split; [done|]. by rewrite Hstep, Hthrows. }
  destruct (Inv_findOrCreateSocket _ _ _ _ _ _ _ _ _ HI0 Hname Hf) as (HI1 & Hs' & _).
  rewrite Hf in Hstep. cbn [mbind option_bind fst snd] in Hstep.
  destruct (emitFree_tracked s' name now st1 HI1 Hs') as (cl' & Hemit & Hn').
  assert (requests st1 !! name = Some (req :: rest)) as Hq1 by congruence.
  pose proof (freeHandler_cases s' (cl_host cl') (cl_port cl') (cl_localAddress cl') now st1)
    as Hcases.
  cbn zeta in Hcases. rewrite Hn' in Hcases.
  assert (∃ st', st' = emitFree s' now st1 ∧
                 st' = freeHandler s' (cl_host cl') (cl_port cl') (cl_localAddress cl') now st1)
    as (st' & Hst' & Hfh) by (by eexists).
  rewrite <- Hst' in Hstep. rewrite <- Hfh in Hcases. clear Hemit.
  assert (isDestroyed s' st1 = false →
          assigned st' = assigned st ++ [(req, s')] ∧
          waitingOf name st' = rest ∧
          s' ∈ activeOf name st' ∧
          created st' = created st1 ∧ heap st' = heap st1) as Halive.
  { intros Hd.
    destruct Hcases as [(_ & req' & rest' & Hq' & Ha & Hw' & _ & Hso & _ & Hh & _ & Hc & _)
                       |[[Hd'|Hnil] _]].
    - rewrite Hq1 in Hq'. injection Hq' as <- <-.
      split_and!; [congruence|by rewrite Hw', decide_True| |done|done].
      unfold activeOf. rewrite Hso. exact Hs'.
    - congruence.
    - unfold waitingOf in Hnil. by rewrite Hq1 in Hnil. }
  assert (isDestroyed s' st1 = true →
          assigned st' = assigned st ∧
          waitingOf name st' = req :: rest ∧
          s' ∈ socket <$> idleOf name st' ∧
          created st' = created st1) as Hdead.
  { intros Hd.
    destruct Hcases as [(Hd' & _)|[_ Hpark]]; [congruence|].
    rewrite Hpark.
    destruct (putIdleSocket_fields s' name now (removeFromSockets s' name st1))
      as (Hr & _ & _ & _ & Ha & Hc & _).
    split_and!.
    - rewrite Ha, assigned_removeFromSockets. congruence.
    - unfold waitingOf. rewrite Hr, requests_removeFromSockets, Hq1. done.
    - rewrite idleOf_putIdleSocket, decide_True by done.
      rewrite fmap_app, elem_of_app. right. cbn. left.
    - by rewrite Hc, created_removeFromSockets. }
  destruct Hcase as [(e & r & Hk & -> & Hh & _ & Hc)
                    |(Hk & -> & Hh & _ & servername & Hsn & Hc)]; rewrite Hk.
  - (* an idle socket is reused *)
    assert (isDestroyed (socket e) st1 = isDestroyed (socket e) st) as Hsame.
    { unfold isDestroyed at 1. rewrite Hh.
      fold (isDestroyed (socket e) (destroyAll (expiredPrefix now (idleOf name st0)) st0)).
      rewrite (kept_socket_not_destroyed now st0 name e r HI0 Hk).
      unfold isDestroyed. by rewrite Hh0. }
    exists st1, st'. split; [by apply (keptSuffix_head now _ e r Hk)|].
    split; [done|]. split; [done|]. split; [done|].
    rewrite <- Hsame. split_and!.
    + destruct (isDestroyed (socket e) st1) eqn:Hd.
      * destruct (Hdead eq_refl) as (_ & _ & _ & ->). congruence.
      * destruct (Halive eq_refl) as (_ & _ & _ & -> & _). congruence.
    + intros Hd. by destruct (Halive Hd) as (? & ? & ? & _).
    + intros Hd. by destruct (Hdead Hd) as (? & ? & ? & _).
  - (* a socket is created *)
    rewrite Hsn.
    assert (isDestroyed (nextSocket st0) st1 = false) as Hd.
    { unfold isDestroyed. by rewrite Hh, lookup_insert_eq. }
    destruct (Halive Hd) as (Ha & Hw' & Hin & Hc' & Hh').
    rewrite Hn0 in *. exists st1, st'. split_and!; try done.
    + by rewrite Hc', Hc, Hc0.
    + unfold isDestroyed. rewrite Hh'. exact Hd.
Qed.

(** With [maxSockets = 1], one active socket, no idle socket and one
    waiting request, the close of the active socket creates socket 1 and
    gives it to the waiting request. *)
Lemma close_replenishes_witness :
  ∃ st1 st',
    findOrCreateSocket "h:80" "h" "80" None (Some (request 2)) 1
      (removeFromIdleSockets 0 "h:80" (removeFromSockets 0 "h:80" oneActiveOneWaiting))
      = Some (1, st1) ∧
    step 1 (SocketClose 0) oneActiveOneWaiting = Some st' ∧
    st' = emitFree 1 1 st1 ∧
    created st' = created oneActiveOneWaiting ++ [mkConnOptions "80" "h" None "h"] ∧
    assigned st' = assigned oneActiveOneWaiting ++ [(request 2, 1)] ∧
    waitingOf "h:80" st' = [] ∧
    1 ∈ activeOf "h:80" st' ∧
    isDestroyed 1 st' = false.
Proof.
  pose proof (close_replenishes (mkAgentOptions (Some (integer 1)) None) oneActiveOneWaiting 0
                (mkSocketObj false (Some (mkClosure "h:80" "h" "80" None))
                   (Some (mkClosure "h:80" "h" "80" None))
                   (Some (mkClosure "h:80" "h" "80" None)))
                (mkClosure "h:80" "h" "80" None) (request 2) [] 1) as H.
  cbn zeta in H. cbn [cl_name cl_host cl_port cl_localAddress] in H.
  assert (keptSuffix 1
            (idleOf "h:80"
               (removeFromIdleSockets 0 "h:80" (removeFromSockets 0 "h:80" oneActiveOneWaiting)))
          = []) as Hk by (vm_compute; reflexivity).
  assert (servernameFor "h" (Some (request 2)) = Some "h") as Hsn by reflexivity.
  assert (nextSocket oneActiveOneWaiting = 1) as Hn by (vm_compute; reflexivity).
  rewrite Hk, Hsn, Hn in H. apply H.
  - apply (reachable_run _ [ (0%Z, AddRequest (request 1) "h" "80" None);
                             (0%Z, AddRequest (request 2) "h" "80" None) ] oneSocketAgent).
    + apply reachable_init.
    + vm_compute. reflexivity.
  - vm_compute. reflexivity.
  - reflexivity.
  - vm_compute. reflexivity.
Defined.

(** ** Where a reaction throws *)

Lemma servernameFor_None host req :
  servernameFor host req = None ↔
  ∃ r, req = Some r ∧ req_hostHeader r = Some (HeaderOther true).
Proof.
  unfold servernameFor. destruct req as [r|].
  - destruct (req_hostHeader r) as [[h|[]]|] eqn:Eh.
    + split; [by case_bool_decide|]. intros (r' & [= <-] & Hr). congruence.
    + split; [|done]. intros _. by exists r.
    + split; [done|]. intros (r' & [= <-] & Hr). congruence.
    + split; [done|]. intros (r' & [= <-] & Hr). congruence.
  - split; [done|]. by intros (r & ? & _).
Qed.

(** [findOrCreateSocket] throws exactly when it has to create a socket
    and [hostHeader.replace] throws. *)
Lemma findOrCreateSocket_None name host port localAddress req now st :
  findOrCreateSocket name host port localAddress req now st = None ↔
  keptSuffix now (idleOf name st) = [] ∧ servernameFor host req = None.
Proof.
  destruct (findOrCreateSocket_views name host port localAddress req now st)
    as [(Hthrows & Hk & Hsn)|(s & st' & Hf & _ & _ & _ & _ & _ & _ & _ & Hcase)].
  - done.
  - split; [congruence|]. intros [Hk Hsn].
    destruct Hcase as [(e & rest & Hk' & _)|(_ & _ & _ & _ & sn & Hsn' & _)]; congruence.
Qed.

(** [removeSocket] throws exactly when a request waits, no idle socket
    of the endpoint is left that has not expired, and the Host header of
    the first waiting request is truthy and not a string. *)
Lemma removeSocket_None s name host port localAddress now st :
  removeSocket s name host port localAddress now st = None ↔
  ∃ req rest,
    waitingOf name st = req :: rest ∧
    keptSuffix now (removeFirstIdle s (idleOf name st)) = [] ∧
    req_hostHeader req = Some (HeaderOther true).
Proof.
  unfold removeSocket.
  set (st0 := removeFromIdleSockets s name (removeFromSockets s name st)).
  assert (requests st0 = requests st) as Hr0
      by (subst st0; by rewrite requests_removeFromIdleSockets, requests_removeFromSockets).
  assert (idleOf name st0 = removeFirstIdle s (idleOf name st)) as Hi0.
  { subst st0. by rewrite idleOf_removeFromIdleSockets, idleOf_removeFromSockets, decide_True. }
  rewrite Hr0. unfold waitingOf.
  destruct (requests st !! name) as [[|req rest]|]; cbn [default].
  1,3: split; [done|]; by intros (? & ? & ? & _).
  destruct (findOrCreateSocket name host port localAddress (Some req) now st0)
    as [[s' st1]|] eqn:Hf; cbn [mbind option_bind].
  - split; [done|]. intros (req' & rest' & [= <- <-] & Hk & Hh).
    assert (findOrCreateSocket name host port localAddress (Some req) now st0 = None)
      as Hnone; [|congruence].
    apply findOrCreateSocket_None. rewrite Hi0. split; [done|].
    apply servernameFor_None. by exists req.
  - split; [|done]. intros _.
    apply findOrCreateSocket_None in Hf as [Hk Hsn].
    apply servernameFor_None in Hsn as (r & [= <-] & Hh).
    exists req, rest. by rewrite <- Hi0.
Qed.

(** [addRequest] throws exactly when the endpoint is below the limit, no
    idle socket of the endpoint has not expired, and the Host header of
    the request is truthy and not a string. *)
Lemma addRequest_None req host port localAddress now st :
  addRequest req host port localAddress now st = None ↔
  lengthBelow (length (activeOf (endpointName host port localAddress) st)) (maxSockets st)
    = true ∧
  keptSuffix now (idleOf (endpointName host port localAddress) st) = [] ∧
  req_hostHeader req = Some (HeaderOther true).
Proof.
  unfold addRequest.
  set (name := endpointName host port localAddress).
  set (st1 := match sockets st !! name with
              | Some _ => st
              | None => set_sockets <[name:=[]]> st
              end).
  assert (maxSockets st1 = maxSockets st ∧ idleOf name st1 = idleOf name st) as [Hm1 Hi1]
      by (subst st1; by destruct (sockets st !! name)).
  assert (default [] (sockets st1 !! name) = activeOf name st) as ->.
  { subst st1. unfold activeOf. destruct (sockets st !! name) eqn:Es; [by rewrite Es|].
    cbn. by rewrite lookup_insert_eq. }
  rewrite Hm1. destruct (lengthBelow _ _).
  - destruct (findOrCreateSocket name host port localAddress (Some req) now st1)
      as [[s st2]|] eqn:Hf; cbn [mbind option_bind].
    + split; [done|]. intros (_ & Hk & Hh).
      assert (findOrCreateSocket name host port localAddress (Some req) now st1 = None)
        as Hnone; [|congruence].
      apply findOrCreateSocket_None. rewrite Hi1. split; [done|].
      apply servernameFor_None. by exists req.
    + split; [|done]. intros _.
      apply findOrCreateSocket_None in Hf as [Hk Hsn].
      apply servernameFor_None in Hsn as (r & [= <-] & Hh).
      by rewrite <- Hi1.
  - split; [done|]. by intros (? & _).
Qed.

(** ** What the assumptions on the environment exclude *)

(** A socket that signals 'free' while it is parked is parked twice,
    and is then both active and idle once it is reused. *)
Lemma second_free_of_a_parked_socket :
  enabled (SocketFree 0) oneIdle = false ∧
  ∃ st, secondFree oneIdle = Some st ∧
        0 ∈ activeOf "h:80" st ∧ 0 ∈ socket <$> idleOf "h:80" st.
Proof.
  split; [vm_compute; reflexivity|].
  exists (default oneIdle (secondFree oneIdle)).
  split; [vm_compute; reflexivity|].
  assert (activeOf "h:80" (default oneIdle (secondFree oneIdle)) = [0]) as ->
    by (vm_compute; reflexivity).
  assert (socket <$> idleOf "h:80" (default oneIdle (secondFree oneIdle)) = [0]) as ->
    by (vm_compute; reflexivity).
  split; left.
Qed.

(** When the clock is set back between two parkings, the idle list is
    not in expiry order, and the prefix scan of [validateIdle] leaves an
    expired entry behind a valid one. *)
Lemma clock_set_back_hides_an_expired_entry :
  idleOf "h:80" clockSetBack = [mkIdle 0 10000; mkIdle 1 9000] ∧
  expired 9500 (mkIdle 1 9000) ∧
  validateIdle "h:80" 9500 clockSetBack = Some (true, clockSetBack).
Proof.
  split_and!; [vm_compute; reflexivity|unfold expired; cbn; lia|vm_compute; reflexivity].
Qed.

(** * Further properties of the code *)

(** ** Exceptions *)

(** X1: the reactions of the Agent throw in one case only.
    [validateIdle] throws exactly when [idleSockets] has no property
    [name], but its callers test for the property first, so that
    [findIdleSocket] and the timer callback never throw.  A 'free'
    event, the destruction of a socket and the timer never throw.
    [addRequest] and the listeners of 'close' and 'agentRemove' throw
    exactly when they have to create a socket (below the limit, or with
    a request waiting; no idle socket that has not expired) for a
    request whose Host header is truthy and not a string.  The objects
    around the Agent ([createConnection], [onSocket], [destroy], the
    registration of listeners) are taken to return. *)
Theorem reactions_throw_only_for_a_host_header now ev st :
  (∀ name, validateIdle name now st = None ↔ idleSockets st !! name = None) ∧
  (∀ name, is_Some (findIdleSocket name now st)) ∧
  is_Some (validationTimerCallback now st) ∧
  (step now ev st = None ↔
   match ev with
   | AddRequest req host port localAddress =>
       let name := endpointName host port localAddress in
       lengthBelow (length (activeOf name st)) (maxSockets st) = true ∧
       keptSuffix now (idleOf name st) = [] ∧
       req_hostHeader req = Some (HeaderOther true)
   | SocketClose s =>
       ∃ o cl req rest,
         heap st !! s = Some o ∧ onClose o = Some cl ∧
         waitingOf (cl_name cl) st = req :: rest ∧
         keptSuffix now (removeFirstIdle s (idleOf (cl_name cl) st)) = [] ∧
         req_hostHeader req = Some (HeaderOther true)
   | SocketAgentRemove s =>
       ∃ o cl req rest,
         heap st !! s = Some o ∧ onRemove o = Some cl ∧
         waitingOf (cl_name cl) st = req :: rest ∧
         keptSuffix now (removeFirstIdle s (idleOf (cl_name cl) st)) = [] ∧
         req_hostHeader req = Some (HeaderOther true)
   | SocketFree _ | SocketDestroyed _ | TimerFires => False
   end).
Proof.
  split_and!.
  - intros name. split.
    + intros Hv. destruct (idleSockets st !! name) as [l|] eqn:El; [|done].
      destruct (validateIdle_spec name now st l El) as (st' & Hv' & _). congruence.
    + intros El. unfold validateIdle. by rewrite El.
  - intros name. destruct (idleSockets st !! name) as [l|] eqn:El.
    + destruct (keptSuffix now l) as [|e rest] eqn:Ek.
      * destruct (findIdleSocket_none name now st l El Ek) as (st' & -> & _). by eexists.
      * destruct (findIdleSocket_some name now st l e rest El Ek) as (st' & -> & _).
        by eexists.
    + rewrite findIdleSocket_absent by done. by eexists.
  - destruct (validationTimerCallback_spec now st) as (st' & -> & _). by eexists.
  - destruct ev as [req host port la|s|s|s|s|]; cbn [step].
    + apply addRequest_None.
    + done.
    + unfold emitClose.
      destruct (heap st !! s) as [o|]; [|split; [done|]; by intros (? & ? & ? & ? & ? & _)].
      destruct (onClose o) as [cl|] eqn:Hcl;
        [|split; [done|]; intros (o' & cl' & ? & ? & [= <-] & Hcl' & _); congruence].
      rewrite removeSocket_None. split.
      * intros (req & rest & H). by exists o, cl, req, rest.
      * intros (o' & cl' & req & rest & [= <-] & Hcl' & H).
        rewrite Hcl in Hcl'. injection Hcl' as <-. by exists req, rest.
    + unfold emitAgentRemove.
      destruct (heap st !! s) as [o|]; [|split; [done|]; by intros (? & ? & ? & ? & ? & _)].
      destruct (onRemove o) as [cl|] eqn:Hcl;
        [|split; [done|]; intros (o' & cl' & ? & ? & [= <-] & Hcl' & _); congruence].
      destruct (removeSocket s (cl_name cl) (cl_host cl) (cl_port cl) (cl_localAddress cl)
                  now st) as [st1|] eqn:Hrm; cbn [mbind option_bind].
      * split; [done|]. intros (o' & cl' & req & rest & [= <-] & Hcl' & H).
        rewrite Hcl in Hcl'. injection Hcl' as <-.
        assert (removeSocket s (cl_name cl) (cl_host cl) (cl_port cl) (cl_localAddress cl)
                  now st = None) as Hnone; [|congruence].
        apply removeSocket_None. by exists req, rest.
      * split; [|done]. intros _.
        apply removeSocket_None in Hrm as (req & rest & H). by exists o, cl, req, rest.
    + done.
    + destruct (validationTimer st); [|done].
      destruct (validationTimerCallback_spec now st) as (st' & -> & _). done.
Qed.

(** A request whose Host header is an array: [addRequest] throws when it
    has to create a socket, and returns when an idle socket is there to
    be reused. *)
Lemma a_host_header_that_is_not_a_string :
  addRequest (mkRequest 1 (Some (HeaderOther true))) "h" "80" None 0 oneSocketAgent = None ∧
  ∃ st, addRequest (mkRequest 1 (Some (HeaderOther true))) "h" "80" None 3 oneIdle = Some st ∧
        assigned st = assigned oneIdle ++ [(mkRequest 1 (Some (HeaderOther true)), 0)].
Proof.
  split; [vm_compute; reflexivity|].
  exists (default oneIdle
            (addRequest (mkRequest 1 (Some (HeaderOther true))) "h" "80" None 3 oneIdle)).
  split; vm_compute; reflexivity.
Qed.

(** ** Removal of a socket that is not there *)

Lemma indexOf_not_elem s l : s ∉ l → indexOf s l = None.
Proof.
  intros Hs. destruct (indexOf s l) as [i|] eqn:E; [|done].
  apply indexOf_Some in E. destruct Hs. by eapply list_elem_of_lookup_2.
Qed.

Lemma indexOfIdle_not_elem s l : s ∉ socket <$> l → indexOfIdle s l = None.
Proof.
  induction l as [|e l IH]; [done|]. rewrite fmap_cons, not_elem_of_cons.
  intros [Hne Hs]. cbn. rewrite bool_decide_eq_false_2 by congruence.
  by rewrite IH.
Qed.

(** X2: [removeFromSockets] and [removeFromIdleSockets] leave the Agent
    as it is when the socket is not in the list of that name (also when
    there is no such list); so the 'close' of a socket that the Agent
    does not track any more, with no request waiting for its endpoint,
    changes nothing. *)
Theorem removal_of_an_absent_socket s name host port localAddress now st :
  s ∉ activeOf name st →
  s ∉ socket <$> idleOf name st →
  removeFromSockets s name st = st ∧
  removeFromIdleSockets s name st = st ∧
  (waitingOf name st = [] →
   removeSocket s name host port localAddress now st = Some st).
Proof.
  intros Ha Hi.
  assert (removeFromSockets s name st = st) as H1.
  { unfold removeFromSockets, activeOf in *.
    destruct (sockets st !! name) as [l|]; [|done]. cbn in Ha.
    by rewrite indexOf_not_elem. }
  assert (removeFromIdleSockets s name st = st) as H2.
  { unfold removeFromIdleSockets, idleOf in *.
    destruct (idleSockets st !! name) as [l|]; [|done]. cbn in Hi.
    by rewrite indexOfIdle_not_elem. }
  split_and!; [done|done|].
  intros Hw. unfold removeSocket. rewrite H1, H2. unfold waitingOf in Hw.
  destruct (requests st !! name) as [[|req rest]|]; done.
Qed.

Lemma removal_of_an_absent_socket_witness :
  removeFromSockets 7 "h:80" oneIdle = oneIdle ∧
  removeFromIdleSockets 7 "h:80" oneIdle = oneIdle ∧
  (waitingOf "h:80" oneIdle = [] →
   removeSocket 7 "h:80" "h" "80" None 3 oneIdle = Some oneIdle).
Proof.
  assert (activeOf "h:80" oneIdle = []) as Ha by (vm_compute; reflexivity).
  assert (socket <$> idleOf "h:80" oneIdle = [0]) as Hi by (vm_compute; reflexivity).
  apply (removal_of_an_absent_socket 7 "h:80" "h" "80" None 3 oneIdle).
  - rewrite Ha. apply not_elem_of_nil.
  - rewrite Hi. intros [H|H]%elem_of_cons; [discriminate H|by apply elem_of_nil in H].
Defined.

(** ** Validation twice *)

Lemma expiredCount_keptSuffix now l : expiredCount now (keptSuffix now l) = 0.
Proof.
  destruct (keptSuffix now l) as [|e rest] eqn:Ek; [done|].
  apply keptSuffix_head in Ek. cbn. by rewrite bool_decide_eq_false_2.
Qed.

(** X3: a validation that leaves entries has nothing left to do: a
    second [validateIdle] at the same time returns [true] again and
    changes nothing.  After a validation that has removed every entry
    the property is gone, and a second [validateIdle] throws. *)
Theorem validateIdle_twice name now st b st1 :
  validateIdle name now st = Some (b, st1) →
  (b = true → validateIdle name now st1 = Some (true, st1)) ∧
  (b = false → idleOf name st ≠ [] → validateIdle name now st1 = None).
Proof.
  intros Hv. destruct (idleSockets st !! name) as [l|] eqn:El.
  2: { unfold validateIdle in Hv. by rewrite El in Hv. }
  destruct (validateIdle_spec name now st l El) as (st' & Hv' & Hi & _).
  rewrite Hv in Hv'. injection Hv' as -> ->.
  assert (idleSockets st' !! name = validatedEntry now l) as Hl'.
  { by rewrite Hi, lookup_partial_alter, decide_True. }
  split.
  - intros Hb%bool_decide_eq_true.
    assert (validatedEntry now l = Some (keptSuffix now l)) as Hve.
    { unfold validatedEntry.
      rewrite (bool_decide_eq_false_2 (length _ = 0)) by lia. by rewrite andb_false_r. }
    unfold validateIdle. rewrite Hl', Hve, expiredCount_keptSuffix.
    rewrite (bool_decide_eq_false_2 (0 < 0)) by lia.
    by rewrite bool_decide_eq_true_2.
  - intros Hb%bool_decide_eq_false Hne.
    unfold idleOf in Hne. rewrite El in Hne. cbn in Hne.
    assert (validatedEntry now l = None) as Hve.
    { unfold validatedEntry.
      assert (keptSuffix now l = []) as Hk by (apply nil_length_inv; lia).
      rewrite Hk. cbn [length]. rewrite (bool_decide_eq_true_2 (0 = 0)) by done.
      rewrite bool_decide_eq_true_2; [done|].
      unfold keptSuffix in Hk. destruct l as [|e l]; [done|].
      destruct (expiredCount now (e :: l)); [done|lia]. }
    unfold validateIdle. by rewrite Hl', Hve.
Qed.

Lemma validateIdle_twice_witness :
  (∃ st1, validateIdle "h:80" 10003 twoIdle = Some (true, st1) ∧
          validateIdle "h:80" 10003 st1 = Some (true, st1)) ∧
  (∃ st1, validateIdle "h:80" 10006 twoIdle = Some (false, st1) ∧
          validateIdle "h:80" 10006 st1 = None).
Proof.
  split.
  - set (st1 := default twoIdle (snd <$> validateIdle "h:80" 10003 twoIdle)).
    assert (validateIdle "h:80" 10003 twoIdle = Some (true, st1)) as Hv
      by (vm_compute; reflexivity).
    exists st1. split; [exact Hv|].
    apply (validateIdle_twice "h:80" 10003 twoIdle true st1 Hv). reflexivity.
  - set (st1 := default twoIdle (snd <$> validateIdle "h:80" 10006 twoIdle)).
    assert (validateIdle "h:80" 10006 twoIdle = Some (false, st1)) as Hv
      by (vm_compute; reflexivity).
    exists st1. split; [exact Hv|].
    apply (validateIdle_twice "h:80" 10006 twoIdle false st1 Hv); [reflexivity|].
    assert (idleOf "h:80" twoIdle = [mkIdle 0 10000; mkIdle 1 10005]) as ->
      by (vm_compute; reflexivity).
    discriminate.
Defined.

(** ** Admission *)

(** X4: [addRequest] serves or queues.  Below the limit the request is
    given a socket at once, which becomes the last active socket of the
    endpoint, and no queue changes; the call throws instead, exactly
    when a socket has to be created for it and its Host header is truthy
    and not a string.  At the limit the call returns, the request
    becomes the last one of the endpoint's queue, and nothing else
    happens: no socket is created, assigned, reused or validated. *)
Theorem addRequest_serves_or_queues req host port localAddress now st :
  let name := endpointName host port localAddress in
  (addRequest req host port localAddress now st = None ↔
   lengthBelow (length (activeOf name st)) (maxSockets st) = true ∧
   keptSuffix now (idleOf name st) = [] ∧
   req_hostHeader req = Some (HeaderOther true)) ∧
  (lengthBelow (length (activeOf name st)) (maxSockets st) = true →
   ∀ st', addRequest req host port localAddress now st = Some st' →
     ∃ s, assigned st' = assigned st ++ [(req, s)] ∧
          activeOf name st' = activeOf name st ++ [s] ∧
          ∀ n, waitingOf n st' = waitingOf n st) ∧
  (lengthBelow (length (activeOf name st)) (maxSockets st) = false →
   ∃ st',
     addRequest req host port localAddress now st = Some st' ∧
     waitingOf name st' = waitingOf name st ++ [req] ∧
     (∀ n, n ≠ name → waitingOf n st' = waitingOf n st) ∧
     assigned st' = assigned st ∧
     created st' = created st ∧
     (∀ n, activeOf n st' = activeOf n st) ∧
     idleSockets st' = idleSockets st ∧
     heap st' = heap st).
Proof.
  intros name. split; [apply addRequest_None|].
  unfold addRequest. fold name.
  set (st1 := match sockets st !! name with
              | Some _ => st
              | None => set_sockets <[name:=[]]> st
              end).
  assert (maxSockets st1 = maxSockets st ∧ requests st1 = requests st ∧
          assigned st1 = assigned st ∧ created st1 = created st ∧
          idleSockets st1 = idleSockets st ∧ heap st1 = heap st)
    as (Hm1 & Hr1 & Has1 & Hc1 & Hi1 & Hh1).
  { subst st1. by destruct (sockets st !! name). }
  assert (∀ n, activeOf n st1 = activeOf n st) as Ha1.
  { intros n. subst st1. unfold activeOf.
    destruct (sockets st !! name) eqn:E; [done|]. cbn.
    rewrite lookup_insert. destruct (decide (name = n)) as [<-|]; [by rewrite E|done]. }
  fold (activeOf name st1). rewrite Ha1, Hm1.
  destruct (lengthBelow _ _) eqn:Hlt.
  - split; [|done]. intros _ st' Hadd.
    destruct (findOrCreateSocket_views name host port localAddress (Some req) now st1)
      as [[Hthrows _]|(s & st2 & Hf & _ & Hact & Hr2 & Has2 & _)]; [throws Hthrows|].
    rewrite Hf in Hadd. cbn in Hadd. injection Hadd as <-.
    exists s. split_and!.
    + cbn. congruence.
    + change (activeOf name (onSocket req s st2)) with (activeOf name st2).
      by rewrite Hact, decide_True, Ha1.
    + intros n. unfold waitingOf. cbn. congruence.
  - split; [done|]. intros _.
    set (st2 := match requests st1 !! name with
                | Some _ => st1
                | None => set_requests <[name:=[]]> st1
                end).
    assert (sockets st2 = sockets st1 ∧ assigned st2 = assigned st1 ∧
            created st2 = created st1 ∧ idleSockets st2 = idleSockets st1 ∧
            heap st2 = heap st1) as (Hs2 & Has2 & Hc2 & Hi2 & Hh2).
    { subst st2. by destruct (requests st1 !! name). }
    assert (∀ n, default [] (requests st2 !! n) = default [] (requests st !! n)) as Hw2.
    { intros n. subst st2. rewrite <- Hr1.
      destruct (requests st1 !! name) eqn:E; [done|]. cbn.
      rewrite lookup_insert. destruct (decide (name = n)) as [<-|]; [by rewrite E|done]. }
    eexists. split; [reflexivity|].
    unfold waitingOf, activeOf.
    cbn [requests sockets assigned created idleSockets heap set_requests].
    rewrite Hs2, Has2, Hc2, Hi2, Hh2, Hw2, lookup_insert_eq.
    split_and!; try done.
    intros n Hn. by rewrite lookup_insert_ne, Hw2.
Qed.

Lemma addRequest_serves_or_queues_witness :
  (∃ st', addRequest (request 9) "h" "80" None 3 oneIdle = Some st' ∧
          ∃ s, assigned st' = assigned oneIdle ++ [(request 9, s)] ∧
               activeOf "h:80" st' = activeOf "h:80" oneIdle ++ [s]) ∧
  (∃ st', addRequest (request 9) "h" "80" None 3 oneActiveOneWaiting = Some st' ∧
          waitingOf "h:80" st' = waitingOf "h:80" oneActiveOneWaiting ++ [request 9] ∧
          created st' = created oneActiveOneWaiting).
Proof.
  split.
  - destruct (addRequest_serves_or_queues (request 9) "h" "80" None 3 oneIdle)
      as (_ & Hserve & _).
    set (st' := default oneIdle (addRequest (request 9) "h" "80" None 3 oneIdle)).
    assert (addRequest (request 9) "h" "80" None 3 oneIdle = Some st') as Hadd
        by (vm_compute; reflexivity).
    exists st'. split; [exact Hadd|].
    destruct (Hserve ltac:(vm_compute; reflexivity) st' Hadd) as (s & Ha & Hact & _).
    exists s. split; [exact Ha|exact Hact].
  - destruct (addRequest_serves_or_queues (request 9) "h" "80" None 3 oneActiveOneWaiting)
      as (_ & _ & Hqueue).
    destruct Hqueue as (st' & Hadd & Hw & _ & _ & Hc & _); [vm_compute; reflexivity|].
    exists st'. split; [exact Hadd|]. split; [exact Hw|exact Hc].
Defined.

(** ** Tracked sockets *)

(** X5: in every reachable state a socket that is active or idle for an
    endpoint has its three listeners, registered with the name of that
    endpoint, which is the name computed from the host, the port and the
    local address they carry; it is tracked for no other endpoint, and
    it occurs once in the endpoint's lists. *)
Theorem tracked_socket_listens options st name s :
  reachable options st →
  s ∈ activeOf name st ∨ s ∈ socket <$> idleOf name st →
  (∃ cl, hasListeners s cl st ∧
         cl_name cl = name ∧
         endpointName (cl_host cl) (cl_port cl) (cl_localAddress cl) = name) ∧
  (∀ n, s ∈ poolOf n st → n = name) ∧
  NoDup (activeOf name st) ∧
  NoDup (socket <$> idleOf name st) ∧
  s < nextSocket st.
Proof.
  intros Hr Hs%poolOf_elem. apply Inv_reachable in Hr as HI.
  destruct (inv_listens st HI name s Hs) as (o & cl & Ho & Hf & Hn).
  destruct (inv_closures st HI s o Ho) as (Hc & Hrm & Hwf).
  pose proof (inv_nodup st HI name) as Hnd. unfold poolOf in Hnd.
  apply NoDup_app in Hnd as (Hnda & _ & Hndi).
  split_and!; [|  |done|done|].
  - exists cl. split_and!; [|done|by rewrite <- (Hwf cl Hf)].
    exists o. split_and!; congruence.
  - intros n Hn'. destruct (inv_listens st HI n s Hn') as (o' & cl' & Ho' & Hf' & <-).
    congruence.
  - apply (inv_fresh st HI). by eexists.
Qed.

Lemma tracked_socket_listens_witness :
  (∃ cl, hasListeners 0 cl oneIdle ∧
         cl_name cl = "h:80" ∧
         endpointName (cl_host cl) (cl_port cl) (cl_localAddress cl) = "h:80") ∧
  (∀ n, 0 ∈ poolOf n oneIdle → n = "h:80") ∧
  NoDup (activeOf "h:80" oneIdle) ∧
  NoDup (socket <$> idleOf "h:80" oneIdle) ∧
  0 < nextSocket oneIdle.
Proof.
  apply (tracked_socket_listens (mkAgentOptions (Some (integer 1)) None) oneIdle "h:80" 0).
  - apply (reachable_run _ [ (0%Z, AddRequest (request 1) "h" "80" None);
                             (0%Z, SocketFree 0) ] oneSocketAgent).
    + apply reachable_init.
    + vm_compute. reflexivity.
  - right. assert (socket <$> idleOf "h:80" oneIdle = [0]) as ->
      by (vm_compute; reflexivity). left.
Defined.

(** ** Sockets that have left the pool *)

(** The sockets tracked after a step were tracked before it, for the
    same endpoint, or are new. *)
Lemma pool_step now ev st st' :
  Inv st → enabled ev st = true → step now ev st = Some st' →
  (∀ n x, x ∈ poolOf n st' → x ∈ poolOf n st ∨ x = nextSocket st) ∧
  (∀ x, is_Some (heap st !! x) → is_Some (heap st' !! x)).
Proof.
  intros HI Hen Hstep.
  assert (∀ s name host port la st1,
            name = endpointName host port la →
            removeSocket s name host port la now st = Some st1 →
            (∀ n x, x ∈ poolOf n st1 → x ∈ poolOf n st ∨ x = nextSocket st) ∧
            (∀ x, is_Some (heap st !! x) → is_Some (heap st1 !! x))) as Hrm.
  { intros s name host port la st1 Hname Hr.
    destruct (Inv_removeSocket _ _ _ _ _ _ _ _ HI Hname Hr) as (_ & Hin & Hdom).
    split; [|done]. intros n x Hx. destruct (Hin n x Hx) as [Hold|]; [left|by right].
    unfold poolOf in Hold.
    rewrite activeOf_removeFromIdleSockets, activeOf_removeFromSockets,
      idleOf_removeFromIdleSockets, idleOf_removeFromSockets in Hold.
    unfold poolOf. case_decide; [|done].
    apply elem_of_app in Hold as [Ha|Hi]; apply elem_of_app.
    - left. eapply elem_of_sublist; [exact Ha|apply removeFirst_sublist].
    - right. eapply elem_of_sublist; [exact Hi|].
      apply fmap_sublist, removeFirstIdle_sublist. }
  destruct ev as [req host port la|s|s|s|s|]; cbn in Hstep.
  - unfold addRequest in Hstep.
    set (name := endpointName host port la) in *.
    set (st1 := match sockets st !! name with
                | Some _ => st
                | None => set_sockets <[name:=[]]> st
                end) in *.
    assert (∀ n, poolOf n st1 = poolOf n st) as Hp1.
    { intros n. subst st1. unfold poolOf, activeOf, idleOf.
      destruct (sockets st !! name) eqn:E; [done|]. cbn.
      rewrite lookup_insert.
      destruct (decide (name = n)) as [<-|]; [by rewrite E|done]. }
    assert (heap st1 = heap st ∧ nextSocket st1 = nextSocket st) as [Hh1 Hn1].
    { subst st1. by destruct (sockets st !! name). }
    assert (Inv st1) as HI1.
    { apply (Inv_submseteq st); [done| | |done].
      - intros n. by rewrite Hp1.
      - rewrite Hh1. apply onlyDestroys_refl. }
    destruct (lengthBelow _ _) eqn:Hlt.
    + destruct (findOrCreateSocket name host port la (Some req) now st1)
        as [[s st2]|] eqn:Hf; [|done].
      cbn in Hstep. injection Hstep as <-.
      destruct (Inv_findOrCreateSocket _ _ _ _ _ _ _ _ _ HI1 eq_refl Hf)
        as (_ & _ & Hin & Hdom).
      split.
      * intros n x Hx. rewrite <- Hp1, <- Hn1. by apply Hin.
      * intros x Hx. apply Hdom. by rewrite Hh1.
    + injection Hstep as <-. split.
      * intros n x Hx. left. rewrite <- Hp1.
        by destruct (requests st1 !! name).
      * intros x Hx. rewrite <- Hh1 in Hx. by destruct (requests st1 !! name).
  - injection Hstep as <-. cbn in Hen. unfold nameOfSocket in Hen.
    destruct (heap st !! s) as [o|] eqn:Ho; [|done]. cbn in Hen.
    destruct (onFree o) as [cl|] eqn:Hcl; [|done]. cbn in Hen.
    apply bool_decide_eq_true in Hen.
    destruct (Inv_emitFree s _ now st HI Hen) as (_ & Hp & Hh & _).
    split.
    + intros n x Hx. left. by rewrite <- (Hp n).
    + intros x. by rewrite Hh.
  - unfold emitClose in Hstep.
    destruct (heap st !! s) as [o|] eqn:Ho; [|injection Hstep as <-; by split; [left|]].
    destruct (onClose o) as [cl|] eqn:Hcl; [|injection Hstep as <-; by split; [left|]].
    destruct (inv_closures st HI s o Ho) as (Hcf & _ & Hwf). rewrite Hcf in Hcl.
    by apply (Hrm _ _ _ _ _ _ (Hwf cl Hcl) Hstep).
  - unfold emitAgentRemove in Hstep.
    destruct (heap st !! s) as [o|] eqn:Ho; [|injection Hstep as <-; by split; [left|]].
    destruct (onRemove o) as [cl|] eqn:Hcl; [|injection Hstep as <-; by split; [left|]].
    destruct (inv_closures st HI s o Ho) as (_ & Hrf & Hwf). rewrite Hrf in Hcl.
    destruct (removeSocket s (cl_name cl) (cl_host cl) (cl_port cl) (cl_localAddress cl) now st)
      as [st1|] eqn:Hr; [|done].
    cbn in Hstep. injection Hstep as <-.
    destruct (Hrm _ _ _ _ _ _ (Hwf cl Hcl) Hr) as [Hin Hdom]. split.
    + intros n x Hx. by apply Hin.
    + intros x Hx. unfold removeListeners. cbn. rewrite lookup_alter_is_Some.
      by apply Hdom.
  - injection Hstep as <-. split; [by left|].
    intros x Hx. unfold destroy. cbn. by rewrite lookup_alter_is_Some.
  - destruct (validationTimer st); [|injection Hstep as <-; by split; [left|]].
    destruct (validationTimerCallback_spec now st)
      as (st1 & Hcb & Hi & _ & Hh & _ & Hs & _).
    rewrite Hstep in Hcb. injection Hcb as <-. split.
    + intros n x Hx. left. unfold poolOf, activeOf, idleOf in *.
      rewrite Hs, Hi, lookup_omap in Hx.
      apply elem_of_app in Hx as [Ha|Hx]; apply elem_of_app; [by left|right].
      destruct (idleSockets st !! n) as [l|]; cbn in *; [|done].
      rewrite idleOf_validatedEntry in Hx.
      eapply elem_of_sublist; [exact Hx|]. apply fmap_sublist, keptSuffix_sublist.
    + intros x Hx. by apply (is_Some_onlyDestroys _ _ x Hh).
Qed.

Lemma untracked_run options evs st st' s :
  reachable options st →
  is_Some (heap st !! s) →
  untracked s st →
  run evs st = Some st' →
  untracked s st' ∧ is_Some (heap st' !! s).
Proof.
  revert st. induction evs as [|[now ev] evs IH]; intros st Hr Hs Hu Hrun; cbn in Hrun.
  - by injection Hrun as <-.
  - destruct (enabled ev st) eqn:Hen; [|done].
    destruct (step now ev st) as [st1|] eqn:Hstep; [|done]. cbn in Hrun.
    pose proof (Inv_reachable options st Hr) as HI.
    destruct (pool_step now ev st st1 HI Hen Hstep) as [Hin Hdom].
    apply (IH st1); [by eapply reachable_step|by apply Hdom| |done].
    intros n Hx. destruct (Hin n s Hx) as [Hold| ->]; [by apply (Hu n)|].
    assert (nextSocket st < nextSocket st); [|lia]. by apply (inv_fresh st HI).
Qed.

(** After [removeSocket] the socket is not tracked. *)
Lemma removeSocket_untracks s o cl now st st1 :
  Inv st →
  heap st !! s = Some o →
  onFree o = Some cl →
  removeSocket s (cl_name cl) (cl_host cl) (cl_port cl) (cl_localAddress cl) now st
    = Some st1 →
  untracked s st1.
Proof.
  intros HI Ho Hcl Hrm.
  destruct (inv_closures st HI s o Ho) as (_ & _ & Hwf).
  destruct (Inv_removeSocket _ _ _ _ _ _ _ _ HI (Hwf cl Hcl) Hrm) as (_ & Hin & _).
  intros n Hx. destruct (Hin n s Hx) as [Hold| ->].
  - unfold poolOf in Hold.
    rewrite activeOf_removeFromIdleSockets, activeOf_removeFromSockets,
      idleOf_removeFromIdleSockets, idleOf_removeFromSockets in Hold.
    pose proof (inv_nodup st HI n) as Hnd. unfold poolOf in Hnd.
    apply NoDup_app in Hnd as (Hnda & _ & Hndi).
    case_decide as Hn.
    + apply elem_of_app in Hold as [Ha|Hi].
      * by apply (removeFirst_not_elem s (activeOf n st)).
      * by apply (removeFirst_fmap_not_elem s (idleOf n st)).
    + apply Hn. destruct (inv_listens st HI n s Hold) as (o' & cl' & Ho' & Hf' & Hn').
      rewrite Ho in Ho'. injection Ho' as <-. congruence.
  - assert (nextSocket st < nextSocket st); [|lia].
    apply (inv_fresh st HI). by eexists.
Qed.

(** A socket without listeners is not tracked. *)
Lemma untracked_without_listener s o st :
  Inv st → heap st !! s = Some o → onFree o = None → untracked s st.
Proof.
  intros HI Ho Hf n Hx.
  destruct (inv_listens st HI n s Hx) as (o' & cl & Ho' & Hf' & _). congruence.
Qed.

(** X6: once the 'close' event of a socket has been handled, the socket
    is neither active nor idle for any endpoint, and no later event
    brings it back. *)
Theorem closed_socket_stays_out options st s now st' evs st'' :
  reachable options st →
  enabled (SocketClose s) st = true →
  step now (SocketClose s) st = Some st' →
  run evs st' = Some st'' →
  untracked s st' ∧ untracked s st''.
Proof.
  intros Hr Hen Hstep Hrun.
  pose proof (Inv_reachable options st Hr) as HI.
  cbn in Hen. apply bool_decide_eq_true in Hen as [o Ho].
  assert (untracked s st') as Hu.
  { cbn in Hstep. unfold emitClose in Hstep. rewrite Ho in Hstep.
    destruct (inv_closures st HI s o Ho) as (Hcf & _ & _).
    destruct (onClose o) as [cl|] eqn:Hcl.
    - rewrite Hcf in Hcl. by eapply removeSocket_untracks.
    - injection Hstep as <-. rewrite Hcf in Hcl.
      by eapply untracked_without_listener. }
  split; [done|].
  assert (reachable options st') as Hr'.
  { eapply reachable_step; [exact Hr| |exact Hstep].
    cbn. apply bool_decide_eq_true. by eexists. }
  assert (is_Some (heap st' !! s)) as Hs'.
  { destruct (pool_step now (SocketClose s) st st' HI) as [_ Hdom]; [|done|].
    - cbn. apply bool_decide_eq_true. by eexists.
    - apply Hdom. by eexists. }
  by destruct (untracked_run options evs st' st'' s Hr' Hs' Hu Hrun).
Qed.

Lemma closed_socket_stays_out_witness :
  untracked 0 (stateAfter [(1%Z, SocketClose 0)] oneActiveOneWaiting) ∧
  untracked 0 (stateAfter [(1%Z, SocketClose 0);
                           (2%Z, SocketFree 1);
                           (3%Z, AddRequest (request 3) "h" "80" None)]
                          oneActiveOneWaiting).
Proof.
  apply (closed_socket_stays_out (mkAgentOptions (Some (integer 1)) None) oneActiveOneWaiting 0 1
           (stateAfter [(1%Z, SocketClose 0)] oneActiveOneWaiting)
           [(2%Z, SocketFree 1); (3%Z, AddRequest (request 3) "h" "80" None)]).
  - apply (reachable_run _ [ (0%Z, AddRequest (request 1) "h" "80" None);
                             (0%Z, AddRequest (request 2) "h" "80" None) ] oneSocketAgent).
    + apply reachable_init.
    + vm_compute. reflexivity.
  - vm_compute. reflexivity.
  - vm_compute. reflexivity.
  - vm_compute. reflexivity.
Defined.



(** ** The timer is set while sockets are idle *)

Lemma validationTimer_removeFromSockets s name st :
  validationTimer (removeFromSockets s name st) = validationTimer st.
Proof. unchanged removeFromSockets. Qed.

Lemma validationTimer_removeFromIdleSockets s name st :
  validationTimer (removeFromIdleSockets s name st) = validationTimer st.
Proof. unchanged removeFromIdleSockets. Qed.

Lemma reaperPending_shrink st st' :
  reaperPending st →
  validationTimer st' = validationTimer st →
  (∀ n, idleOf n st' `sublist_of` idleOf n st) →
  reaperPending st'.
Proof.
  intros H Ht Hsub [n Hn]. rewrite Ht. apply H. exists n. intros Hnil.
  specialize (Hsub n). rewrite Hnil in Hsub. apply sublist_nil_r in Hsub. done.
Qed.

Lemma reaperPending_emitFree s now st : reaperPending st → reaperPending (emitFree s now st).
Proof.
  intros H. unfold emitFree. destruct (heap st !! s) as [o|]; [|done].
  destruct (onFree o) as [cl|]; [|done].
  destruct (freeHandler_cases s (cl_host cl) (cl_port cl) (cl_localAddress cl) now st)
    as [(_ & req & rest & _ & _ & _ & _ & _ & Hid & _ & _ & _ & _ & _ & Ht)|[_ ->]].
  - apply (reaperPending_shrink st); [done|done|].
    intros n. unfold idleOf. by rewrite Hid.
  - intros _. apply putIdleSocket_fields.
Qed.

Lemma idle_findOrCreateSocket_sublist name host port localAddress req now st s st' :
  findOrCreateSocket name host port localAddress req now st = Some (s, st') →
  validationTimer st' = validationTimer st ∧
  ∀ n, idleOf n st' `sublist_of` idleOf n st.
Proof.
  intros Hf.
  destruct (findOrCreateSocket_views name host port localAddress req now st)
    as [[Hthrows _]|(s0 & st0 & Hf0 & Hidle & _ & _ & _ & _ & _ & Ht & _)]; [throws Hthrows|].
  rewrite Hf in Hf0. injection Hf0 as <- <-. split; [done|].
  intros n. rewrite Hidle. case_decide; [|done]. subst n.
  pose proof (keptSuffix_sublist now (idleOf name st)) as Hsub.
  destruct (keptSuffix now (idleOf name st)) as [|e r]; [apply sublist_nil_l|].
  cbn [tail]. etrans; [|exact Hsub]. by apply sublist_cons.
Qed.

Lemma reaperPending_removeSocket s name host port localAddress now st st' :
  reaperPending st →
  removeSocket s name host port localAddress now st = Some st' →
  reaperPending st'.
Proof.
  intros H Hrm. unfold removeSocket in Hrm.
  set (st0 := removeFromIdleSockets s name (removeFromSockets s name st)) in *.
  assert (reaperPending st0) as H0.
  { apply (reaperPending_shrink st); [done| |].
    - subst st0.
      by rewrite validationTimer_removeFromIdleSockets, validationTimer_removeFromSockets.
    - intros n. subst st0.
      rewrite idleOf_removeFromIdleSockets, idleOf_removeFromSockets.
      case_decide; [|done]. apply removeFirstIdle_sublist. }
  destruct (requests st0 !! name) as [[|req rest]|].
  1,3: by injection Hrm as <-.
  destruct (findOrCreateSocket name host port localAddress (Some req) now st0)
    as [[s' st1]|] eqn:Hf; [|done].
  cbn in Hrm. injection Hrm as <-.
  apply reaperPending_emitFree.
  destruct (idle_findOrCreateSocket_sublist _ _ _ _ _ _ _ _ _ Hf) as [Ht Hsub].
  by apply (reaperPending_shrink st0).
Qed.

Lemma reaperPending_step now ev st st' :
  reaperPending st → step now ev st = Some st' → reaperPending st'.
Proof.
  intros H Hstep. destruct ev as [req host port la|s|s|s|s|]; cbn in Hstep.
  - unfold addRequest in Hstep.
    set (name := endpointName host port la) in *.
    set (st1 := match sockets st !! name with
                | Some _ => st
                | None => set_sockets <[name:=[]]> st
                end) in *.
    assert (reaperPending st1) as H1.
    { apply (reaperPending_shrink st); [done| |];
        subst st1; by destruct (sockets st !! name). }
    destruct (lengthBelow _ _) eqn:Hlt.
    + destruct (findOrCreateSocket name host port la (Some req) now st1)
        as [[s st2]|] eqn:Hf; [|done].
      cbn in Hstep. injection Hstep as <-.
      destruct (idle_findOrCreateSocket_sublist _ _ _ _ _ _ _ _ _ Hf) as [Ht Hsub].
      by apply (reaperPending_shrink st1).
    + injection Hstep as <-.
      apply (reaperPending_shrink st1); [done| |];
        by destruct (requests st1 !! name).
  - injection Hstep as <-. by apply reaperPending_emitFree.
  - unfold emitClose in Hstep. destruct (heap st !! s) as [o|]; [|by injection Hstep as <-].
    destruct (onClose o); [|by injection Hstep as <-].
    by eapply reaperPending_removeSocket.
  - unfold emitAgentRemove in Hstep.
    destruct (heap st !! s) as [o|]; [|by injection Hstep as <-].
    destruct (onRemove o) as [cl|]; [|by injection Hstep as <-].
    destruct (removeSocket s (cl_name cl) (cl_host cl) (cl_port cl) (cl_localAddress cl) now st)
      as [st1|] eqn:Hrm; [|done].
    cbn in Hstep. injection Hstep as <-.
    apply (reaperPending_shrink st1); [|done|done].
    by eapply reaperPending_removeSocket.
  - injection Hstep as <-. by apply (reaperPending_shrink st).
  - destruct (validationTimer st); [|by injection Hstep as <-].
    destruct (validationTimerCallback_spec now st) as (st1 & Hcb & _ & Ht & _).
    rewrite Hstep in Hcb. injection Hcb as <-.
    intros [n Hn]. rewrite Ht. apply bool_decide_eq_true_2.
    destruct (decide (totalIdle st' = 0)) as [Hz|]; [|lia].
    rewrite totalIdle_zero in Hz. by destruct Hn.
Qed.

(** X8: in every reachable state in which a socket is idle for some
    endpoint the validation timer is set and can fire, so that no idle
    socket is left without a later validation. *)
Theorem idle_sockets_have_a_timer options st name :
  reachable options st →
  idleOf name st ≠ [] →
  validationTimer st = true ∧ enabled TimerFires st = true.
Proof.
  intros Hr Hn.
  assert (reaperPending st) as H.
  { clear Hn. induction Hr as [|st now ev st' _ IH _ Hstep].
    - intros [n Hne]. unfold idleOf in Hne. cbn in Hne. by rewrite lookup_empty in Hne.
    - by eapply reaperPending_step. }
  assert (validationTimer st = true) as Ht by (apply H; by exists name).
  by split.
Qed.

Lemma idle_sockets_have_a_timer_witness :
  validationTimer twoIdle = true ∧ enabled TimerFires twoIdle = true.
Proof.
  apply (idle_sockets_have_a_timer (mkAgentOptions (Some (integer 2)) None) twoIdle "h:80").
  - apply (reachable_run _ [ (0%Z, AddRequest (request 1) "h" "80" None);
                             (0%Z, AddRequest (request 2) "h" "80" None);
                             (0%Z, SocketFree 0);
                             (5%Z, SocketFree 1) ] twoSocketAgent).
    + apply reachable_init.
    + vm_compute. reflexivity.
  - assert (idleOf "h:80" twoIdle = [mkIdle 0 10000; mkIdle 1 10005]) as ->
      by (vm_compute; reflexivity).
    discriminate.
Defined.

(** ** No empty list is left in [requests] or [sockets] *)

Lemma sockets_removeFromIdleSockets s name st :
  sockets (removeFromIdleSockets s name st) = sockets st.
Proof. unchanged removeFromIdleSockets. Qed.

Lemma removeFromSockets_nonempty s name st :
  (∀ n, sockets st !! n ≠ Some []) →
  ∀ n, sockets (removeFromSockets s name st) !! n ≠ Some [].
Proof.
  intros H n. unfold removeFromSockets.
  destruct (sockets st !! name) as [l|]; [|done].
  destruct (indexOf s l) as [i|]; [|done].
  case_bool_decide as Hlen; cbn [sockets set_sockets].
  - rewrite lookup_delete. by case_decide.
  - rewrite lookup_insert. case_decide; [|done].
    intros [= Hnil]. by rewrite Hnil in Hlen.
Qed.

(** The list of active sockets after [findOrCreateSocket]: the socket
    handed out is pushed last, whether it is reused or created. *)
Lemma findOrCreateSocket_pushes name host port localAddress req now st s st' :
  findOrCreateSocket name host port localAddress req now st = Some (s, st') →
  sockets st' = <[name := activeOf name st ++ [s]]> (sockets st) ∧
  requests st' = requests st ∧ maxSockets st' = maxSockets st ∧
  keepAlive st' = keepAlive st.
Proof.
  intros Hfoc.
  destruct (idleSockets st !! name) as [l|] eqn:El.
  - destruct (keptSuffix now l) as [|e rest] eqn:Ek.
    + destruct (findIdleSocket_none name now st l El Ek)
        as (st1 & Hf & _ & _ & Hr & Hs & _ & _ & _ & Hka & Hm & _).
      destruct (servernameFor host req) as [servername|] eqn:Hsn;
        [|by rewrite (findOrCreateSocket_throws _ _ _ _ _ _ _ st1 Hf Hsn) in Hfoc].
      destruct (findOrCreateSocket_create name host port localAddress req now st st1
                  servername Hf Hsn)
        as (st2 & Hfc & _ & Hs' & _ & Hr' & _ & _ & _ & Hka' & Hm' & _).
      rewrite Hfoc in Hfc. injection Hfc as -> ->.
      unfold activeOf in *. rewrite Hs', Hr', Hm', Hka', Hs. done.
    + destruct (findOrCreateSocket_reuse name host port localAddress req now st l e rest El Ek)
        as (st2 & Hfc & _ & Hs' & _ & Hr' & _ & _ & _ & Hka' & Hm' & _).
      rewrite Hfoc in Hfc. by injection Hfc as -> ->.
  - pose proof (findIdleSocket_absent name now st El) as Hf.
    destruct (servernameFor host req) as [servername|] eqn:Hsn;
      [|by rewrite (findOrCreateSocket_throws _ _ _ _ _ _ _ st Hf Hsn) in Hfoc].
    destruct (findOrCreateSocket_create name host port localAddress req now st st
                servername Hf Hsn)
      as (st2 & Hfc & _ & Hs' & _ & Hr' & _ & _ & _ & Hka' & Hm' & _).
    rewrite Hfoc in Hfc. by injection Hfc as -> ->.
Qed.

Lemma insert_push_nonempty {A} (m : gmap string (list A)) name l x :
  (∀ n, n ≠ name → m !! n ≠ Some []) →
  ∀ n, <[name := l ++ [x]]> m !! n ≠ Some [].
Proof.
  intros H n. rewrite lookup_insert. case_decide; [|by apply H].
  intros [= Hnil]. by destruct l.
Qed.

Lemma noEmptyList_freeHandler s host port localAddress now st :
  noEmptyList st → noEmptyList (freeHandler s host port localAddress now st).
Proof.
  intros [Hr Hs]. unfold freeHandler.
  set (name := endpointName host port localAddress).
  assert (noEmptyList (putIdleSocket s name now (removeFromSockets s name st))) as Hpark.
  { destruct (putIdleSocket_fields s name now (removeFromSockets s name st))
      as (Hr' & Hs' & _).
    split; intros n.
    - rewrite Hr', requests_removeFromSockets. apply Hr.
    - rewrite Hs'. by apply removeFromSockets_nonempty. }
  destruct (isDestroyed s st); [done|].
  destruct (requests st !! name) as [[|req rest]|] eqn:Er; [done| |done].
  split; intros n; case_bool_decide as Hlen;
    cbn [requests sockets set_requests onSocket]; try apply Hs.
  - rewrite lookup_delete. case_decide; [done|].
    rewrite lookup_insert_ne by done. apply Hr.
  - rewrite lookup_insert. case_decide; [|apply Hr].
    intros [= Hnil]. by rewrite Hnil in Hlen.
Qed.

Lemma noEmptyList_emitFree s now st : noEmptyList st → noEmptyList (emitFree s now st).
Proof.
  intros H. unfold emitFree. destruct (heap st !! s) as [o|]; [|done].
  destruct (onFree o); [|done]. by apply noEmptyList_freeHandler.
Qed.

Lemma noEmptyList_removeSocket s name host port localAddress now st st' :
  noEmptyList st →
  removeSocket s name host port localAddress now st = Some st' →
  noEmptyList st' ∧ maxSockets st' = maxSockets st ∧ keepAlive st' = keepAlive st.
Proof.
  intros [Hr Hs] Hrm. unfold removeSocket in Hrm.
  set (st0 := removeFromIdleSockets s name (removeFromSockets s name st)) in *.
  assert (noEmptyList st0) as [Hr0 Hs0].
  { subst st0. split; intros n.
    - rewrite requests_removeFromIdleSockets, requests_removeFromSockets. apply Hr.
    - rewrite sockets_removeFromIdleSockets. by apply removeFromSockets_nonempty. }
  assert (maxSockets st0 = maxSockets st) as Hm0
      by (subst st0; by rewrite maxSockets_removeFromIdleSockets, maxSockets_removeFromSockets).
  assert (keepAlive st0 = keepAlive st) as Hk0
      by (subst st0; by rewrite keepAlive_removeFromIdleSockets, keepAlive_removeFromSockets).
  destruct (requests st0 !! name) as [[|req rest]|].
  1,3: by injection Hrm as <-.
  destruct (findOrCreateSocket name host port localAddress (Some req) now st0)
    as [[s' st1]|] eqn:Hf; [|done].
  destruct (findOrCreateSocket_pushes _ _ _ _ _ _ _ _ _ Hf) as (Hs1 & Hr1 & Hm1 & Hk1).
  cbn in Hrm. injection Hrm as <-.
  assert (noEmptyList st1) as H1.
  { split; intros n.
    - rewrite Hr1. apply Hr0.
    - rewrite Hs1. apply insert_push_nonempty. intros; apply Hs0. }
  split; [by apply noEmptyList_emitFree|].
  unfold emitFree. destruct (heap st1 !! s') as [o|]; [|by rewrite Hm1, Hk1].
  destruct (onFree o) as [cl|]; [|by rewrite Hm1, Hk1].
  destruct (freeHandler_cases s' (cl_host cl) (cl_port cl) (cl_localAddress cl) now st1)
    as [(_ & rq & rs & _ & _ & _ & _ & _ & _ & _ & _ & _ & Hk2 & Hm2 & _)|[_ ->]].
  - by rewrite Hk2, Hm2, Hm1, Hk1.
  - destruct (putIdleSocket_fields s' (endpointName (cl_host cl) (cl_port cl) (cl_localAddress cl))
                now (removeFromSockets s'
                       (endpointName (cl_host cl) (cl_port cl) (cl_localAddress cl)) st1))
      as (_ & _ & _ & _ & _ & _ & Hk2 & Hm2 & _).
    by rewrite Hk2, Hm2, maxSockets_removeFromSockets, keepAlive_removeFromSockets, Hm1, Hk1.
Qed.

Lemma noEmptyList_step now ev st st' :
  lengthBelow 0 (maxSockets st) = true →
  noEmptyList st →
  step now ev st = Some st' →
  noEmptyList st' ∧ maxSockets st' = maxSockets st ∧ keepAlive st' = keepAlive st.
Proof.
  intros Hmax [Hr Hs] Hstep. destruct ev as [req host port la|s|s|s|s|]; cbn in Hstep.
  - unfold addRequest in Hstep.
    set (name := endpointName host port la) in *.
    set (st1 := match sockets st !! name with
                | Some _ => st
                | None => set_sockets <[name:=[]]> st
                end) in *.
    assert (requests st1 = requests st ∧ maxSockets st1 = maxSockets st ∧
            keepAlive st1 = keepAlive st) as (Hr1 & Hm1 & Hk1)
        by (subst st1; by destruct (sockets st !! name)).
    assert (∀ n, n ≠ name → sockets st1 !! n ≠ Some []) as Hs1.
    { intros n Hn. subst st1. destruct (sockets st !! name); [apply Hs|].
      cbn [sockets set_sockets]. rewrite lookup_insert_ne by done. apply Hs. }
    destruct (lengthBelow (length (default [] (sockets st1 !! name))) (maxSockets st1))
      eqn:Hlt.
    + destruct (findOrCreateSocket name host port la (Some req) now st1)
        as [[s st2]|] eqn:Hf; [|done].
      destruct (findOrCreateSocket_pushes _ _ _ _ _ _ _ _ _ Hf) as (Hs2 & Hr2 & Hm2 & Hk2).
      cbn in Hstep. injection Hstep as <-.
      cbn [onSocket]. split_and!; [split; intros n|..]; cbn.
      * rewrite Hr2, Hr1. apply Hr.
      * rewrite Hs2. by apply insert_push_nonempty.
      * by rewrite Hm2.
      * by rewrite Hk2.
    + assert (sockets st1 = sockets st) as Hs1'.
      { subst st1. destruct (sockets st !! name) eqn:Es; [done|].
        cbn [sockets set_sockets maxSockets] in Hlt.
        rewrite lookup_insert_eq in Hlt.
        change (lengthBelow 0 (maxSockets st) = false) in Hlt. congruence. }
      injection Hstep as <-.
      split_and!; [split; intros n|..];
        destruct (requests st1 !! name) eqn:Eq; cbn;
        rewrite ?Hs1'; try apply Hs; try done.
      all: apply insert_push_nonempty; intros n' Hn';
        rewrite ?lookup_insert_ne by done; rewrite Hr1; apply Hr.
  - injection Hstep as <-. split; [by apply noEmptyList_emitFree|].
    unfold emitFree. destruct (heap st !! s) as [o|]; [|done].
    destruct (onFree o) as [cl|]; [|done].
    destruct (freeHandler_cases s (cl_host cl) (cl_port cl) (cl_localAddress cl) now st)
      as [(_ & rq & rs & _ & _ & _ & _ & _ & _ & _ & _ & _ & Hk2 & Hm2 & _)|[_ ->]]; [done|].
    destruct (putIdleSocket_fields s (endpointName (cl_host cl) (cl_port cl) (cl_localAddress cl))
                now (removeFromSockets s
                       (endpointName (cl_host cl) (cl_port cl) (cl_localAddress cl)) st))
      as (_ & _ & _ & _ & _ & _ & Hk2 & Hm2 & _).
    by rewrite Hk2, Hm2, maxSockets_removeFromSockets, keepAlive_removeFromSockets.
  - unfold emitClose in Hstep. destruct (heap st !! s) as [o|]; [|by injection Hstep as <-].
    destruct (onClose o); [|by injection Hstep as <-].
    by eapply noEmptyList_removeSocket.
  - unfold emitAgentRemove in Hstep.
    destruct (heap st !! s) as [o|]; [|by injection Hstep as <-].
    destruct (onRemove o) as [cl|]; [|by injection Hstep as <-].
    destruct (removeSocket s (cl_name cl) (cl_host cl) (cl_port cl) (cl_localAddress cl) now st)
      as [st1|] eqn:Hrm; [|done].
    cbn in Hstep. injection Hstep as <-.
    by apply (noEmptyList_removeSocket _ _ _ _ _ _ _ _ (conj Hr Hs)) in Hrm.
  - by injection Hstep as <-.
  - destruct (validationTimer st); [|by injection Hstep as <-].
    destruct (validationTimerCallback_spec now st)
      as (st1 & Hcb & _ & _ & _ & Hr1 & Hs1 & _ & _ & _ & Hk1 & Hm1).
    rewrite Hstep in Hcb. injection Hcb as <-.
    split_and!; [split; intros n|..]; rewrite ?Hr1, ?Hs1; done.
Qed.

(** No reaction assigns [maxSockets] or [keepAlive]. *)
Lemma config_step now ev st st' :
  step now ev st = Some st' →
  maxSockets st' = maxSockets st ∧ keepAlive st' = keepAlive st.
Proof.
  assert (∀ s t st0, maxSockets (emitFree s t st0) = maxSockets st0 ∧
                     keepAlive (emitFree s t st0) = keepAlive st0) as Hfree.
  { intros s t st0. unfold emitFree. destruct (heap st0 !! s) as [o|]; [|done].
    destruct (onFree o) as [cl|]; [|done].
    destruct (freeHandler_cases s (cl_host cl) (cl_port cl) (cl_localAddress cl) t st0)
      as [(_ & rq & rs & _ & _ & _ & _ & _ & _ & _ & _ & _ & Hk2 & Hm2 & _)|[_ ->]]; [done|].
    destruct (putIdleSocket_fields s
                (endpointName (cl_host cl) (cl_port cl) (cl_localAddress cl)) t
                (removeFromSockets s
                   (endpointName (cl_host cl) (cl_port cl) (cl_localAddress cl)) st0))
      as (_ & _ & _ & _ & _ & _ & Hk2 & Hm2 & _).
    by rewrite Hk2, Hm2, maxSockets_removeFromSockets, keepAlive_removeFromSockets. }
  assert (∀ s name host port la st1,
            removeSocket s name host port la now st = Some st1 →
            maxSockets st1 = maxSockets st ∧ keepAlive st1 = keepAlive st) as Hrm.
  { intros s name host port la st1 Hrm. unfold removeSocket in Hrm.
    set (st0 := removeFromIdleSockets s name (removeFromSockets s name st)) in *.
    assert (maxSockets st0 = maxSockets st ∧ keepAlive st0 = keepAlive st) as [Hm0 Hk0].
    { subst st0.
      by rewrite maxSockets_removeFromIdleSockets, maxSockets_removeFromSockets,
        keepAlive_removeFromIdleSockets, keepAlive_removeFromSockets. }
    destruct (requests st0 !! name) as [[|req rest]|].
    1,3: by injection Hrm as <-.
    destruct (findOrCreateSocket name host port la (Some req) now st0)
      as [[s' st2]|] eqn:Hf; [|done].
    destruct (findOrCreateSocket_pushes _ _ _ _ _ _ _ _ _ Hf) as (_ & _ & Hm2 & Hk2).
    cbn in Hrm. injection Hrm as <-.
    destruct (Hfree s' now st2) as [-> ->]. by rewrite Hm2, Hk2. }
  intros Hstep. destruct ev as [req host port la|s|s|s|s|]; cbn in Hstep.
  - unfold addRequest in Hstep.
    set (name := endpointName host port la) in *.
    set (st1 := match sockets st !! name with
                | Some _ => st
                | None => set_sockets <[name:=[]]> st
                end) in *.
    assert (maxSockets st1 = maxSockets st ∧ keepAlive st1 = keepAlive st) as [Hm1 Hk1]
        by (subst st1; by destruct (sockets st !! name)).
    destruct (lengthBelow _ _).
    + destruct (findOrCreateSocket name host port la (Some req) now st1)
        as [[s st2]|] eqn:Hf; [|done].
      destruct (findOrCreateSocket_pushes _ _ _ _ _ _ _ _ _ Hf) as (_ & _ & Hm2 & Hk2).
      cbn in Hstep. injection Hstep as <-. cbn. by rewrite Hm2, Hk2.
    + injection Hstep as <-. by destruct (requests st1 !! name).
  - injection Hstep as <-. apply Hfree.
  - unfold emitClose in Hstep. destruct (heap st !! s) as [o|]; [|by injection Hstep as <-].
    destruct (onClose o); [|by injection Hstep as <-]. by eapply Hrm.
  - unfold emitAgentRemove in Hstep.
    destruct (heap st !! s) as [o|]; [|by injection Hstep as <-].
    destruct (onRemove o) as [cl|]; [|by injection Hstep as <-].
    destruct (removeSocket s (cl_name cl) (cl_host cl) (cl_port cl) (cl_localAddress cl) now st)
      as [st1|] eqn:Hrm1; [|done].
    cbn in Hstep. injection Hstep as <-. by apply Hrm in Hrm1.
  - by injection Hstep as <-.
  - destruct (validationTimer st); [|by injection Hstep as <-].
    destruct (validationTimerCallback_spec now st)
      as (st1 & Hcb & _ & _ & _ & _ & _ & _ & _ & _ & Hk1 & Hm1).
    rewrite Hstep in Hcb. by injection Hcb as <-.
Qed.

Lemma config_reachable options st :
  reachable options st →
  maxSockets st = maxSockets (Agent options) ∧ keepAlive st = keepAlive (Agent options).
Proof.
  induction 1 as [|st now ev st' _ [IHm IHk] _ Hstep]; [done|].
  destruct (config_step now ev st st' Hstep) as [-> ->]. done.
Qed.

Lemma noEmptyList_reachable options st :
  reachable options st →
  lengthBelow 0 (maxSockets (Agent options)) = true →
  noEmptyList st.
Proof.
  intros Hr Hmax. induction Hr as [|st now ev st' Hr IH _ Hstep].
  - split; intros n; cbn; by rewrite lookup_empty.
  - destruct (config_reachable options st Hr) as [Hm _].
    rewrite <- Hm in Hmax.
    by destruct (noEmptyList_step now ev st st' Hmax IH Hstep) as (Hne' & _).
Qed.

(** X9: the "don't leak" branches do their work when [maxSockets] is
    positive.  [maxSockets] and [keepAlive] keep the values that the
    constructor has set.  If [0 < maxSockets], then in every reachable
    state neither [requests] nor [sockets] holds an empty list, so that
    an endpoint with no waiting request and no active socket has no
    property in them.  If not (a negative number was given), the first
    request for an endpoint leaves an empty list in [sockets] and
    waits. *)
Theorem no_empty_list_is_kept options st name :
  reachable options st →
  maxSockets st = maxSockets (Agent options) ∧
  keepAlive st = keepAlive (Agent options) ∧
  (lengthBelow 0 (maxSockets st) = true →
   requests st !! name ≠ Some [] ∧ sockets st !! name ≠ Some [] ∧
   (waitingOf name st = [] → requests st !! name = None) ∧
   (activeOf name st = [] → sockets st !! name = None)) ∧
  (lengthBelow 0 (maxSockets st) = false →
   sockets st !! name = None →
   ∀ req host port localAddress now,
     endpointName host port localAddress = name →
     ∃ st',
       addRequest req host port localAddress now st = Some st' ∧
       sockets st' !! name = Some [] ∧
       waitingOf name st' = waitingOf name st ++ [req]).
Proof.
  intros Hr.
  destruct (config_reachable options st Hr) as [Hm Hk].
  split; [done|]. split; [done|]. split.
  - intros Hmax. rewrite Hm in Hmax.
    destruct (noEmptyList_reachable options st Hr Hmax) as [Hq Hs].
    split_and!; try done.
    + intros Hw. unfold waitingOf in Hw. specialize (Hq name).
      destruct (requests st !! name) as [l|]; [|done]. cbn in Hw. by subst l.
    + intros Ha. unfold activeOf in Ha. specialize (Hs name).
      destruct (sockets st !! name) as [l|]; [|done]. cbn in Ha. by subst l.
  - intros Hmax Hnone req host port la now Hname.
    unfold addRequest. rewrite Hname, Hnone.
    cbn [sockets set_sockets maxSockets]. rewrite lookup_insert_eq.
    change (length (default [] (Some []))) with 0. rewrite Hmax.
    eexists. split; [reflexivity|].
    change (requests (set_sockets <[name:=[]]> st)) with (requests st).
    unfold waitingOf.
    destruct (requests st !! name) as [q|] eqn:Eq;
      cbn [requests sockets set_requests set_sockets];
      rewrite ?Eq, !lookup_insert_eq; done.
Qed.

Lemma no_empty_list_is_kept_witness :
  requests oneIdle !! "h:80" = None ∧ sockets oneIdle !! "h:80" = None.
Proof.
  destruct (no_empty_list_is_kept (mkAgentOptions (Some (integer 1)) None) oneIdle "h:80")
    as (_ & _ & H & _).
  - apply (reachable_run _ [ (0%Z, AddRequest (request 1) "h" "80" None);
                             (0%Z, SocketFree 0) ] oneSocketAgent).
    + apply reachable_init.
    + vm_compute. reflexivity.
  - destruct H as (_ & _ & Hq & Hs); [vm_compute; reflexivity|].
    split; [apply Hq|apply Hs]; vm_compute; reflexivity.
Defined.

(** With [maxSockets = -1] the first request leaves [sockets["h:80"]]
    empty and waits; with [maxSockets = 2.5] three requests are given a
    socket and the fourth waits. *)
Lemma maxSockets_that_is_not_a_positive_integer :
  (∃ st,
     addRequest (request 1) "h" "80" None 0 (Agent (mkAgentOptions (Some (integer (-1))) None))
       = Some st ∧
     sockets st !! "h:80" = Some [] ∧ waitingOf "h:80" st = [request 1]) ∧
  (∃ st,
     run [ (0%Z, AddRequest (request 1) "h" "80" None);
           (0%Z, AddRequest (request 2) "h" "80" None);
           (0%Z, AddRequest (request 3) "h" "80" None);
           (0%Z, AddRequest (request 4) "h" "80" None) ]
         (Agent (mkAgentOptions (Some (Finite (Qmake 5 2))) None)) = Some st ∧
     activeOf "h:80" st = [0; 1; 2] ∧ waitingOf "h:80" st = [request 4]).
Proof.
  split.
  - exists (default oneSocketAgent
              (addRequest (request 1) "h" "80" None 0
                 (Agent (mkAgentOptions (Some (integer (-1))) None)))).
    split_and!; vm_compute; reflexivity.
  - exists (stateAfter [ (0%Z, AddRequest (request 1) "h" "80" None);
                         (0%Z, AddRequest (request 2) "h" "80" None);
                         (0%Z, AddRequest (request 3) "h" "80" None);
                         (0%Z, AddRequest (request 4) "h" "80" None) ]
              (Agent (mkAgentOptions (Some (Finite (Qmake 5 2))) None))).
    split_and!; vm_compute; reflexivity.
Qed.

(** ** Every request is served once or waits *)










(** ** The timer callback sweeps every endpoint *)

Lemma isDestroyed_destroyAll removed st x :
  isDestroyed x (destroyAll removed st) = true ↔
  isDestroyed x st = true ∨ (is_Some (heap st !! x) ∧ x ∈ socket <$> removed).
Proof.
  unfold isDestroyed. rewrite heap_destroyAll.
  destruct (heap st !! x) as [o|]; cbn.
  - rewrite orb_true_iff, bool_decide_eq_true. split; [|tauto].
    intros [H|H]; [by left|right]. split; [by eexists|done].
  - split; [done|]. intros [H|[[o H] _]]; done.
Qed.

(** The sockets that the loop of the timer callback destroys. *)
Lemma validateAll_destroyed names now : ∀ socketsLeft st r st' x,
  NoDup names →
  validateAll names now socketsLeft st = Some (r, st') →
  (isDestroyed x st' = true ↔
   isDestroyed x st = true ∨
   (is_Some (heap st !! x) ∧
    ∃ n, n ∈ names ∧ x ∈ socket <$> expiredPrefix now (idleOf n st))) ∧
  (is_Some (heap st' !! x) ↔ is_Some (heap st !! x)).
Proof.
  induction names as [|name names IH]; intros acc st r st' x Hnd Hv; cbn in Hv.
  - injection Hv as _ <-. split; [|done]. split; [by left|].
    intros [H|[_ (n & Hn & _)]]; [done|]. by apply elem_of_nil in Hn.
  - apply NoDup_cons in Hnd as [Hname Hnd].
    destruct (idleSockets st !! name) as [l|] eqn:El.
    + destruct (validateIdle_spec name now st l El) as (st1 & Hv1 & Hi & Hh & _).
      rewrite Hv1 in Hv. cbn in Hv.
      destruct (IH _ st1 r st' x Hnd Hv) as [Hd Hs].
      assert (idleOf name st = l) as Hl by (unfold idleOf; by rewrite El).
      assert (∀ n, n ∈ names → idleOf n st1 = idleOf n st) as Hsame.
      { intros n Hn. unfold idleOf. rewrite Hi, lookup_partial_alter_ne; [done|].
        by intros ->. }
      assert (is_Some (heap st1 !! x) ↔ is_Some (heap st !! x)) as Hs1.
      { rewrite Hh, heap_destroyAll, fmap_is_Some. done. }
      assert (isDestroyed x st1 = true ↔
              isDestroyed x st = true ∨
              (is_Some (heap st !! x) ∧ x ∈ socket <$> expiredPrefix now l)) as Hd1.
      { unfold isDestroyed at 1. rewrite Hh. apply isDestroyed_destroyAll. }
      split; [|by rewrite Hs, Hs1].
      rewrite Hd, Hd1, Hs1. split.
      * intros [[H|[H1 H2]]|[H1 (n & Hn & H2)]]; [by left| |].
        -- right. split; [done|]. exists name. split; [by left|by rewrite Hl].
        -- right. split; [done|]. exists n. split; [by right|]. by rewrite <- Hsame.
      * intros [H|[H1 (n & [->|Hn]%elem_of_cons & H2)]]; [left; by left| |].
        -- left. right. by rewrite <- Hl.
        -- right. split; [done|]. exists n. split; [done|]. by rewrite Hsame.
    + destruct (IH _ st r st' x Hnd Hv) as [Hd Hs]. split; [|done].
      rewrite Hd. split.
      * intros [H|[H1 (n & Hn & H2)]]; [by left|].
        right. split; [done|]. exists n. split; [by right|done].
      * intros [H|[H1 (n & [->|Hn]%elem_of_cons & H2)]]; [by left| |].
        -- unfold idleOf in H2. rewrite El in H2. cbn in H2.
           by apply elem_of_nil in H2.
        -- right. split; [done|]. by exists n.
Qed.

Lemma validationTimerCallback_destroyed now st st' x :
  validationTimerCallback now st = Some st' →
  isDestroyed x st' = true ↔
  isDestroyed x st = true ∨
  (is_Some (heap st !! x) ∧ ∃ n, x ∈ socket <$> expiredPrefix now (idleOf n st)).
Proof.
  intros Hcb. unfold validationTimerCallback in Hcb.
  set (st0 := set_validationTimer false st) in *.
  destruct (validateAll (map fst (map_to_list (idleSockets st0))) now 0 st0)
    as [[k st2]|] eqn:Hva; [|done].
  cbn in Hcb.
  assert (heap st' = heap st2) as Hh.
  { case_bool_decide; injection Hcb as <-; [|done].
    unfold setupValidator. by destruct (validationTimer st2). }
  assert (NoDup (map fst (map_to_list (idleSockets st0)))) as Hnd
      by apply NoDup_fst_map_to_list.
  destruct (validateAll_destroyed _ _ _ _ _ _ x Hnd Hva) as [Hd _].
  unfold isDestroyed at 1. rewrite Hh. fold (isDestroyed x st2). rewrite Hd.
  change (isDestroyed x st0) with (isDestroyed x st).
  change (heap st0) with (heap st).
  split; (intros [H|[H1 H2]]; [by left|right; split; [done|]]).
  - destruct H2 as (n & _ & H2). by exists n.
  - destruct H2 as (n & H2). exists n. split; [|done].
    change (idleOf n st0) with (idleOf n st) in *. unfold idleOf in H2.
    destruct (idleSockets st !! n) as [l|] eqn:El.
    + apply list_elem_of_fmap. exists (n, l). split; [done|].
      by apply elem_of_map_to_list.
    + cbn in H2. by apply elem_of_nil in H2.
Qed.

(** X11: one callback of the validation timer validates every endpoint.
    With a clock that never runs backwards it leaves, for each endpoint,
    exactly the idle entries whose expiry has not passed, destroys
    exactly the sockets of the entries whose expiry has passed, and sets
    the timer again exactly when an entry is left; it changes no queue
    and no list of active sockets, gives no socket to a request and
    creates no connection. *)
Theorem timer_callback_sweeps_every_endpoint options t st now :
  reachableAt options t st →
  validationTimer st = true →
  ∃ st',
    step now TimerFires st = Some st' ∧
    (∀ n, idleOf n st' = filter (λ e, ¬ expired now e) (idleOf n st)) ∧
    (∀ x, isDestroyed x st' = true ↔
          isDestroyed x st = true ∨
          ∃ n e, e ∈ idleOf n st ∧ expired now e ∧ socket e = x) ∧
    (validationTimer st' = true ↔ ∃ n e, e ∈ idleOf n st ∧ ¬ expired now e) ∧
    requests st' = requests st ∧ sockets st' = sockets st ∧
    assigned st' = assigned st ∧ created st' = created st.
Proof.
  intros Hr Ht.
  pose proof (Timed_reachableAt options t st Hr) as HT.
  pose proof (Inv_reachable options st (reachableAt_reachable options t st Hr)) as HI.
  destruct (validationTimerCallback_spec now st)
    as (st' & Hcb & Hi & Ht' & _ & Hq & Hs & _ & Ha & Hc & _).
  assert (∀ n, idleOf n st' = filter (λ e, ¬ expired now e) (idleOf n st)) as Hidle.
  { intros n. destruct (HT n) as [Hsorted _].
    destruct (expiredPrefix_sorted now (idleOf n st) Hsorted) as [_ Hk].
    rewrite <- Hk. unfold idleOf. rewrite Hi, lookup_omap.
    destruct (idleSockets st !! n) as [l|]; cbn; [|done].
    apply idleOf_validatedEntry. }
  exists st'. split; [cbn; by rewrite Ht|]. split; [done|]. split_and!; try done.
  - intros x. rewrite (validationTimerCallback_destroyed now st st' x Hcb). split.
    + intros [H|[_ (n & (e & -> & He)%list_elem_of_fmap)]]; [by left|].
      right. exists n, e. destruct (HT n) as [Hsorted _].
      destruct (expiredPrefix_sorted now (idleOf n st) Hsorted) as [Hp _].
      rewrite Hp in He. apply list_elem_of_filter in He as [He1 He2]. done.
    + intros [H|(n & e & He & Hexp & <-)]; [by left|]. right. split.
      * destruct (inv_listens st HI n (socket e)) as (o & _ & -> & _); [|by eexists].
        apply poolOf_elem. right. by apply list_elem_of_fmap_2.
      * exists n. apply list_elem_of_fmap_2. destruct (HT n) as [Hsorted _].
        destruct (expiredPrefix_sorted now (idleOf n st) Hsorted) as [Hp _].
        rewrite Hp. by apply list_elem_of_filter.
  - rewrite Ht', bool_decide_eq_true. split.
    + intros Hpos. destruct (decide (totalIdle st' = 0)) as [Hz|Hnz].
      * lia.
      * assert (¬ ∀ n, idleOf n st' = []) as Hne by (by rewrite <- totalIdle_zero).
        destruct (decide (Exists (λ n, idleOf n st' ≠ [])
                            (map fst (map_to_list (idleSockets st')))))
          as [(n & _ & Hn)%Exists_exists|Hno].
        -- rewrite Hidle in Hn.
           destruct (filter (λ e, ¬ expired now e) (idleOf n st)) as [|e r] eqn:Ef; [done|].
           assert (e ∈ filter (λ e, ¬ expired now e) (idleOf n st)) as Hin
               by (rewrite Ef; by left).
           apply list_elem_of_filter in Hin as [Hin1 Hin2]. by exists n, e.
        -- exfalso. apply Hne. intros n.
           destruct (decide (idleOf n st' = [])) as [|Hn]; [done|].
           exfalso. apply Hno, Exists_exists. exists n. split; [|done].
           unfold idleOf in Hn. destruct (idleSockets st' !! n) as [l|] eqn:El; [|done].
           apply list_elem_of_fmap. exists (n, l). split; [done|].
           by apply elem_of_map_to_list.
    + intros (n & e & He & Hne).
      destruct (decide (totalIdle st' = 0)) as [Hz|Hnz]; [|lia].
      rewrite totalIdle_zero in Hz. specialize (Hz n). rewrite Hidle in Hz.
      assert (e ∈ filter (λ e, ¬ expired now e) (idleOf n st)) as Hin
          by (by apply list_elem_of_filter).
      rewrite Hz in Hin. by apply elem_of_nil in Hin.
Qed.

Lemma timer_callback_sweeps_every_endpoint_witness :
  ∃ st',
    step 10003 TimerFires twoIdle = Some st' ∧
    (∀ n, idleOf n st' = filter (λ e, ¬ expired 10003 e) (idleOf n twoIdle)) ∧
    (∀ x, isDestroyed x st' = true ↔
          isDestroyed x twoIdle = true ∨
          ∃ n e, e ∈ idleOf n twoIdle ∧ expired 10003 e ∧ socket e = x) ∧
    (validationTimer st' = true ↔ ∃ n e, e ∈ idleOf n twoIdle ∧ ¬ expired 10003 e) ∧
    requests st' = requests twoIdle ∧ sockets st' = sockets twoIdle ∧
    assigned st' = assigned twoIdle ∧ created st' = created twoIdle.
Proof.
  apply (timer_callback_sweeps_every_endpoint (mkAgentOptions (Some (integer 2)) None) 5 twoIdle 10003).
  - apply (reachableAt_run _ [ (0%Z, AddRequest (request 1) "h" "80" None);
                               (0%Z, AddRequest (request 2) "h" "80" None);
                               (0%Z, SocketFree 0);
                               (5%Z, SocketFree 1) ] 0 twoSocketAgent).
    + apply reachableAt_init.
    + vm_compute. reflexivity.
    + vm_compute. reflexivity.
  - vm_compute. reflexivity.
Defined.

(** ** The limit on active sockets along a run *)

Lemma withinLimit_run evs : ∀ st st',
  withinLimit st →
  closesOnlyActive evs st →
  run evs st = Some st' →
  withinLimit st'.
Proof.
  induction evs as [|[now ev] evs IH]; intros st st' Hw Hcl Hrun; cbn in Hrun, Hcl.
  - by injection Hrun as <-.
  - destruct (enabled ev st); [|done].
    destruct (step now ev st) as [st1|] eqn:Hstep; [|done]. cbn in Hrun.
    destruct Hcl as [Hcl1 Hcl2]. apply (IH st1); [|done|done].
    by eapply withinLimit_step.
Qed.

(** X12: the limit holds as long as sockets close while they are in use.
    After a run from the constructor in which every 'close' and every
    'agentRemove' arrives for a socket that is active at that moment,
    every index of a list of active sockets is below the [maxSockets]
    that the constructor has set; when that is a whole number that is
    not negative, no endpoint has more active sockets than it. *)
Theorem maxSockets_holds_when_closes_are_timely options evs st name :
  run evs (Agent options) = Some st →
  closesOnlyActive evs (Agent options) →
  (∀ k, k < length (activeOf name st) →
        lengthBelow k (maxSockets (Agent options)) = true) ∧
  (∀ m, maxSockets (Agent options) = integer m → (0 ≤ m)%Z →
        (Z.of_nat (length (activeOf name st)) ≤ m)%Z).
Proof.
  intros Hrun Hcl.
  assert (reachable options st) as Hr
      by (apply (reachable_run options evs (Agent options)); [constructor|done]).
  destruct (config_reachable options st Hr) as (Hm & _).
  assert (withinLimit st) as Hw.
  { apply (withinLimit_run evs (Agent options)); [|done|done].
    intros n k. unfold activeOf. cbn [sockets Agent]. rewrite lookup_empty. cbn. lia. }
  assert (∀ k, k < length (activeOf name st) →
               lengthBelow k (maxSockets (Agent options)) = true) as Hidx.
  { intros k Hk. rewrite <- Hm. by apply (Hw name). }
  split; [done|]. intros m Hmax Hpos.
  destruct (length (activeOf name st)) as [|k] eqn:Hlen; [lia|].
  specialize (Hidx k ltac:(lia)).
  rewrite Hmax, lengthBelow_integer in Hidx. apply bool_decide_eq_true in Hidx. lia.
Qed.

Lemma maxSockets_holds_when_closes_are_timely_witness :
  length (activeOf "h:80"
            (stateAfter [ (0%Z, AddRequest (request 1) "h" "80" None);
                          (0%Z, AddRequest (request 2) "h" "80" None);
                          (1%Z, SocketClose 0) ] oneSocketAgent)) ≤ 1.
Proof.
  destruct (maxSockets_holds_when_closes_are_timely (mkAgentOptions (Some (integer 1)) None)
              [ (0%Z, AddRequest (request 1) "h" "80" None);
                (0%Z, AddRequest (request 2) "h" "80" None);
                (1%Z, SocketClose 0) ]
              (stateAfter [ (0%Z, AddRequest (request 1) "h" "80" None);
                            (0%Z, AddRequest (request 2) "h" "80" None);
                            (1%Z, SocketClose 0) ] oneSocketAgent) "h:80") as [_ H].
  3: { specialize (H 1%Z eq_refl ltac:(lia)). lia. }
  - vm_compute. reflexivity.
  - assert (step 0 (AddRequest (request 1) "h" "80" None)
              (Agent (mkAgentOptions (Some (integer 1)) None)) =
            Some (stateAfter [ (0%Z, AddRequest (request 1) "h" "80" None) ] oneSocketAgent))
      as H1 by (vm_compute; reflexivity).
    assert (step 0 (AddRequest (request 2) "h" "80" None)
              (stateAfter [ (0%Z, AddRequest (request 1) "h" "80" None) ] oneSocketAgent) =
            Some oneActiveOneWaiting)
      as H2 by (vm_compute; reflexivity).
    cbn [closesOnlyActive closesActive]. rewrite H1, H2.
    split; [exact I|]. split; [exact I|].
    split; [|destruct (step 1 (SocketClose 0) oneActiveOneWaiting); exact I].
    intros o cl Ho Hcl.
    assert (heap oneActiveOneWaiting !! 0 =
            Some (mkSocketObj false (Some (mkClosure "h:80" "h" "80" None))
                    (Some (mkClosure "h:80" "h" "80" None))
                    (Some (mkClosure "h:80" "h" "80" None)))) as E
        by (vm_compute; reflexivity).
    rewrite E in Ho. apply (inj Some) in Ho. subst o.
    cbn [onClose onRemove] in Hcl.
    assert (cl = mkClosure "h:80" "h" "80" None) as ->
        by (destruct Hcl as [Hcl|Hcl]; by apply (inj Some) in Hcl).
    cbn [cl_name].
    assert (activeOf "h:80" oneActiveOneWaiting = [0]) as -> by (vm_compute; reflexivity).
    by left.
Defined.

(** ** An event concerns one endpoint *)

Lemma untouched_refl n st : untouched n st st.
Proof. by unfold untouched. Qed.

Lemma untouched_trans n st1 st2 st3 :
  untouched n st1 st2 → untouched n st2 st3 → untouched n st1 st3.
Proof. unfold untouched. intros (-> & -> & ->) (-> & -> & ->). done. Qed.

Lemma untouched_freeHandler s host port localAddress now st n :
  n ≠ endpointName host port localAddress →
  untouched n st (freeHandler s host port localAddress now st).
Proof.
  intros Hn.
  destruct (freeHandler_cases s host port localAddress now st)
    as [(_ & req & rest & _ & _ & Hw & _ & Hs & Hi & _)|[_ ->]].
  - unfold untouched, activeOf, idleOf. rewrite Hs, Hi, Hw, decide_False by done. done.
  - set (name := endpointName host port localAddress) in *.
    destruct (putIdleSocket_fields s name now (removeFromSockets s name st))
      as (Hr & Hs & _).
    unfold untouched. split_and!.
    + unfold activeOf at 1. rewrite Hs. fold (activeOf n (removeFromSockets s name st)).
      by rewrite activeOf_removeFromSockets, decide_False.
    + by rewrite idleOf_putIdleSocket, decide_False, idleOf_removeFromSockets.
    + unfold waitingOf. by rewrite Hr, requests_removeFromSockets.
Qed.

Lemma untouched_findOrCreateSocket name host port localAddress req now st s st' n :
  n ≠ name →
  findOrCreateSocket name host port localAddress req now st = Some (s, st') →
  untouched n st st'.
Proof.
  intros Hn Hf.
  destruct (findOrCreateSocket_views name host port localAddress req now st)
    as [[Hthrows _]|(s0 & st0 & Hf0 & Hidle & Hact & Hr & _)]; [throws Hthrows|].
  rewrite Hf in Hf0. injection Hf0 as <- <-.
  unfold untouched. rewrite Hidle, Hact, !decide_False by done.
  unfold waitingOf. by rewrite Hr.
Qed.

Lemma untouched_removeSocket s name host port localAddress now st st' n :
  Inv st →
  name = endpointName host port localAddress →
  n ≠ name →
  removeSocket s name host port localAddress now st = Some st' →
  untouched n st st'.
Proof.
  intros HI Hname Hn Hrm. unfold removeSocket in Hrm.
  set (st0 := removeFromIdleSockets s name (removeFromSockets s name st)) in *.
  assert (untouched n st st0) as H0.
  { subst st0. unfold untouched.
    rewrite activeOf_removeFromIdleSockets, activeOf_removeFromSockets,
      idleOf_removeFromIdleSockets, idleOf_removeFromSockets, !decide_False by done.
    unfold waitingOf.
    by rewrite requests_removeFromIdleSockets, requests_removeFromSockets. }
  assert (Inv st0) as HI0 by by apply Inv_removeFromIdleSockets, Inv_removeFromSockets.
  destruct (requests st0 !! name) as [[|req rest]|].
  1,3: by injection Hrm as <-.
  destruct (findOrCreateSocket name host port localAddress (Some req) now st0)
    as [[s' st1]|] eqn:Hf; [|done].
  cbn in Hrm. injection Hrm as <-.
  destruct (Inv_findOrCreateSocket _ _ _ _ _ _ _ _ _ HI0 Hname Hf) as (HI1 & Hs' & _).
  destruct (emitFree_tracked s' name now st1 HI1 Hs') as (cl & -> & Hcl).
  apply (untouched_trans n st st0); [done|].
  apply (untouched_trans n st0 st1); [by eapply untouched_findOrCreateSocket|].
  apply untouched_freeHandler. by rewrite Hcl.
Qed.

(** X13: endpoints do not interfere.  An event other than the timer
    changes the queue, the active sockets and the idle sockets of no
    endpoint but the one it concerns: the endpoint named by the host,
    port and local address given to [addRequest], or the one whose name
    the listeners of the socket have captured; a socket event without
    listeners and the destruction of a socket change them for no
    endpoint. *)
Theorem events_concern_one_endpoint options st now ev st' n :
  reachable options st →
  step now ev st = Some st' →
  ev ≠ TimerFires →
  endpointOf ev st ≠ Some n →
  activeOf n st' = activeOf n st ∧ idleOf n st' = idleOf n st ∧
  waitingOf n st' = waitingOf n st.
Proof.
  intros Hr Hstep Hev Hn.
  pose proof (Inv_reachable options st Hr) as HI.
  change (untouched n st st').
  destruct ev as [req host port la|s|s|s|s|]; cbn in Hstep, Hn; [| | | | |done].
  - assert (n ≠ endpointName host port la) as Hne by congruence.
    unfold addRequest in Hstep.
    set (name := endpointName host port la) in *.
    set (st1 := match sockets st !! name with
                | Some _ => st
                | None => set_sockets <[name:=[]]> st
                end) in *.
    assert (untouched n st st1) as H1.
    { subst st1. destruct (sockets st !! name); [apply untouched_refl|].
      unfold untouched, activeOf. cbn. by rewrite lookup_insert_ne. }
    apply (untouched_trans n st st1); [done|].
    destruct (lengthBelow _ _) eqn:Hlt.
    + destruct (findOrCreateSocket name host port la (Some req) now st1)
        as [[s st2]|] eqn:Hf; [|done].
      cbn in Hstep. injection Hstep as <-.
      by apply (untouched_findOrCreateSocket _ _ _ _ _ _ _ _ _ n) in Hf.
    + injection Hstep as <-.
      unfold untouched, activeOf, idleOf, waitingOf.
      destruct (requests st1 !! name) eqn:Eq;
        cbn [requests sockets idleSockets set_requests];
        rewrite !lookup_insert_ne by done; done.
  - injection Hstep as <-. unfold emitFree, nameOfSocket in *.
    destruct (heap st !! s) as [o|] eqn:Ho; [|apply untouched_refl].
    destruct (onFree o) as [cl|] eqn:Hfr; [|apply untouched_refl].
    cbn in Hn. rewrite ?Hfr in Hn. cbn in Hn. apply untouched_freeHandler. intros ->. by apply Hn.
  - unfold emitClose in Hstep. unfold nameOfSocket in Hn.
    destruct (heap st !! s) as [o|] eqn:Ho; [|injection Hstep as <-; apply untouched_refl].
    destruct (inv_closures st HI s o Ho) as (Hcf & _ & Hwf).
    rewrite Hcf in Hstep. cbn in Hn.
    destruct (onFree o) as [cl|] eqn:Hfr; [|injection Hstep as <-; apply untouched_refl].
    cbn in Hn. rewrite ?Hfr in Hn. cbn in Hn. specialize (Hwf cl eq_refl).
    apply (untouched_removeSocket _ _ _ _ _ _ _ _ n HI Hwf) in Hstep; [done|].
    intros ->. apply Hn. by rewrite Hwf.
  - unfold emitAgentRemove in Hstep. unfold nameOfSocket in Hn.
    destruct (heap st !! s) as [o|] eqn:Ho; [|injection Hstep as <-; apply untouched_refl].
    destruct (inv_closures st HI s o Ho) as (_ & Hrf & Hwf).
    rewrite Hrf in Hstep. cbn in Hn.
    destruct (onFree o) as [cl|] eqn:Hfr; [|injection Hstep as <-; apply untouched_refl].
    cbn in Hn. rewrite ?Hfr in Hn. cbn in Hn. specialize (Hwf cl eq_refl).
    destruct (removeSocket s (cl_name cl) (cl_host cl) (cl_port cl) (cl_localAddress cl) now st)
      as [st1|] eqn:Hrm; [|done].
    cbn in Hstep. injection Hstep as <-.
    apply (untouched_removeSocket _ _ _ _ _ _ _ _ n HI Hwf) in Hrm; [done|].
    intros ->. apply Hn. by rewrite Hwf.
  - injection Hstep as <-. by unfold untouched.
Qed.

Lemma events_concern_one_endpoint_witness :
  activeOf "g:80" (stateAfter [ (1%Z, SocketClose 0) ] oneActiveOneWaiting) =
    activeOf "g:80" oneActiveOneWaiting ∧
  idleOf "g:80" (stateAfter [ (1%Z, SocketClose 0) ] oneActiveOneWaiting) =
    idleOf "g:80" oneActiveOneWaiting ∧
  waitingOf "g:80" (stateAfter [ (1%Z, SocketClose 0) ] oneActiveOneWaiting) =
    waitingOf "g:80" oneActiveOneWaiting.
Proof.
  apply (events_concern_one_endpoint (mkAgentOptions (Some (integer 1)) None)
           oneActiveOneWaiting 1 (SocketClose 0)).
  - apply (reachable_run _ [ (0%Z, AddRequest (request 1) "h" "80" None);
                             (0%Z, AddRequest (request 2) "h" "80" None) ] oneSocketAgent).
    + apply reachable_init.
    + vm_compute. reflexivity.
  - vm_compute. reflexivity.
  - discriminate.
  - assert (endpointOf (SocketClose 0) oneActiveOneWaiting = Some "h:80") as ->
        by (vm_compute; reflexivity).
    discriminate.
Defined.

(** ** The name of an endpoint *)

Lemma append_cons c s t : String c s +:+ t = String c (s +:+ t).
Proof. reflexivity. Qed.

Lemma append_assoc s t u : (s +:+ t) +:+ u = s +:+ (t +:+ u).
Proof. induction s as [|c s IH]; [done|]. by rewrite !append_cons, IH. Qed.

Lemma hasColon_append s t : hasColon (s +:+ t) = hasColon s || hasColon t.
Proof.
  induction s as [|c s IH]; [done|].
  rewrite append_cons. cbn [hasColon]. by rewrite IH, orb_assoc.
Qed.

Lemma append_colon_inj a a' r r' :
  hasColon a = false → hasColon a' = false →
  a +:+ ":" +:+ r = a' +:+ ":" +:+ r' →
  a = a' ∧ r = r'.
Proof.
  revert a'. induction a as [|c a IH]; intros [|c' a'] Ha Ha' Heq;
    cbn [hasColon] in Ha, Ha'.
  - change (String ":" r = String ":" r') in Heq. by injection Heq as ->.
  - change (String ":" r = String c' (a' +:+ ":" +:+ r')) in Heq.
    injection Heq as <- _. done.
  - change (String c (a +:+ ":" +:+ r) = String ":" r') in Heq.
    injection Heq as -> _. done.
  - change (String c (a +:+ ":" +:+ r) = String c' (a' +:+ ":" +:+ r')) in Heq.
    injection Heq as -> Heq.
    apply orb_false_iff in Ha as [_ Ha]. apply orb_false_iff in Ha' as [_ Ha'].
    destruct (IH a' Ha Ha' Heq) as [-> ->]. done.
Qed.

Lemma endpointName_truthy host port localAddress :
  endpointName host port localAddress =
  match truthy localAddress with
  | Some la => host +:+ ":" +:+ port +:+ ":" +:+ la
  | None => host +:+ ":" +:+ port
  end.
Proof.
  unfold endpointName, truthy. destruct localAddress as [la|]; [|done].
  case_bool_decide; [done|]. by rewrite !append_assoc.
Qed.

(** X14: the name of an endpoint identifies it when host and port contain
    no colon.  Two calls compute the same name exactly when they give the
    same host, the same port and the same local address, where an absent
    and an empty local address count as the same. *)
Theorem endpointName_identifies_the_endpoint host port la host' port' la' :
  hasColon host = false → hasColon host' = false →
  hasColon port = false → hasColon port' = false →
  endpointName host port la = endpointName host' port' la' ↔
  host = host' ∧ port = port' ∧ truthy la = truthy la'.
Proof.
  intros Hh Hh' Hp Hp'. rewrite !endpointName_truthy. split.
  - intros Heq.
    destruct (truthy la) as [a|], (truthy la') as [a'|].
    + apply append_colon_inj in Heq as [-> Heq]; [|done|done].
      apply append_colon_inj in Heq as [-> ->]; done.
    + apply append_colon_inj in Heq as [-> Heq]; [|done|done].
      rewrite <- Heq, hasColon_append in Hp'. cbn in Hp'.
      by rewrite orb_true_r in Hp'.
    + apply append_colon_inj in Heq as [-> Heq]; [|done|done].
      rewrite Heq, hasColon_append in Hp. cbn in Hp.
      by rewrite orb_true_r in Hp.
    + apply append_colon_inj in Heq as [-> ->]; done.
  - by intros (-> & -> & ->).
Qed.

Lemma endpointName_identifies_the_endpoint_witness :
  endpointName "h" "80" None = endpointName "h" "80" (Some "") ↔
  "h" = "h" ∧ "80" = "80" ∧ truthy None = truthy (Some "").
Proof.
  apply (endpointName_identifies_the_endpoint "h" "80" None "h" "80" (Some ""));
    reflexivity.
Defined.

(** X15: a colon in the port makes names collide.  The endpoint with
    port [port:a] and no local address has the name of the endpoint with
    port [port] and local address [a], so the two share one pool: a
    request for the second is given an idle socket that was parked for
    the first, and no connection is created for it. *)
Theorem endpointName_collides host port a req now st l e rest :
  a ≠ "" →
  idleSockets st !! endpointName host (port +:+ ":" +:+ a) None = Some l →
  keptSuffix now l = e :: rest →
  lengthBelow (length (activeOf (endpointName host port (Some a)) st)) (maxSockets st)
    = true →
  endpointName host (port +:+ ":" +:+ a) None = endpointName host port (Some a) ∧
  ∃ st',
    addRequest req host port (Some a) now st = Some st' ∧
    assigned st' = assigned st ++ [(req, socket e)] ∧
    created st' = created st.
Proof.
  intros Ha Hl Hk Hlt.
  assert (endpointName host (port +:+ ":" +:+ a) None = endpointName host port (Some a))
    as Hname.
  { rewrite !endpointName_truthy. unfold truthy. by rewrite bool_decide_eq_false_2. }
  split; [done|]. rewrite Hname in Hl.
  unfold addRequest. set (name := endpointName host port (Some a)) in *.
  set (st1 := match sockets st !! name with
              | Some _ => st
              | None => set_sockets <[name:=[]]> st
              end).
  assert (idleSockets st1 = idleSockets st ∧ assigned st1 = assigned st ∧
          created st1 = created st ∧ maxSockets st1 = maxSockets st) as (Hi1 & Ha1 & Hc1 & Hm1)
      by (subst st1; by destruct (sockets st !! name)).
  assert (default [] (sockets st1 !! name) = activeOf name st) as Hact.
  { subst st1. unfold activeOf. destruct (sockets st !! name) eqn:Es; [by rewrite Es|].
    cbn. by rewrite lookup_insert_eq. }
  rewrite Hact, Hm1, Hlt.
  rewrite <- Hi1 in Hl.
  destruct (findOrCreateSocket_reuse name host port (Some a) (Some req) now st1 l e rest Hl Hk)
    as (st2 & -> & _ & _ & _ & _ & _ & Ha2 & Hc2 & _).
  cbn. eexists. split; [reflexivity|]. cbn. by rewrite Ha2, Hc2, Ha1, Hc1.
Qed.

Lemma endpointName_collides_witness :
  let st := stateAfter [ (0%Z, AddRequest (request 1) "h" "80:lo" None);
                         (0%Z, SocketFree 0) ] oneSocketAgent in
  endpointName "h" ("80" +:+ ":" +:+ "lo") None = endpointName "h" "80" (Some "lo") ∧
  ∃ st',
    addRequest (request 2) "h" "80" (Some "lo") 1 st = Some st' ∧
    assigned st' = assigned st ++ [(request 2, 0)] ∧
    created st' = created st.
Proof.
  intros st.
  apply (endpointName_collides "h" "80" "lo" (request 2) 1 st
           [mkIdle 0 10000] (mkIdle 0 10000) []).
  - discriminate.
  - vm_compute. reflexivity.
  - vm_compute. reflexivity.
  - vm_compute. reflexivity.
Defined.

(** ** The options of a new connection *)

Lemma hasLineTerminator_cons c h :
  hasLineTerminator (String c h) = false → hasLineTerminator h = false.
Proof. cbn [hasLineTerminator]. by intros [_ ?]%orb_false_iff. Qed.

Lemma stripPort_no_colon h :
  hasLineTerminator h = false → hasColon (stripPort h) = false.
Proof.
  induction h as [|c h IH]; [done|]. intros Hlt.
  pose proof (hasLineTerminator_cons c h Hlt) as Hlt'.
  cbn [stripPort]. rewrite Hlt'. cbn [negb]. rewrite andb_true_r.
  case_bool_decide as Hc; [done|].
  cbn [hasColon]. rewrite (bool_decide_eq_false_2 _ Hc). by apply IH.
Qed.

Lemma stripPort_prefix h :
  hasLineTerminator h = false →
  stripPort h = h ∨ ∃ rest, h = stripPort h +:+ ":" +:+ rest.
Proof.
  induction h as [|c h IH]; [by left|]. intros Hlt.
  pose proof (hasLineTerminator_cons c h Hlt) as Hlt'.
  cbn [stripPort]. rewrite Hlt'. cbn [negb]. rewrite andb_true_r.
  case_bool_decide as Hc.
  - right. exists h. by subst c.
  - destruct (IH Hlt') as [->|[rest Hrest]]; [by left|].
    right. exists rest. by rewrite append_cons, <- Hrest.
Qed.

(** X16: the connection that [findOrCreateSocket] creates.  When no idle
    socket of the endpoint is valid, one connection is created with the
    port, the host and the local address given; the new socket is not
    destroyed and carries the three listeners with the name captured.
    The server name is the host, unless the Host header of the request
    is truthy.  A header that is a string is cut at its leftmost colon
    that no line terminator follows: for a header without line
    terminator the server name is the part before the first colon.  For
    a truthy header that is not a string [findOrCreateSocket] throws,
    and nothing is created. *)
Theorem new_connection_options name host port localAddress req now st :
  keptSuffix now (idleOf name st) = [] →
  match servernameFor host req with
  | Some servername =>
      ∃ st',
        findOrCreateSocket name host port localAddress req now st
          = Some (nextSocket st, st') ∧
        created st' = created st ++ [mkConnOptions port host localAddress servername] ∧
        hasListeners (nextSocket st) (mkClosure name host port localAddress) st' ∧
        isDestroyed (nextSocket st) st' = false
  | None => findOrCreateSocket name host port localAddress req now st = None
  end ∧
  (servernameFor host req = None ↔
   ∃ r, req = Some r ∧ req_hostHeader r = Some (HeaderOther true)) ∧
  (req = None ∨
   (∃ r, req = Some r ∧
         (req_hostHeader r = None ∨ req_hostHeader r = Some (HeaderString "") ∨
          req_hostHeader r = Some (HeaderOther false))) →
   servernameFor host req = Some host) ∧
  (∀ r h, req = Some r → req_hostHeader r = Some (HeaderString h) → h ≠ "" →
     servernameFor host req = Some (stripPort h) ∧
     (hasLineTerminator h = false →
      hasColon (stripPort h) = false ∧
      (stripPort h = h ∨ ∃ rest, h = stripPort h +:+ ":" +:+ rest))).
Proof.
  intros Hk. split_and!.
  - destruct (findOrCreateSocket_views name host port localAddress req now st)
      as [(Hthrows & _ & Hsn)
         |(s & st' & Hf & _ & _ & _ & _ & _ & _ & _ & Hcase)].
    { by rewrite Hsn. }
    destruct Hcase as [(e & rest & Hk' & _)|(_ & -> & Hh & _ & servername & -> & Hc)];
      [congruence|].
    exists st'. split_and!; [done|done| |].
    + unfold hasListeners. eexists. rewrite Hh, lookup_insert_eq. done.
    + unfold isDestroyed. by rewrite Hh, lookup_insert_eq.
  - apply servernameFor_None.
  - unfold servernameFor.
    intros [->|(r & -> & [->|[->| ->]])]; done.
  - intros r h -> Hh Hne. unfold servernameFor. rewrite Hh.
    rewrite bool_decide_eq_false_2 by done. split; [done|].
    intros Hlt. split; [by apply stripPort_no_colon|by apply stripPort_prefix].
Qed.

Lemma new_connection_options_witness :
  ∃ st',
    findOrCreateSocket "h:80" "h" "80" None
      (Some (mkRequest 1 (Some (HeaderString "example.org:8080")))) 0 oneSocketAgent
      = Some (0, st') ∧
    created st' = [mkConnOptions "80" "h" None "example.org"] ∧
    hasListeners 0 (mkClosure "h:80" "h" "80" None) st' ∧
    isDestroyed 0 st' = false.
Proof.
  destruct (new_connection_options "h:80" "h" "80" None
              (Some (mkRequest 1 (Some (HeaderString "example.org:8080")))) 0 oneSocketAgent)
    as (H & _).
  - vm_compute. reflexivity.
  - assert (servernameFor "h" (Some (mkRequest 1 (Some (HeaderString "example.org:8080"))))
            = Some "example.org") as Hsn by (vm_compute; reflexivity).
    rewrite Hsn in H. exact H.
Defined.

(** ** The idle lists stay in expiry order *)

(** X17: with a clock that never runs backwards every idle list is in
    the order of expiry, oldest first, and no entry expires later than
    [keepAlive] after the last event.  So the scan of [validateIdle],
    which stops at the first entry that has not expired, misses no
    expired entry: the entries it removes are all the expired ones and
    the entries it keeps are all the others, at any time [now]. *)
Theorem idle_lists_are_in_expiry_order options t st name now :
  reachableAt options t st →
  sortedByExpiry (idleOf name st) ∧
  (∀ e, e ∈ idleOf name st → (validTill e ≤ t + keepAlive (Agent options))%Z) ∧
  expiredPrefix now (idleOf name st) = filter (expired now) (idleOf name st) ∧
  keptSuffix now (idleOf name st) = filter (λ e, ¬ expired now e) (idleOf name st).
Proof.
  intros Hr.
  destruct (Timed_reachableAt options t st Hr name) as [Hs Hb].
  destruct (config_reachable options st (reachableAt_reachable options t st Hr))
    as (_ & Hk).
  destruct (expiredPrefix_sorted now (idleOf name st) Hs) as [Hp Hkept].
  rewrite <- Hk. done.
Qed.

Lemma idle_lists_are_in_expiry_order_witness :
  sortedByExpiry (idleOf "h:80" twoIdle) ∧
  (∀ e, e ∈ idleOf "h:80" twoIdle →
        (validTill e ≤ 5 + keepAlive twoSocketAgent)%Z) ∧
  expiredPrefix 10003 (idleOf "h:80" twoIdle) =
    filter (expired 10003) (idleOf "h:80" twoIdle) ∧
  keptSuffix 10003 (idleOf "h:80" twoIdle) =
    filter (λ e, ¬ expired 10003 e) (idleOf "h:80" twoIdle).
Proof.
  apply (idle_lists_are_in_expiry_order (mkAgentOptions (Some (integer 2)) None) 5 twoIdle "h:80" 10003).
  apply (reachableAt_run _ [ (0%Z, AddRequest (request 1) "h" "80" None);
                             (0%Z, AddRequest (request 2) "h" "80" None);
                             (0%Z, SocketFree 0);
                             (5%Z, SocketFree 1) ] 0 twoSocketAgent).
  - apply reachableAt_init.
  - vm_compute. reflexivity.
  - vm_compute. reflexivity.
Defined.
